(** * Lumina3D: the software rasterizer, the Cohen-Sutherland clipper and
    the Blinn-Phong shader, embedded from the C++ sources.

    - [F32]     : IEEE-754 binary32 ([float]) arithmetic, on [spec_float].
    - [glm]     : the few GLM vector helpers the sources call.
    - [Raster]  : src/src/Rasterizer.cpp
    - [Clip]    : src/src/Transform.cpp ([clipLine], [computeOutCode])
    - [Shade]   : src/src/Renderer.cpp  (class [Shaders])

    Conventions.  A C++ [int] is a [Z]; signed overflow is undefined in
    C++ and is not modelled, so the integer routines are the source's on
    every input whose intermediate values fit an [int].  A [uint8_t] is a
    [Z] in [0, 256).  A [float] is a [spec_float] used at precision 24 and
    maximal exponent 128, every operation rounding to nearest-even as the
    hardware does.  A heap buffer is a list; reading or writing past its
    end is an error of the model ([None]), as it is undefined in C++. *)

From Stdlib Require Import ZArith Bool Lia.
From Stdlib Require Import Floats.SpecFloat.
From stdpp Require Import base option list.

Local Open Scope Z_scope.

(* ===================================================================== *)
(** ** binary32 *)
(* ===================================================================== *)

Module F32.

Definition prec : Z := 24.
Definition emax : Z := 128.

Abbreviation float := spec_float.

Definition add : float -> float -> float := SFadd prec emax.
Definition sub : float -> float -> float := SFsub prec emax.
Definition mul : float -> float -> float := SFmul prec emax.
Definition div : float -> float -> float := SFdiv prec emax.
Definition sqrt : float -> float := SFsqrt prec emax.
Definition opp : float -> float := SFopp.
Definition abs : float -> float := SFabs.

Definition ltb : float -> float -> bool := SFltb.
Definition leb : float -> float -> bool := SFleb.
Definition eqb : float -> float -> bool := SFeqb.
(** [a > b] and [a >= b] of C++ are [b < a] and [b <= a]. *)
Definition gtb (a b : float) : bool := SFltb b a.
Definition geb (a b : float) : bool := SFleb b a.

(** [static_cast<float>(n)] for an [int] (or promoted [uint8_t]) [n]. *)
Definition of_Z (n : Z) : float := binary_normalize prec emax n 0 false.

(** The literal whose decimal value is [n / d], for [n], [d] below 2^24:
    the correctly rounded quotient of two exact floats is the float
    nearest to the fraction, which is what the compiler stores. *)
Definition lit (n d : Z) : float := div (of_Z n) (of_Z d).

Definition zero : float := S754_zero false.
Definition one : float := of_Z 1.

Definition is_zero (f : float) : bool :=
  match f with S754_zero _ => true | _ => false end.
Definition is_finite (f : float) : bool :=
  match f with S754_zero _ | S754_finite _ _ _ => true | _ => false end.

(** A well-formed binary32 datum. *)
Definition valid (f : float) : bool := valid_binary prec emax f.

Definition INT_MIN : Z := - 2 ^ 31.
Definition INT_MAX : Z := 2 ^ 31 - 1.

(** The integer a float-to-[int] conversion yields.  Out of range (and
    for NaN and the infinities) the C++ conversion is undefined; the
    x86-64 instruction returns the "integer indefinite" [INT_MIN], which
    is what is modelled. *)
Definition to_int (z : option Z) : Z :=
  match z with
  | Some n => if (INT_MIN <=? n) && (n <=? INT_MAX) then n else INT_MIN
  | None => INT_MIN
  end.

(** The signed value [(-1)^s * m * 2^e] rounded up / towards zero. *)
Definition ceilZ (f : float) : option Z :=
  match f with
  | S754_zero _ => Some 0
  | S754_finite s m e =>
      let n := if s then Z.neg m else Z.pos m in
      Some (if 0 <=? e then n * 2 ^ e else - ((- n) / 2 ^ (- e)))
  | _ => None
  end.

Definition truncZ (f : float) : option Z :=
  match f with
  | S754_zero _ => Some 0
  | S754_finite s m e =>
      let n := if s then Z.neg m else Z.pos m in
      Some (if 0 <=? e then n * 2 ^ e else Z.quot n (2 ^ (- e)))
  | _ => None
  end.

(** [static_cast<int>(std::ceil(f))] *)
Definition ceil_int (f : float) : Z := to_int (ceilZ f).
(** [static_cast<int>(f)] *)
Definition trunc_int (f : float) : Z := to_int (truncZ f).
(** [static_cast<uint8_t>(f)]: truncation, then the low byte. *)
Definition to_u8 (f : float) : Z := trunc_int f mod 256.

(** [std::max(a, b)] is [(a < b) ? b : a]; [std::min(a, b)] is
    [(b < a) ? b : a]. *)
Definition max (a b : float) : float := if ltb a b then b else a.
Definition min (a b : float) : float := if ltb b a then b else a.

End F32.

Declare Scope f32_scope.
Delimit Scope f32_scope with f32.
Infix "+" := F32.add : f32_scope.
Infix "-" := F32.sub : f32_scope.
Infix "*" := F32.mul : f32_scope.
Infix "/" := F32.div : f32_scope.
Infix "<?" := F32.ltb : f32_scope.
Infix "<=?" := F32.leb : f32_scope.
Infix ">?" := F32.gtb : f32_scope.
Infix "=?" := F32.eqb : f32_scope.

(* ===================================================================== *)
(** ** GLM helpers (scalar reference implementation of the library) *)
(* ===================================================================== *)

Module vec2.
Record t := mk { x : F32.float; y : F32.float }.
End vec2.

Module vec3.
Record t := mk { x : F32.float; y : F32.float; z : F32.float }.
End vec3.

Module vec4.
Record t := mk { x : F32.float; y : F32.float; z : F32.float; w : F32.float }.
End vec4.

Module glm.
Local Open Scope f32_scope.

(** [glm::vec3(s)]: every component [s]. *)
Definition splat3 (s : F32.float) : vec3.t := vec3.mk s s s.

Definition add3 (a b : vec3.t) : vec3.t :=
  vec3.mk (vec3.x a + vec3.x b) (vec3.y a + vec3.y b) (vec3.z a + vec3.z b).
Definition sub3 (a b : vec3.t) : vec3.t :=
  vec3.mk (vec3.x a - vec3.x b) (vec3.y a - vec3.y b) (vec3.z a - vec3.z b).
(** [a * b] on vectors is component-wise. *)
Definition mul3 (a b : vec3.t) : vec3.t :=
  vec3.mk (vec3.x a * vec3.x b) (vec3.y a * vec3.y b) (vec3.z a * vec3.z b).
Definition scale3 (a : vec3.t) (s : F32.float) : vec3.t :=
  vec3.mk (vec3.x a * s) (vec3.y a * s) (vec3.z a * s).

(** [glm::dot]: the products, summed left to right. *)
Definition dot (a b : vec3.t) : F32.float :=
  let tmp := mul3 a b in vec3.x tmp + vec3.y tmp + vec3.z tmp.

Definition inversesqrt (s : F32.float) : F32.float := F32.one / F32.sqrt s.

(** [glm::normalize(v)] is [v * inversesqrt(dot(v, v))]. *)
Definition normalize (v : vec3.t) : vec3.t := scale3 v (inversesqrt (dot v v)).

(** [glm::mix(x, y, a)] is [x * (1 - a) + y * a]. *)
Definition mix (p q a : F32.float) : F32.float := p * (F32.one - a) + q * a.
Definition mix3 (p q : vec3.t) (a : F32.float) : vec3.t :=
  vec3.mk (mix (vec3.x p) (vec3.x q) a) (mix (vec3.y p) (vec3.y q) a)
          (mix (vec3.z p) (vec3.z q) a).
Definition mix4 (p q : vec4.t) (a : F32.float) : vec4.t :=
  vec4.mk (mix (vec4.x p) (vec4.x q) a) (mix (vec4.y p) (vec4.y q) a)
          (mix (vec4.z p) (vec4.z q) a) (mix (vec4.w p) (vec4.w q) a).

(** [glm::clamp(x, lo, hi)] is [min(max(x, lo), hi)], GLM's [max(a, b)]
    being [(a < b) ? b : a] and its [min(a, b)] being [(b < a) ? b : a]. *)
Definition clamp (s lo hi : F32.float) : F32.float := F32.min (F32.max s lo) hi.
Definition clamp3 (v : vec3.t) (lo hi : F32.float) : vec3.t :=
  vec3.mk (clamp (vec3.x v) lo hi) (clamp (vec3.y v) lo hi) (clamp (vec3.z v) lo hi).
End glm.

(* ===================================================================== *)
(** ** Heap buffers *)
(* ===================================================================== *)

Section Buffers.
Context {A : Type}.

(** [buf[i]] as an rvalue. *)
Definition load (buf : list A) (i : Z) : option A :=
  if 0 <=? i then buf !! Z.to_nat i else None.

(** [buf[i] = v]. *)
Definition store (buf : list A) (i : Z) (v : A) : option (list A) :=
  if (0 <=? i) && (i <? Z.of_nat (length buf))
  then Some (<[Z.to_nat i := v]> buf) else None.

(** Running a fallible action over a sequence of arguments, in order. *)
Fixpoint foldM {S : Type} (f : S -> A -> option S) (l : list A) (s : S) : option S :=
  match l with
  | [] => Some s
  | a :: l' => s' ← f s a; foldM f l' s'
  end.
End Buffers.


(* ===================================================================== *)
(** ** src/include/Rasterizer.h, src/src/Rasterizer.cpp *)
(* ===================================================================== *)

Module Raster.
Import F32.
Local Open Scope f32_scope.
Local Open Scope Z_scope.

(** [struct Color]: four 8-bit channels. *)
Record Color := mkColor { r : Z; g : Z; b : Z; a : Z }.

(** [Color(red, green, blue)]: alpha defaults to 255. *)
Definition rgb (red green blue : Z) : Color := mkColor red green blue 255.

Record Vertex := mkVertex {
  position : vec4.t;
  worldPos : vec3.t;
  normal : vec3.t;
  color : Color
}.

(** [class Rasterizer]: the two dimensions and the two owned buffers. *)
Record Rasterizer := mkRasterizer {
  width : Z;
  height : Z;
  frameBuffer : list Z;
  depthBuffer : list float
}.

(** The shape the constructor establishes: [width * height * 3] bytes and
    [width * height] floats. *)
Definition wf (rs : Rasterizer) : Prop :=
  0 <= width rs /\ 0 <= height rs /\
  Z.of_nat (length (frameBuffer rs)) = width rs * height rs * 3 /\
  Z.of_nat (length (depthBuffer rs)) = width rs * height rs.

Definition isInBounds (rs : Rasterizer) (x y : Z) : bool :=
  (0 <=? x) && (x <? width rs) && (0 <=? y) && (y <? height rs).

(** The first loop of [clearBuffers], [n] iterations left, at index [i]. *)
Fixpoint clearBuffers_color (n : nat) (i : Z) (clearColor : Color) (fb : list Z)
  : option (list Z) :=
  match n with
  | O => Some fb
  | S n' =>
      fb0 ← store fb (i * 3 + 0) (r clearColor);
      fb1 ← store fb0 (i * 3 + 1) (g clearColor);
      fb2 ← store fb1 (i * 3 + 2) (b clearColor);
      clearBuffers_color n' (i + 1) clearColor fb2
  end.

(** The second loop of [clearBuffers]: 1.0f, the far plane. *)
Fixpoint clearBuffers_depth (n : nat) (i : Z) (db : list float) : option (list float) :=
  match n with
  | O => Some db
  | S n' => db' ← store db i one; clearBuffers_depth n' (i + 1) db'
  end.

Definition clearBuffers (rs : Rasterizer) (clearColor : Color) : option Rasterizer :=
  let n := Z.to_nat (width rs * height rs) in
  fb ← clearBuffers_color n 0 clearColor (frameBuffer rs);
  db ← clearBuffers_depth n 0 (depthBuffer rs);
  Some (mkRasterizer (width rs) (height rs) fb db).

(** [Rasterizer(width, height)]: allocation, then [clearBuffers()] with its
    default colour.  The fresh arrays hold indeterminate values; they are
    overwritten before anything reads them. *)
Definition new (w h : Z) : option Rasterizer :=
  clearBuffers
    (mkRasterizer w h (replicate (Z.to_nat (w * h * 3)) 0)
                      (replicate (Z.to_nat (w * h)) zero))
    (mkColor 0 0 0 255).

Definition setPixel (rs : Rasterizer) (x y : Z) (color_ : Color) : option Rasterizer :=
  if negb (isInBounds rs x y) then Some rs else
  let index := (y * width rs + x) * 3 in
  fb0 ← store (frameBuffer rs) (index + 0) (r color_);
  fb1 ← store fb0 (index + 1) (g color_);
  fb2 ← store fb1 (index + 2) (b color_);
  Some (mkRasterizer (width rs) (height rs) fb2 (depthBuffer rs)).

Definition setPixelWithDepth (rs : Rasterizer) (x y : Z) (depth : float)
    (color_ : Color) : option Rasterizer :=
  if negb (isInBounds rs x y) then Some rs else
  let index := y * width rs + x in
  stored ← load (depthBuffer rs) index;
  if (depth <? stored)%f32 then
    db ← store (depthBuffer rs) index depth;
    let colorIndex := index * 3 in
    fb0 ← store (frameBuffer rs) (colorIndex + 0) (r color_);
    fb1 ← store fb0 (colorIndex + 1) (g color_);
    fb2 ← store fb1 (colorIndex + 2) (b color_);
    Some (mkRasterizer (width rs) (height rs) fb2 db)
  else Some rs.

(** *** Lines (Bresenham)

    None of the line and circle routines reads a buffer, so each is the
    sequence of [setPixel] calls it issues, applied in order. *)

Definition plot (color_ : Color) (rs : Rasterizer) (p : Z * Z) : option Rasterizer :=
  setPixel rs p.1 p.2 color_.

(** The loop of [drawLineLow]: [n] iterations left, at column [x]. *)
Fixpoint drawLineLow_loop (n : nat) (x y D dx dy yi : Z) : list (Z * Z) :=
  match n with
  | O => []
  | S n' =>
      (x, y) ::
      (let '(y', D') := if 0 <? D then (y + yi, D - 2 * dx) else (y, D) in
       drawLineLow_loop n' (x + 1) y' (D' + 2 * dy) dx dy yi)
  end.

Definition drawLineLow_pixels (x1 y1 x2 y2 : Z) : list (Z * Z) :=
  let dx := x2 - x1 in
  let dy := y2 - y1 in
  let '(yi, dy) := if dy <? 0 then (-1, - dy) else (1, dy) in
  let D := 2 * dy - dx in
  drawLineLow_loop (Z.to_nat (x2 + 1 - x1)) x1 y1 D dx dy yi.

(** The loop of [drawLineHigh]: [n] iterations left, at row [y]. *)
Fixpoint drawLineHigh_loop (n : nat) (x y D dx dy xi : Z) : list (Z * Z) :=
  match n with
  | O => []
  | S n' =>
      (x, y) ::
      (let '(x', D') := if 0 <? D then (x + xi, D - 2 * dy) else (x, D) in
       drawLineHigh_loop n' x' (y + 1) (D' + 2 * dx) dx dy xi)
  end.

Definition drawLineHigh_pixels (x1 y1 x2 y2 : Z) : list (Z * Z) :=
  let dx := x2 - x1 in
  let dy := y2 - y1 in
  let '(xi, dx) := if dx <? 0 then (-1, - dx) else (1, dx) in
  let D := 2 * dx - dy in
  drawLineHigh_loop (Z.to_nat (y2 + 1 - y1)) x1 y1 D dx dy xi.

Definition draw_line_pixels (x1 y1 x2 y2 : Z) : list (Z * Z) :=
  if Z.abs (y2 - y1) <? Z.abs (x2 - x1) then
    if x2 <? x1 then drawLineLow_pixels x2 y2 x1 y1
    else drawLineLow_pixels x1 y1 x2 y2
  else
    if y2 <? y1 then drawLineHigh_pixels x2 y2 x1 y1
    else drawLineHigh_pixels x1 y1 x2 y2.

Definition draw_line (rs : Rasterizer) (x1 y1 x2 y2 : Z) (color_ : Color)
  : option Rasterizer :=
  foldM (plot color_) (draw_line_pixels x1 y1 x2 y2) rs.

(** *** Circles (midpoint) *)

Definition drawCirclePoints_pixels (xc yc x y : Z) : list (Z * Z) :=
  [ (xc + x, yc + y); (xc - x, yc + y); (xc + x, yc - y); (xc - x, yc - y);
    (xc + y, yc + x); (xc - y, yc + x); (xc + y, yc - x); (xc - y, yc - x) ].

(** The [while (x < y)] loop of [draw_circle].  Every iteration shrinks
    [y - x], so [Z.to_nat (y - x)] units of [fuel] outlast it. *)
Fixpoint draw_circle_loop (fuel : nat) (xc yc x y d : Z) : list (Z * Z) :=
  if x <? y then
    match fuel with
    | O => []
    | S fuel' =>
        let x := x + 1 in
        let '(y, d) := if d <? 0 then (y, d + 2 * x + 1)
                       else (y - 1, d + 2 * (x - (y - 1)) + 1) in
        drawCirclePoints_pixels xc yc x y ++ draw_circle_loop fuel' xc yc x y d
    end
  else [].

Definition draw_circle_pixels (xc yc r_ : Z) : list (Z * Z) :=
  let x := 0 in
  let y := r_ in
  let d := 1 - r_ in
  drawCirclePoints_pixels xc yc x y ++ draw_circle_loop (Z.to_nat (y - x)) xc yc x y d.

Definition draw_circle (rs : Rasterizer) (xc yc r_ : Z) (color_ : Color)
  : option Rasterizer :=
  foldM (plot color_) (draw_circle_pixels xc yc r_) rs.

(** *** Filled triangles *)

(** [computeBarycentric(x, y, v1, v2, v3)] *)
Definition computeBarycentric (x y : float) (v1 v2 v3 : vec2.t) : vec3.t :=
  let denominator :=
    ((vec2.y v2 - vec2.y v3) * (vec2.x v1 - vec2.x v3)
     + (vec2.x v3 - vec2.x v2) * (vec2.y v1 - vec2.y v3))%f32 in
  if (F32.abs denominator <? lit 1 1000000)%f32 then
    glm.splat3 (one / of_Z 3)%f32
  else
    let w1 := (((vec2.y v2 - vec2.y v3) * (x - vec2.x v3)
                + (vec2.x v3 - vec2.x v2) * (y - vec2.y v3)) / denominator)%f32 in
    let w2 := (((vec2.y v3 - vec2.y v1) * (x - vec2.x v3)
                + (vec2.x v1 - vec2.x v3) * (y - vec2.y v3)) / denominator)%f32 in
    let w3 := (one - w1 - w2)%f32 in
    vec3.mk w1 w2 w3.

(** What one iteration of the inner loop of either fill hands to
    [setPixelWithDepth], together with the weights it came from. *)
Record Fragment := mkFragment {
  fx : Z;
  fy : Z;
  fbary : vec3.t;
  fdepth : float;
  fcolor : Color
}.

Definition xy (v : Vertex) : vec2.t :=
  vec2.mk (vec4.x (position v)) (vec4.y (position v)).

(** [bary.x * a + bary.y * b + bary.z * c] *)
Definition interpolate (bary : vec3.t) (a b c : float) : float :=
  (vec3.x bary * a + vec3.y bary * b + vec3.z bary * c)%f32.

(** The body of the [for x] loop, shared verbatim by
    [fillFlatBottomTriangle] and [fillFlatTopTriangle]. *)
Definition shadePixel (v1 v2 v3 : Vertex) (y x : Z) : Fragment :=
  let bary := computeBarycentric (of_Z x) (of_Z y) (xy v1) (xy v2) (xy v3) in
  let depth := interpolate bary (vec4.z (position v1)) (vec4.z (position v2))
                                (vec4.z (position v3)) in
  let chan (sel : Color -> Z) : Z :=
    to_u8 (interpolate bary (of_Z (sel (color v1))) (of_Z (sel (color v2)))
                            (of_Z (sel (color v3)))) in
  mkFragment x y bary depth (rgb (chan r) (chan g) (chan b)).

(** One scanline: [for (int x = xStart; x < xEnd; ++x)]. *)
Definition scanline (v1 v2 v3 : Vertex) (y : Z) (x1 x2 : float) : list Fragment :=
  let xStart := ceil_int x1 in
  let xEnd := ceil_int x2 in
  shadePixel v1 v2 v3 y <$> seqZ xStart (xEnd - xStart).

(** [for (int y = startY; y < endY; ++y)], [n] rows left. *)
Fixpoint fillFlatBottom_rows (n : nat) (y : Z) (x1 x2 invSlope1 invSlope2 : float)
    (v1 v2 v3 : Vertex) : list Fragment :=
  match n with
  | O => []
  | S n' =>
      scanline v1 v2 v3 y x1 x2 ++
      fillFlatBottom_rows n' (y + 1) (x1 + invSlope1)%f32 (x2 + invSlope2)%f32
                          invSlope1 invSlope2 v1 v2 v3
  end.

Definition fillFlatBottomTriangle_fragments (v1 v2 v3 : Vertex) (useGouraud : bool)
  : list Fragment :=
  let p1 := position v1 in
  let p2 := position v2 in
  let p3 := position v3 in
  let invSlope1 := ((vec4.x p2 - vec4.x p1) / (vec4.y p2 - vec4.y p1))%f32 in
  let invSlope2 := ((vec4.x p3 - vec4.x p1) / (vec4.y p3 - vec4.y p1))%f32 in
  let x1 := vec4.x p1 in
  let x2 := vec4.x p1 in
  let startY := ceil_int (vec4.y p1) in
  let endY := ceil_int (vec4.y p2) in
  fillFlatBottom_rows (Z.to_nat (endY - startY)) startY x1 x2 invSlope1 invSlope2
                      v1 v2 v3.

(** [for (int y = startY; y > endY; --y)], [n] rows left. *)
Fixpoint fillFlatTop_rows (n : nat) (y : Z) (x1 x2 invSlope1 invSlope2 : float)
    (v1 v2 v3 : Vertex) : list Fragment :=
  match n with
  | O => []
  | S n' =>
      scanline v1 v2 v3 y x1 x2 ++
      fillFlatTop_rows n' (y - 1) (x1 - invSlope1)%f32 (x2 - invSlope2)%f32
                       invSlope1 invSlope2 v1 v2 v3
  end.

Definition fillFlatTopTriangle_fragments (v1 v2 v3 : Vertex) (useGouraud : bool)
  : list Fragment :=
  let p1 := position v1 in
  let p2 := position v2 in
  let p3 := position v3 in
  let invSlope1 := ((vec4.x p3 - vec4.x p1) / (vec4.y p3 - vec4.y p1))%f32 in
  let invSlope2 := ((vec4.x p3 - vec4.x p2) / (vec4.y p3 - vec4.y p2))%f32 in
  let x1 := vec4.x p3 in
  let x2 := vec4.x p3 in
  let startY := ceil_int (vec4.y p3) in
  let endY := ceil_int (vec4.y p1) in
  fillFlatTop_rows (Z.to_nat (startY - endY)) startY x1 x2 invSlope1 invSlope2
                   v1 v2 v3.

(** [std::sort] of three elements by [a.position.y < b.position.y]: the
    library's insertion sort (the algorithm it runs below 16 elements). *)
Definition lessY (p q : Vertex) : bool :=
  (vec4.y (position p) <? vec4.y (position q))%f32.

Definition sortByY (v1 v2 v3 : Vertex) : Vertex * Vertex * Vertex :=
  let '(s0, s1) := if lessY v2 v1 then (v2, v1) else (v1, v2) in
  if lessY v3 s0 then (v3, s0, s1)
  else if lessY v3 s1 then (s0, v3, s1)
  else (s0, s1, v3).

(** The synthetic vertex on edge top-bot at the height of mid. *)
Definition splitVertex (top mid bot : Vertex) : Vertex :=
  let t := ((vec4.y (position mid) - vec4.y (position top))
            / (vec4.y (position bot) - vec4.y (position top)))%f32 in
  let chan (sel : Color -> Z) : Z :=
    to_u8 (of_Z (sel (color top)) * (of_Z 1 - t) + of_Z (sel (color bot)) * t)%f32 in
  mkVertex (glm.mix4 (position top) (position bot) t)
           (glm.mix3 (worldPos top) (worldPos bot) t)
           (glm.normalize (glm.mix3 (normal top) (normal bot) t))
           (rgb (chan r) (chan g) (chan b)).

(** The fills [drawTriangle] launches: which routine, on which vertices. *)
Variant Fill := FlatBottom (v1 v2 v3 : Vertex) | FlatTop (v1 v2 v3 : Vertex).

Definition drawTriangle_fills (v1 v2 v3 : Vertex) : list Fill :=
  let '(top, mid, bot) := sortByY v1 v2 v3 in
  if (vec4.y (position top) =? vec4.y (position bot))%f32 then []
  else if (vec4.y (position mid) =? vec4.y (position bot))%f32 then
    [FlatBottom top mid bot]
  else if (vec4.y (position top) =? vec4.y (position mid))%f32 then
    [FlatTop top mid bot]
  else
    let sv := splitVertex top mid bot in
    [FlatBottom top mid sv; FlatTop mid sv bot].

Definition fill_fragments (useGouraud : bool) (f : Fill) : list Fragment :=
  match f with
  | FlatBottom v1 v2 v3 => fillFlatBottomTriangle_fragments v1 v2 v3 useGouraud
  | FlatTop v1 v2 v3 => fillFlatTopTriangle_fragments v1 v2 v3 useGouraud
  end.

(** Every [setPixelWithDepth] call of [drawTriangle], in order. *)
Definition drawTriangle_fragments (v1 v2 v3 : Vertex) (useGouraud : bool)
  : list Fragment :=
  drawTriangle_fills v1 v2 v3 ≫= fill_fragments useGouraud.

Definition emit (rs : Rasterizer) (f : Fragment) : option Rasterizer :=
  setPixelWithDepth rs (fx f) (fy f) (fdepth f) (fcolor f).

Definition drawTriangle (rs : Rasterizer) (v1 v2 v3 : Vertex) (useGouraud : bool)
  : option Rasterizer :=
  foldM emit (drawTriangle_fragments v1 v2 v3 useGouraud) rs.

(** *** Wireframe *)

Definition drawWireframeTriangle (rs : Rasterizer) (v1 v2 v3 : Vertex)
    (color_ : Color) : option Rasterizer :=
  rs1 ← draw_line rs
          (trunc_int (vec4.x (position v1))) (trunc_int (vec4.y (position v1)))
          (trunc_int (vec4.x (position v2))) (trunc_int (vec4.y (position v2))) color_;
  rs2 ← draw_line rs1
          (trunc_int (vec4.x (position v2))) (trunc_int (vec4.y (position v2)))
          (trunc_int (vec4.x (position v3))) (trunc_int (vec4.y (position v3))) color_;
  draw_line rs2
          (trunc_int (vec4.x (position v3))) (trunc_int (vec4.y (position v3)))
          (trunc_int (vec4.x (position v1))) (trunc_int (vec4.y (position v1))) color_.

(** *** Views of the buffers, used to state what a routine did *)

(** The cell of pixel [(x, y)] in the depth buffer, as a list position. *)
Definition cellIndex (rs : Rasterizer) (x y : Z) : nat := Z.to_nat (y * width rs + x).

Definition depthAt (rs : Rasterizer) (x y : Z) : option float :=
  depthBuffer rs !! cellIndex rs x y.

Definition colorAt (rs : Rasterizer) (x y : Z) : option (Z * Z * Z) :=
  let i := (3 * cellIndex rs x y)%nat in
  cr ← frameBuffer rs !! i;
  cg ← frameBuffer rs !! (i + 1)%nat;
  cb ← frameBuffer rs !! (i + 2)%nat;
  Some (cr, cg, cb).

(** The three bytes a colour puts in the frame buffer. *)
Definition channels (c : Color) : Z * Z * Z := (r c, g c, b c).

(** One pixel's share of the two buffers: stored depth and stored colour. *)
Definition Cell : Type := float * (Z * Z * Z).

Definition cellAt (rs : Rasterizer) (x y : Z) : option Cell :=
  d ← depthAt rs x y; c ← colorAt rs x y; Some (d, c).

(** The Z-buffer test of [setPixelWithDepth], seen from one cell. *)
Definition depthTest (cell : Cell) (f : Fragment) : Cell :=
  if (fdepth f <? cell.1)%f32 then (fdepth f, channels (fcolor f)) else cell.

Definition hits (x y : Z) (f : Fragment) : bool := (fx f =? x) && (fy f =? y).

(** The pixel positions a fragment list covers. *)
Definition covers (fs : list Fragment) (x y : Z) : Prop :=
  exists f, f ∈ fs /\ fx f = x /\ fy f = y.

(** Everything a fragment list does to one cell, in order. *)
Definition cellRun (x y : Z) (fs : list Fragment) (c : Cell) : Cell :=
  foldl (fun c f => if hits x y f then depthTest c f else c) c fs.

(** Where a fragment lands. *)
Definition pos (f : Fragment) : Z * Z := (fx f, fy f).

(** Whether every fragment of [near] is nearer than every fragment of
    [far] that lands on the same pixel. *)
Definition nearerOnSharedPixels (near far : list Fragment) : bool :=
  forallb (fun f => forallb (fun g =>
    implb ((fx f =? fx g) && (fy f =? fy g)) (fdepth f <? fdepth g)%f32) far) near.

End Raster.

(* ===================================================================== *)
(** ** src/include/Transform.h, src/src/Transform.cpp: line clipping *)
(* ===================================================================== *)

Module Clip.
Import F32.
Local Open Scope Z_scope.

(** [enum ClipCode] *)
Definition INSIDE : Z := 0.
Definition LEFT : Z := 1.
Definition RIGHT : Z := 2.
Definition BOTTOM : Z := 4.
Definition TOP : Z := 8.

(** The clip rectangle, passed around as four floats in the source. *)
Record Rect := mkRect { xMin : float; yMin : float; xMax : float; yMax : float }.

Definition computeOutCode (x y : float) (rc : Rect) : Z :=
  let code := INSIDE in
  let code := if (x <? xMin rc)%f32 then Z.lor code LEFT
              else if (x >? xMax rc)%f32 then Z.lor code RIGHT
              else code in
  let code := if (y <? yMin rc)%f32 then Z.lor code BOTTOM
              else if (y >? yMax rc)%f32 then Z.lor code TOP
              else code in
  code.

(** [c & BIT], as a condition. *)
Definition has (c bit : Z) : bool := negb (Z.land c bit =? 0).

(** The arm of the [if (codeOut & TOP) ... else if ...] chain taken. *)
Variant Arm := ArmTop | ArmBottom | ArmRight | ArmLeft | ArmNone.

Definition arm (codeOut : Z) : Arm :=
  if has codeOut TOP then ArmTop
  else if has codeOut BOTTOM then ArmBottom
  else if has codeOut RIGHT then ArmRight
  else if has codeOut LEFT then ArmLeft
  else ArmNone.

(** The denominator the arm divides by. *)
Definition divisor (a : Arm) (x1 y1 x2 y2 : float) : option float :=
  match a with
  | ArmTop | ArmBottom => Some (y2 - y1)%f32
  | ArmRight | ArmLeft => Some (x2 - x1)%f32
  | ArmNone => None
  end.

(** The point written to [x], [y].  With no arm taken the two locals stay
    uninitialised; that case yields the pair [junk]. *)
Definition intersection (a : Arm) (x1 y1 x2 y2 : float) (rc : Rect)
    (junk : float * float) : float * float :=
  match a with
  | ArmTop => ((x1 + (x2 - x1) * (yMax rc - y1) / (y2 - y1))%f32, yMax rc)
  | ArmBottom => ((x1 + (x2 - x1) * (yMin rc - y1) / (y2 - y1))%f32, yMin rc)
  | ArmRight => (xMax rc, (y1 + (y2 - y1) * (xMax rc - x1) / (x2 - x1))%f32)
  | ArmLeft => (xMin rc, (y1 + (y2 - y1) * (xMin rc - x1) / (x2 - x1))%f32)
  | ArmNone => junk
  end.

(** The variables of the [while (true)] loop. *)
Record State := mkState {
  x1 : float; y1 : float; x2 : float; y2 : float;
  code1 : Z; code2 : Z
}.

(** How one pass through the loop body ends. *)
Variant Step := Accept | Reject | Continue (s : State).

Definition codeOut (s : State) : Z :=
  if negb (code1 s =? 0) then code1 s else code2 s.

Definition step (rc : Rect) (s : State) : Step :=
  if Z.lor (code1 s) (code2 s) =? 0 then Accept
  else if negb (Z.land (code1 s) (code2 s) =? 0) then Reject
  else
    let '(x, y) := intersection (arm (codeOut s)) (x1 s) (y1 s) (x2 s) (y2 s) rc
                                (S754_nan, S754_nan) in
    if codeOut s =? code1 s then
      Continue (mkState x y (x2 s) (y2 s) (computeOutCode x y rc) (code2 s))
    else
      Continue (mkState (x1 s) (y1 s) x y (code1 s) (computeOutCode x y rc)).

(** What [clipLine] leaves behind: the return value, the endpoints (they
    are reference parameters), and how many times an endpoint was clipped. *)
Record Result := mkResult { accept : bool; final : State; clips : nat }.

(** The loop, with [fuel] passes allowed; [None] when they do not suffice. *)
Fixpoint clipLine_loop (fuel : nat) (rc : Rect) (s : State) (done : nat)
  : option Result :=
  match step rc s with
  | Accept => Some (mkResult true s done)
  | Reject => Some (mkResult false s done)
  | Continue s' =>
      match fuel with
      | O => None
      | S fuel' => clipLine_loop fuel' rc s' (S done)
      end
  end.

Definition init (x1 y1 x2 y2 : float) (rc : Rect) : State :=
  mkState x1 y1 x2 y2 (computeOutCode x1 y1 rc) (computeOutCode x2 y2 rc).

Definition clipLine (fuel : nat) (x1 y1 x2 y2 : float) (rc : Rect) : option Result :=
  clipLine_loop fuel rc (init x1 y1 x2 y2 rc) 0.

End Clip.

(* ===================================================================== *)
(** ** src/include/Shaders.h, src/src/Renderer.cpp *)
(* ===================================================================== *)

Module Light.
Record t := mk { position : vec3.t; color : vec3.t; ambient : vec3.t }.
End Light.

Module Material.
Record t := mk {
  ambient : vec3.t; diffuse : vec3.t; specular : vec3.t; shininess : F32.float
}.
End Material.

Module Shade.
Import F32.

Section Shaders.

(** [std::pow] on floats: the C library's, taken as given. *)
Variable powf : float -> float -> float.

Definition calculateAmbient (light : Light.t) (material : Material.t) : vec3.t :=
  glm.mul3 (Light.ambient light) (Material.ambient material).

Definition calculateDiffuse (lightDir normal : vec3.t) (light : Light.t)
    (material : Material.t) : vec3.t :=
  let diff := F32.max (glm.dot normal lightDir) zero in
  glm.scale3 (glm.mul3 (Light.color light) (Material.diffuse material)) diff.

Definition calculateSpecular (lightDir normal viewDir : vec3.t) (light : Light.t)
    (material : Material.t) : vec3.t :=
  let halfwayDir := glm.normalize (glm.add3 lightDir viewDir) in
  let spec := powf (F32.max (glm.dot normal halfwayDir) zero)
                   (Material.shininess material) in
  glm.scale3 (glm.mul3 (Light.color light) (Material.specular material)) spec.

Definition vec3ToColor (c : vec3.t) : Raster.Color :=
  Raster.mkColor (to_u8 (vec3.x c * of_Z 255)%f32) (to_u8 (vec3.y c * of_Z 255)%f32)
                 (to_u8 (vec3.z c * of_Z 255)%f32) 255.

(** The last two statements of both shading entry points. *)
Definition finish (sum : vec3.t) : Raster.Color :=
  vec3ToColor (glm.clamp3 sum zero one).

Definition computeGouraudShading (vertexPos normal viewPos : vec3.t)
    (light : Light.t) (material : Material.t) : Raster.Color :=
  let norm := glm.normalize normal in
  let lightDir := glm.normalize (glm.sub3 (Light.position light) vertexPos) in
  let viewDir := glm.normalize (glm.sub3 viewPos vertexPos) in
  let ambient := calculateAmbient light material in
  let diffuse := calculateDiffuse lightDir norm light material in
  let specular := calculateSpecular lightDir norm viewDir light material in
  finish (glm.add3 (glm.add3 ambient diffuse) specular).

Definition computePhongShading (fragPos normal viewPos : vec3.t)
    (light : Light.t) (material : Material.t) : Raster.Color :=
  let norm := glm.normalize normal in
  let lightDir := glm.normalize (glm.sub3 (Light.position light) fragPos) in
  let viewDir := glm.normalize (glm.sub3 viewPos fragPos) in
  let ambient := calculateAmbient light material in
  let diffuse := calculateDiffuse lightDir norm light material in
  let specular := calculateSpecular lightDir norm viewDir light material in
  finish (glm.add3 (glm.add3 ambient diffuse) specular).

End Shaders.

End Shade.

(* ===================================================================== *)
(** ** Scenes and statements used below *)
(* ===================================================================== *)

Module Scene.
Import F32 Raster.

(** A vertex at screen position [(x, y)], depth [z], with default world
    position and normal. *)
Definition vertex (x y z : float) (c : Color) : Vertex :=
  mkVertex (vec4.mk x y z one) (vec3.mk zero zero zero) (vec3.mk zero zero one) c.

(** An unallocated-then-cleared [w] by [h] target. *)
Definition blank (w h : Z) : Rasterizer :=
  mkRasterizer w h (replicate (Z.to_nat (w * h * 3)) 0) (replicate (Z.to_nat (w * h)) zero).

(** A right triangle on the pixel grid, at depth [z]. *)
Definition corner (z : float) (c : Color) : Vertex * Vertex * Vertex :=
  (vertex (of_Z 0) (of_Z 0) z c, vertex (of_Z 6) (of_Z 0) z c, vertex (of_Z 0) (of_Z 6) z c).

(** A sliver: two vertices one pixel apart on row 0, thirteen million
    pixels right of the screen, the third as far to its left, 1.1 rows down. *)
Definition sliver (z : float) (c : Color) : Vertex * Vertex * Vertex :=
  (vertex (of_Z 1347911) (of_Z 0) z c,
   vertex (of_Z 1347912) (of_Z 0) z c,
   vertex (of_Z (-13479071)) (lit 11 10) z c).

Definition grey (v : Z) : Color := rgb v v v.

(** A triangle whose middle vertex lies to the left, so that it is split. *)
Definition wedge : Vertex * Vertex * Vertex :=
  (vertex (of_Z 6) (of_Z 0) (lit 1 5) (grey 10),
   vertex (of_Z 0) (of_Z 3) (lit 1 2) (grey 100),
   vertex (of_Z 6) (of_Z 6) (lit 4 5) (grey 250)).

End Scene.

(** Statements of the specification that are tested against the code. *)
Module Stated.
Import F32 Raster.

Definition Triangle : Type := Vertex * Vertex * Vertex.

Definition fragmentsOf (t : Triangle) (ug : bool) : list Fragment :=
  drawTriangle_fragments t.1.1 t.1.2 t.2 ug.

Definition draw (rs : Rasterizer) (t : Triangle) (ug : bool) : option Rasterizer :=
  drawTriangle rs t.1.1 t.1.2 t.2 ug.

(** All three vertices at depth [d]. *)
Definition constantDepth (d : float) (t : Triangle) : Prop :=
  vec4.z (position t.1.1) = d /\ vec4.z (position t.1.2) = d /\ vec4.z (position t.2) = d.

Definition sameCoverage (s t : Triangle) (ug : bool) : Prop :=
  forall x y, covers (fragmentsOf s ug) x y <-> covers (fragmentsOf t ug) x y.

(** What two draws in a row, [first] then [second], leave behind. *)
Definition drawBoth (s0 : Rasterizer) (first second : Triangle) (ug : bool)
  : option Rasterizer :=
  draw s0 first ug ≫= fun s => draw s second ug.

(** Depth-test correctness, as the specification words it: depth 0.2
    against depth 0.8 on the same pixels, from cleared buffers. *)
Definition depthOrderIndependence : Prop :=
  forall rs clear s0 near far ug,
    wf rs -> clearBuffers rs clear = Some s0 ->
    constantDepth (lit 1 5) near -> constantDepth (lit 4 5) far ->
    sameCoverage near far ug ->
    exists final,
      drawBoth s0 far near ug = Some final /\
      drawBoth s0 near far ug = Some final /\
      forall f, f ∈ fragmentsOf near ug -> isInBounds s0 (fx f) (fy f) = true ->
        colorAt final (fx f) (fy f) = Some (channels (fcolor f)).

(** Circle exactness: the sixteen offsets listed for radius 3. *)
Definition circle3 : list (Z * Z) :=
  [ (3, 0); (-3, 0); (0, 3); (0, -3); (1, 3); (-1, 3); (1, -3); (-1, -3);
    (3, 1); (-3, 1); (3, -1); (-3, -1); (2, 2); (-2, 2); (2, -2); (-2, -2) ].

(** [p] shifted by the centre [(xc, yc)]. *)
Definition shift (xc yc : Z) (p : Z * Z) : Z * Z := (xc + p.1, yc + p.2).

Definition eqbZZ (p q : Z * Z) : bool := (p.1 =? q.1) && (p.2 =? q.2).

(** Every point of [l] occurs in [k]. *)
Definition subsetb (l k : list (Z * Z)) : bool :=
  forallb (fun p => existsb (eqbZZ p) k) l.

(** A fragment whose weights were computed against [a], [b], [c], and whose
    depth and colour were interpolated from those weights. *)
Definition fromWeights (f : Fragment) (a b c : Vertex) : Prop :=
  fbary f = computeBarycentric (of_Z (fx f)) (of_Z (fy f)) (xy a) (xy b) (xy c) /\
  fdepth f = interpolate (fbary f) (vec4.z (position a)) (vec4.z (position b))
                         (vec4.z (position c)) /\
  fcolor f =
    rgb (to_u8 (interpolate (fbary f) (of_Z (r (color a))) (of_Z (r (color b)))
                            (of_Z (r (color c)))))
        (to_u8 (interpolate (fbary f) (of_Z (g (color a))) (of_Z (g (color b)))
                            (of_Z (g (color c)))))
        (to_u8 (interpolate (fbary f) (of_Z (Raster.b (color a)))
                            (of_Z (Raster.b (color b))) (of_Z (Raster.b (color c))))).

(** Interpolation in the fills, as the specification words it: always
    against the vertices of the triangle given to [drawTriangle]. *)
Definition weightsAgainstOriginal : Prop :=
  forall v1 v2 v3 ug f,
    f ∈ drawTriangle_fragments v1 v2 v3 ug ->
    exists a b c,
      a ∈ [v1; v2; v3] /\ b ∈ [v1; v2; v3] /\ c ∈ [v1; v2; v3] /\
      fromWeights f a b c.

End Stated.

(** The lighting of one shading call, term by term. *)
Module Lighting.
Import F32.

Definition isZero3 (v : vec3.t) : Prop :=
  is_zero (vec3.x v) = true /\ is_zero (vec3.y v) = true /\ is_zero (vec3.z v) = true.

Definition isFinite3 (v : vec3.t) : Prop :=
  is_finite (vec3.x v) = true /\ is_finite (vec3.y v) = true /\ is_finite (vec3.z v) = true.

(** What the C standard (Annex F) promises of [pow] at a zero base:
    [pow(+-0, y)] is a zero for every [y > 0]. *)
Definition powZeroBase (powf : float -> float -> float) : Prop :=
  forall base y, is_zero base = true -> ltb zero y = true -> is_zero (powf base y) = true.

(** A power function with that behaviour, to run the shader with: [base]
    multiplied by itself [ceil y] times ([base * 0] for [y = +inf]). *)
Definition powCeil (base y : float) : float :=
  match ceilZ y with
  | Some n => Nat.iter (Z.to_nat n) (mul base) one
  | None => match y with S754_infinity false => mul base zero | _ => S754_nan end
  end.

(** The directions the shader derives from its arguments. *)
Definition norm (normal : vec3.t) : vec3.t := glm.normalize normal.
Definition lightDir (light : Light.t) (pos : vec3.t) : vec3.t :=
  glm.normalize (glm.sub3 (Light.position light) pos).
Definition viewDir (viewPos pos : vec3.t) : vec3.t :=
  glm.normalize (glm.sub3 viewPos pos).
Definition halfwayDir (light : Light.t) (viewPos pos : vec3.t) : vec3.t :=
  glm.normalize (glm.add3 (lightDir light pos) (viewDir viewPos pos)).

(** Lighting boundary, as the specification words it. *)
Definition lightingBoundary : Prop :=
  forall powf, powZeroBase powf ->
  forall pos normal viewPos light material,
    ltb zero (Material.shininess material) = true ->
    (leb (glm.dot (norm normal) (lightDir light pos)) zero = true ->
       isZero3 (Shade.calculateDiffuse (lightDir light pos) (norm normal) light material)) /\
    (leb (glm.dot (norm normal) (halfwayDir light viewPos pos)) zero = true ->
       isZero3 (Shade.calculateSpecular powf (lightDir light pos) (norm normal)
                                        (viewDir viewPos pos) light material)) /\
    Shade.calculateAmbient light material
      = glm.mul3 (Light.ambient light) (Material.ambient material).

(** A surface at the origin facing +z, lit from behind by a light whose
    red channel is 2^127, on a material whose red reflectance is 2. *)
Definition origin : vec3.t := vec3.mk zero zero zero.
Definition up : vec3.t := vec3.mk zero zero one.
Definition behind : Light.t :=
  Light.mk (vec3.mk zero zero (of_Z (-1)))
           (vec3.mk (of_Z (2 ^ 127)) one one)
           (vec3.mk (lit 1 5) (lit 1 5) (lit 1 5)).
Definition glossy : Material.t :=
  Material.mk (vec3.mk (lit 1 5) (lit 1 5) (lit 1 5))
              (vec3.mk (of_Z 2) one one)
              (vec3.mk one one one) (of_Z 32).

(** The same scene under the default white light of [struct Light]. *)
Definition white : Light.t :=
  Light.mk (vec3.mk zero zero (of_Z (-1))) (vec3.mk one one one)
           (vec3.mk (lit 1 5) (lit 1 5) (lit 1 5)).
Definition matte : Material.t :=
  Material.mk (vec3.mk (lit 1 5) (lit 1 5) (lit 1 5))
              (vec3.mk (lit 4 5) (lit 4 5) (lit 4 5))
              (vec3.mk one one one) (of_Z 32).

End Lighting.

(** Clipping scenes. *)
Module ClipScene.
Import F32 Clip.

(** The loop variables hold well-formed binary32 numbers. *)
Definition validState (s : State) : Prop :=
  valid (x1 s) = true /\ valid (y1 s) = true /\
  valid (x2 s) = true /\ valid (y2 s) = true.

(** The four bounds are well-formed binary32 numbers. *)
Definition validRect (rc : Rect) : Prop :=
  valid (xMin rc) = true /\ valid (yMin rc) = true /\
  valid (xMax rc) = true /\ valid (yMax rc) = true.

(** Both outcodes are those of the current endpoints. *)
Definition codesCurrent (rc : Rect) (s : State) : Prop :=
  code1 s = computeOutCode (x1 s) (y1 s) rc /\
  code2 s = computeOutCode (x2 s) (y2 s) rc.

(** The state after [n] further passes, if the loop is still running. *)
Fixpoint after (n : nat) (rc : Rect) (s : State) : option State :=
  match n with
  | O => Some s
  | S n' => match step rc s with
            | Continue s' => after n' rc s'
            | _ => None
            end
  end.

(** A large window whose top-left corner is (-2^30, 2^30), and a segment
    from that corner to (-12, 2), two rows below the window's bottom edge
    y = 4 and inside its right edge x = -8.  The segment crosses the bottom
    edge at x = -14, inside the window. *)
Definition window : Rect := mkRect (of_Z (- 2 ^ 30)) (of_Z 4) (of_Z (-8)) (of_Z (2 ^ 30)).
Definition cornerX : float := of_Z (- 2 ^ 30).
Definition cornerY : float := of_Z (2 ^ 30).
Definition lowX : float := of_Z (-12).
Definition lowY : float := of_Z 2.

(** The two states the loop alternates between on that input. *)
Definition spinA : State :=
  mkState cornerX cornerY zero (of_Z 4) 0 RIGHT.
Definition spinB : State :=
  mkState cornerX cornerY (of_Z (-8)) zero 0 BOTTOM.

(** A segment across the unit-ish window [0, 10] x [0, 10]. *)
Definition square : Rect := mkRect (of_Z 0) (of_Z 0) (of_Z 10) (of_Z 10).

End ClipScene.

(** Several [drawTriangle] calls in a row, as a render loop issues them. *)
Module Pipeline.
Import Raster Stated.

Definition drawTriangles (rs : Rasterizer) (ts : list Triangle) (ug : bool)
  : option Rasterizer :=
  foldM (fun s t => draw s t ug) ts rs.

(** Every [setPixelWithDepth] call of the whole run, in order. *)
Definition fragmentsOfAll (ts : list Triangle) (ug : bool) : list Fragment :=
  ts ≫= fun t => fragmentsOf t ug.

End Pipeline.

(** Where a point lies with respect to the clip rectangle, in the terms
    [computeOutCode] tests. *)
Module ClipRegions.
Import F32 Clip.

(** None of the four comparisons of [computeOutCode] holds. *)
Definition inside (rc : Rect) (x y : float) : Prop :=
  ltb x (xMin rc) = false /\ gtb x (xMax rc) = false /\
  ltb y (yMin rc) = false /\ gtb y (yMax rc) = false.

(** The point lies on one of the four lines that carry the edges. *)
Definition onEdgeLine (rc : Rect) (x y : float) : Prop :=
  x = xMin rc \/ x = xMax rc \/ y = yMin rc \/ y = yMax rc.

(** Both points fail one and the same comparison. *)
Definition beyondSameSide (rc : Rect) (x1 y1 x2 y2 : float) : Prop :=
  (ltb x1 (xMin rc) = true /\ ltb x2 (xMin rc) = true) \/
  (gtb x1 (xMax rc) = true /\ gtb x2 (xMax rc) = true) \/
  (ltb y1 (yMin rc) = true /\ ltb y2 (yMin rc) = true) \/
  (gtb y1 (yMax rc) = true /\ gtb y2 (yMax rc) = true).

End ClipRegions.

(* ===================================================================== *)
(** ** src/include/Transform.h, src/src/Transform.cpp: matrices *)
(* ===================================================================== *)

(** [glm::mat4]: four columns. *)
Module mat4.
Import F32.
Record t := mk { c0 : vec4.t; c1 : vec4.t; c2 : vec4.t; c3 : vec4.t }.

(** [glm::mat4(1.0f)]: ones on the diagonal. *)
Definition identity : t :=
  mk (vec4.mk one zero zero zero) (vec4.mk zero one zero zero)
     (vec4.mk zero zero one zero) (vec4.mk zero zero zero one).
End mat4.

Module Transform.
Import F32.

(** [class Transform]: the three matrices and the stack, a [std::vector]
    whose back is the top. *)
Record t := mk {
  modelMatrix : mat4.t;
  viewMatrix : mat4.t;
  projectionMatrix : mat4.t;
  matrixStack : list mat4.t
}.

(** [Transform::Transform()] *)
Definition new : t := mk mat4.identity mat4.identity mat4.identity [].

Definition setModelMatrix (tr : t) (model : mat4.t) : t :=
  mk model (viewMatrix tr) (projectionMatrix tr) (matrixStack tr).
Definition setViewMatrix (tr : t) (view : mat4.t) : t :=
  mk (modelMatrix tr) view (projectionMatrix tr) (matrixStack tr).
Definition setProjectionMatrix (tr : t) (projection : mat4.t) : t :=
  mk (modelMatrix tr) (viewMatrix tr) projection (matrixStack tr).

(** [matrixStack.push_back(modelMatrix)] *)
Definition pushMatrix (tr : t) : t :=
  mk (modelMatrix tr) (viewMatrix tr) (projectionMatrix tr)
     (matrixStack tr ++ [modelMatrix tr]).

(** [if (!matrixStack.empty()) { modelMatrix = matrixStack.back();
    matrixStack.pop_back(); }] *)
Definition popMatrix (tr : t) : t :=
  match last (matrixStack tr) with
  | None => tr
  | Some top =>
      mk top (viewMatrix tr) (projectionMatrix tr) (removelast (matrixStack tr))
  end.

End Transform.

(** A traversal of a scene hierarchy: the operations a node may perform on
    the model matrix between entering and leaving. *)
Module Traversal.

Inductive Op :=
| Push
| Pop
| SetModel (m : mat4.t).

Definition run1 (tr : Transform.t) (op : Op) : Transform.t :=
  match op with
  | Push => Transform.pushMatrix tr
  | Pop => Transform.popMatrix tr
  | SetModel m => Transform.setModelMatrix tr m
  end.

Definition run (ops : list Op) (tr : Transform.t) : Transform.t := foldl run1 tr ops.

(** Every [Pop] answers an earlier [Push] of the same list, and every
    [Push] is answered: [depth] is the number of pushes still open. *)
Fixpoint balanced (depth : nat) (ops : list Op) : bool :=
  match ops with
  | [] => Nat.eqb depth 0
  | Push :: ops' => balanced (S depth) ops'
  | Pop :: ops' => match depth with O => false | S d => balanced d ops' end
  | SetModel _ :: ops' => balanced depth ops'
  end.

End Traversal.

(** The colour helpers of [class Shaders] (src/src/Renderer.cpp). *)
Module ColorMix.
Import F32 Raster.
Local Open Scope f32_scope.

(** [interpolateColor(c1, c2, t)] *)
Definition interpolateColor (c1 c2 : Color) (t : float) : Color :=
  let chan (sel : Color -> Z) : Z :=
    to_u8 (of_Z (sel c1) * (of_Z 1 - t) + of_Z (sel c2) * t) in
  mkColor (chan r) (chan g) (chan b) (chan a).

(** [interpolateColor(c1, c2, c3, u, v, w)] *)
Definition interpolateColor3 (c1 c2 c3 : Color) (u v w : float) : Color :=
  let chan (sel : Color -> Z) : Z :=
    to_u8 (of_Z (sel c1) * u + of_Z (sel c2) * v + of_Z (sel c3) * w) in
  mkColor (chan r) (chan g) (chan b) (chan a).

(** Every channel is a [uint8_t]. *)
Definition byteColor (c : Color) : Prop :=
  (0 <= r c < 256 /\ 0 <= g c < 256 /\ 0 <= b c < 256 /\ 0 <= a c < 256)%Z.

(** Whether the bytes [lo], ..., [lo + n - 1] all pass a test. *)
Definition allBytes (test : Z -> bool) (lo n : Z) : bool := forallb test (seqZ lo n).

End ColorMix.

(** The inputs on which the integer routines stay within C++ [int], so
    that modelling [int] by [Z] loses nothing. *)
Module IntRange.
Import F32.

Definition fitsInt (n : Z) : Prop := INT_MIN <= n <= INT_MAX.

(** [draw_line]: the coordinates are ints below [INT_MAX] (the loop
    counter is incremented once past the far endpoint) and both extents
    are below 2^30 (the decision variable and the doubled extents stay
    within twice the longer extent). *)
Definition lineFits (x1 y1 x2 y2 : Z) : Prop :=
  INT_MIN <= x1 < INT_MAX /\ INT_MIN <= y1 < INT_MAX /\
  INT_MIN <= x2 < INT_MAX /\ INT_MIN <= y2 < INT_MAX /\
  Z.abs (x2 - x1) < 2 ^ 30 /\ Z.abs (y2 - y1) < 2 ^ 30.

(** [draw_circle]: the bounding square of the circle has int corners and
    the radius is below 2^29 (the decision variable stays within
    [3 * r + 1] in absolute value). *)
Definition circleFits (xc yc r_ : Z) : Prop :=
  Z.abs r_ < 2 ^ 29 /\
  fitsInt (xc - Z.abs r_) /\ fitsInt (xc + Z.abs r_) /\
  fitsInt (yc - Z.abs r_) /\ fitsInt (yc + Z.abs r_).

(** The constructor: the byte count [width * height * 3] is an int. *)
Definition sizeFits (w h : Z) : Prop := 0 <= w /\ 0 <= h /\ w * h * 3 <= INT_MAX.

End IntRange.

(* ===================================================================== *)
(** * Properties *)
(* ===================================================================== *)

Module F32Facts.
Import F32.

Lemma compare_antisym (p q : float) :
  SFcompare q p = option_map CompOpp (SFcompare p q).
Proof.
  destruct p as [s1| s1| |s1 m1 e1], q as [s2| s2| |s2 m2 e2]; simpl;
    try reflexivity; try (destruct s1, s2; reflexivity); try (destruct s2; reflexivity);
    try (destruct s1; reflexivity).
  destruct s1, s2; simpl; try reflexivity.
  - rewrite (Z.compare_antisym e1 e2).
    destruct (e1 ?= e2)%Z; simpl; try reflexivity.
    rewrite (Pos.compare_cont_antisym m1 m2 Eq). simpl.
    now rewrite ?CompOpp_involutive.
  - rewrite (Z.compare_antisym e1 e2).
    destruct (e1 ?= e2)%Z; simpl; try reflexivity.
    rewrite (Pos.compare_cont_antisym m1 m2 Eq). simpl.
    now rewrite ?CompOpp_involutive.
Qed.

Lemma ltb_asym (p q : float) : ltb p q = true -> ltb q p = false.
Proof.
  unfold ltb, SFltb. rewrite (compare_antisym p q).
  destruct (SFcompare p q) as [[]|]; simpl; congruence.
Qed.

Lemma ltb_irrefl (p : float) : ltb p p = false.
Proof. destruct (ltb p p) eqn:E; [|reflexivity]. now rewrite (ltb_asym _ _ E) in E. Qed.

Lemma leb_not_ltb (p q : float) : leb q p = true -> ltb p q = false.
Proof.
  unfold leb, ltb, SFleb, SFltb. rewrite (compare_antisym p q).
  destruct (SFcompare p q) as [[]|]; simpl; congruence.
Qed.

Lemma eqb_not_ltb (p q : float) : eqb p q = true -> ltb p q = false.
Proof.
  unfold eqb, ltb, SFeqb, SFltb. destruct (SFcompare p q) as [[]|]; congruence.
Qed.

End F32Facts.

Module BufferFacts.

Section Store.
Context {A : Type}.
Implicit Types (buf : list A) (i : Z) (v : A).

Lemma store_Some buf i v :
  0 <= i < Z.of_nat (length buf) ->
  store buf i v = Some (<[Z.to_nat i := v]> buf).
Proof.
  intros [H0 H1]. unfold store.
  destruct (Z.leb_spec 0 i); [|lia]. destruct (Z.ltb_spec i (Z.of_nat (length buf))); [|lia].
  reflexivity.
Qed.

Lemma store_None buf i v :
  ~ 0 <= i < Z.of_nat (length buf) -> store buf i v = None.
Proof.
  intros H. unfold store.
  destruct (Z.leb_spec 0 i); destruct (Z.ltb_spec i (Z.of_nat (length buf)));
    simpl; try reflexivity; lia.
Qed.

Lemma store_length buf i v buf' :
  store buf i v = Some buf' -> length buf' = length buf.
Proof.
  unfold store. destruct (_ && _); [|discriminate].
  intros [= <-]. apply length_insert.
Qed.

Lemma load_Some buf i :
  0 <= i < Z.of_nat (length buf) -> exists v, load buf i = Some v /\ buf !! Z.to_nat i = Some v.
Proof.
  intros [H0 H1]. unfold load. destruct (Z.leb_spec 0 i); [|lia].
  destruct (lookup_lt_is_Some_2 buf (Z.to_nat i)) as [v Hv]; [lia|]. eauto.
Qed.

End Store.

Section FoldM.
Context {A S : Type} (f : S -> A -> option S).

Lemma foldM_app (l1 l2 : list A) (s : S) :
  foldM f (l1 ++ l2) s = foldM f l1 s ≫= foldM f l2.
Proof.
  revert s. induction l1 as [|a l1 IH]; intros s; simpl; [reflexivity|].
  destruct (f s a) as [s'|]; simpl; [apply IH | reflexivity].
Qed.

(** An invariant every step keeps is kept by the whole run, which then
    cannot fail. *)
Lemma foldM_invariant (P : S -> Prop) (l : list A) (s : S) :
  (forall s a, P s -> exists s', f s a = Some s' /\ P s') ->
  P s -> exists s', foldM f l s = Some s' /\ P s'.
Proof.
  intros Hstep. revert s. induction l as [|a l IH]; intros s Hs; simpl; [eauto|].
  destruct (Hstep s a Hs) as (s1 & -> & Hs1). simpl. apply IH, Hs1.
Qed.

End FoldM.

End BufferFacts.

Module RasterFacts.
Import F32 Raster BufferFacts.

Lemma isInBounds_spec rs x y :
  isInBounds rs x y = true <-> 0 <= x < width rs /\ 0 <= y < height rs.
Proof. unfold isInBounds. rewrite !andb_true_iff. lia. Qed.

Lemma isInBounds_false rs x y :
  isInBounds rs x y = false <-> (x < 0 \/ width rs <= x \/ y < 0 \/ height rs <= y).
Proof.
  rewrite <- not_true_iff_false, isInBounds_spec. lia.
Qed.

(** In bounds, the pixel's cell lies inside the buffers. *)
Lemma cell_in_range w h x y :
  0 <= x < w -> 0 <= y < h -> 0 <= y * w + x < w * h.
Proof. intros Hx Hy. nia. Qed.

Lemma cell_injective w x y x' y' :
  0 <= x < w -> 0 <= x' < w -> y * w + x = y' * w + x' -> x = x' /\ y = y'.
Proof.
  intros Hx Hx' E.
  assert (y = y') by nia. subst. lia.
Qed.

Lemma wf_fb_length rs : wf rs -> Z.of_nat (length (frameBuffer rs)) = width rs * height rs * 3.
Proof. intros (_ & _ & H & _). exact H. Qed.

Lemma wf_db_length rs : wf rs -> Z.of_nat (length (depthBuffer rs)) = width rs * height rs.
Proof. intros (_ & _ & _ & H). exact H. Qed.

(** The three byte stores of either pixel routine succeed in bounds. *)
Lemma store_rgb {B} (fb : list Z) (i : Z) (c : Color) (k : list Z -> option B) :
  0 <= i -> i + 2 < Z.of_nat (length fb) ->
  (fb0 ← store fb (i + 0) (r c); fb1 ← store fb0 (i + 1) (g c);
   fb2 ← store fb1 (i + 2) (b c); k fb2)
  = k (<[Z.to_nat (i + 2) := b c]>
         (<[Z.to_nat (i + 1) := g c]> (<[Z.to_nat (i + 0) := r c]> fb))).
Proof.
  intros H0 H2.
  rewrite store_Some by lia. simpl.
  rewrite store_Some by (rewrite length_insert; lia). simpl.
  rewrite store_Some by (rewrite !length_insert; lia). reflexivity.
Qed.

(** [setPixel], in bounds: the three bytes of the pixel are overwritten. *)
Lemma setPixel_in rs x y c :
  wf rs -> isInBounds rs x y = true ->
  setPixel rs x y c =
    Some (mkRasterizer (width rs) (height rs)
            (<[Z.to_nat ((y * width rs + x) * 3 + 2) := b c]>
               (<[Z.to_nat ((y * width rs + x) * 3 + 1) := g c]>
                  (<[Z.to_nat ((y * width rs + x) * 3 + 0) := r c]> (frameBuffer rs))))
            (depthBuffer rs)).
Proof.
  intros Hwf Hin. unfold setPixel. rewrite Hin. simpl.
  apply isInBounds_spec in Hin as [Hx Hy].
  pose proof (cell_in_range _ _ _ _ Hx Hy) as Hc.
  pose proof (wf_fb_length _ Hwf) as Hl.
  rewrite store_rgb by lia. reflexivity.
Qed.

Lemma setPixel_out rs x y c :
  isInBounds rs x y = false -> setPixel rs x y c = Some rs.
Proof. intros Hout. unfold setPixel. now rewrite Hout. Qed.

(** [setPixelWithDepth], in bounds: the stored depth decides. *)
Lemma setPixelWithDepth_in rs x y depth c :
  wf rs -> isInBounds rs x y = true ->
  exists stored,
    depthBuffer rs !! Z.to_nat (y * width rs + x) = Some stored /\
    setPixelWithDepth rs x y depth c =
      Some (if ltb depth stored then
              mkRasterizer (width rs) (height rs)
                (<[Z.to_nat ((y * width rs + x) * 3 + 2) := b c]>
                   (<[Z.to_nat ((y * width rs + x) * 3 + 1) := g c]>
                      (<[Z.to_nat ((y * width rs + x) * 3 + 0) := r c]> (frameBuffer rs))))
                (<[Z.to_nat (y * width rs + x) := depth]> (depthBuffer rs))
            else rs).
Proof.
  intros Hwf Hin. unfold setPixelWithDepth. rewrite Hin. simpl.
  apply isInBounds_spec in Hin as [Hx Hy].
  pose proof (cell_in_range _ _ _ _ Hx Hy) as Hc.
  pose proof (wf_fb_length _ Hwf) as Hl.
  pose proof (wf_db_length _ Hwf) as Hd.
  destruct (load_Some (depthBuffer rs) (y * width rs + x)) as (stored & Hload & Hlook); [lia|].
  exists stored. split; [exact Hlook|]. rewrite Hload. simpl.
  destruct (ltb depth stored); [|reflexivity].
  rewrite (store_Some (depthBuffer rs)) by lia. simpl.
  rewrite store_rgb by lia. reflexivity.
Qed.

Lemma setPixelWithDepth_out rs x y depth c :
  isInBounds rs x y = false -> setPixelWithDepth rs x y depth c = Some rs.
Proof. intros Hout. unfold setPixelWithDepth. now rewrite Hout. Qed.

(** Neither routine changes the shape of the rasterizer, and neither can
    fault on a well-formed one. *)
Lemma wf_insert rs (fb : list Z) (db : list float) :
  wf rs -> length fb = length (frameBuffer rs) -> length db = length (depthBuffer rs) ->
  wf (mkRasterizer (width rs) (height rs) fb db).
Proof. intros (H1 & H2 & H3 & H4) Hf Hd. unfold wf; simpl. rewrite Hf, Hd. auto. Qed.

Lemma setPixel_total rs x y c :
  wf rs -> exists rs', setPixel rs x y c = Some rs' /\ wf rs' /\
    width rs' = width rs /\ height rs' = height rs /\ depthBuffer rs' = depthBuffer rs.
Proof.
  intros Hwf. destruct (isInBounds rs x y) eqn:Hin.
  - rewrite (setPixel_in _ _ _ _ Hwf Hin). eexists; split; [reflexivity|].
    split; [|auto]. apply wf_insert; auto. now rewrite !length_insert.
  - rewrite (setPixel_out _ _ _ _ Hin). eauto 6.
Qed.

Lemma setPixelWithDepth_total rs x y depth c :
  wf rs -> exists rs', setPixelWithDepth rs x y depth c = Some rs' /\ wf rs' /\
    width rs' = width rs /\ height rs' = height rs.
Proof.
  intros Hwf. destruct (isInBounds rs x y) eqn:Hin.
  - destruct (setPixelWithDepth_in _ _ _ depth c Hwf Hin) as (stored & _ & ->).
    eexists; split; [reflexivity|]. destruct (ltb depth stored); [|auto].
    split; [|auto]. apply wf_insert; auto; now rewrite !length_insert.
  - rewrite (setPixelWithDepth_out _ _ _ _ _ Hin). eauto.
Qed.

(** *** One pixel's view of a write *)

Lemma cellAt_in rs x y :
  wf rs -> isInBounds rs x y = true ->
  exists d cr cg cb,
    depthBuffer rs !! Z.to_nat (y * width rs + x) = Some d /\
    frameBuffer rs !! Z.to_nat ((y * width rs + x) * 3 + 0) = Some cr /\
    frameBuffer rs !! Z.to_nat ((y * width rs + x) * 3 + 1) = Some cg /\
    frameBuffer rs !! Z.to_nat ((y * width rs + x) * 3 + 2) = Some cb /\
    cellAt rs x y = Some (d, (cr, cg, cb)).
Proof.
  intros Hwf Hin. apply isInBounds_spec in Hin as [Hx Hy].
  pose proof (cell_in_range _ _ _ _ Hx Hy) as Hc.
  pose proof (wf_fb_length _ Hwf) as Hl.
  pose proof (wf_db_length _ Hwf) as Hd.
  destruct (lookup_lt_is_Some_2 (depthBuffer rs) (Z.to_nat (y * width rs + x))) as [d Ed]; [lia|].
  destruct (lookup_lt_is_Some_2 (frameBuffer rs) (Z.to_nat ((y * width rs + x) * 3 + 0))) as [cr Er]; [lia|].
  destruct (lookup_lt_is_Some_2 (frameBuffer rs) (Z.to_nat ((y * width rs + x) * 3 + 1))) as [cg Eg]; [lia|].
  destruct (lookup_lt_is_Some_2 (frameBuffer rs) (Z.to_nat ((y * width rs + x) * 3 + 2))) as [cb Eb]; [lia|].
  exists d, cr, cg, cb. repeat (split; [assumption|]).
  unfold cellAt, depthAt, colorAt, cellIndex. cbv zeta.
  replace (3 * Z.to_nat (y * width rs + x) + 1)%nat
    with (Z.to_nat ((y * width rs + x) * 3 + 1)) by lia.
  replace (3 * Z.to_nat (y * width rs + x) + 2)%nat
    with (Z.to_nat ((y * width rs + x) * 3 + 2)) by lia.
  replace (3 * Z.to_nat (y * width rs + x))%nat
    with (Z.to_nat ((y * width rs + x) * 3 + 0)) by lia.
  rewrite Ed, Er, Eg, Eb. reflexivity.
Qed.

Lemma hits_spec x y f : hits x y f = true <-> fx f = x /\ fy f = y.
Proof. unfold hits. rewrite andb_true_iff, !Z.eqb_eq. tauto. Qed.

Ltac lookup_inserts :=
  repeat first
    [ rewrite list_lookup_insert_ne by lia
    | rewrite list_lookup_insert_eq by (rewrite ?length_insert; lia) ].

(** What [setPixelWithDepth] does to the cell of any in-bounds pixel: the
    depth test if the fragment lands on it, nothing otherwise. *)
Lemma emit_cell rs f x y :
  wf rs -> isInBounds rs x y = true ->
  exists rs', emit rs f = Some rs' /\ wf rs' /\
    width rs' = width rs /\ height rs' = height rs /\
    cellAt rs' x y =
      (fun c => if hits x y f then depthTest c f else c) <$> cellAt rs x y.
Proof.
  intros Hwf Hin. unfold emit.
  destruct (cellAt_in _ _ _ Hwf Hin) as (d & cr & cg & cb & Ed & Er & Eg & Eb & Ecell).
  destruct (isInBounds rs (fx f) (fy f)) eqn:Hf.
  - destruct (setPixelWithDepth_in rs (fx f) (fy f) (fdepth f) (fcolor f) Hwf Hf)
      as (stored & Hst & ->).
    pose proof Hin as Hin'. pose proof Hf as Hf'.
    apply isInBounds_spec in Hin' as [Hx Hy]. apply isInBounds_spec in Hf' as [Hfx Hfy].
    pose proof (cell_in_range _ _ _ _ Hx Hy) as Hc.
    pose proof (cell_in_range _ _ _ _ Hfx Hfy) as Hfc.
    pose proof (wf_fb_length _ Hwf) as Hl.
    pose proof (wf_db_length _ Hwf) as Hd.
    eexists; split; [reflexivity|].
    destruct (hits x y f) eqn:Hh.
    + apply hits_spec in Hh as [<- <-].
      assert (stored = d) as -> by congruence.
      rewrite Ecell. simpl. unfold depthTest. simpl.
      destruct (ltb (fdepth f) d) eqn:Hlt; [|rewrite Ecell; auto].
      split; [apply wf_insert; auto; now rewrite !length_insert|].
      do 2 (split; [reflexivity|]).
      set (rs' := mkRasterizer _ _ _ _).
      assert (Hwf' : wf rs') by (apply wf_insert; auto; now rewrite !length_insert).
      assert (Hin'' : isInBounds rs' (fx f) (fy f) = true) by exact Hf.
      destruct (cellAt_in _ _ _ Hwf' Hin'') as (d' & cr' & cg' & cb' & Ed' & Er' & Eg' & Eb' & ->).
      subst rs'. simpl in *.
      revert Ed' Er' Eg' Eb'. lookup_inserts. rewrite ?Ed, ?Er, ?Eg, ?Eb.
      intros [= <-] [= <-] [= <-] [= <-]. reflexivity.
    + assert (Hne : fy f * width rs + fx f <> y * width rs + x).
      { intros E. apply cell_injective in E as [E1 E2]; [|lia..].
        assert (hits x y f = true) by (apply hits_spec; auto). congruence. }
      rewrite Ecell. simpl.
      destruct (ltb (fdepth f) stored); [|rewrite Ecell; auto].
      split; [apply wf_insert; auto; now rewrite !length_insert|].
      do 2 (split; [reflexivity|]).
      set (rs' := mkRasterizer _ _ _ _).
      assert (Hwf' : wf rs') by (apply wf_insert; auto; now rewrite !length_insert).
      assert (Hin'' : isInBounds rs' x y = true) by exact Hin.
      destruct (cellAt_in _ _ _ Hwf' Hin'') as (d' & cr' & cg' & cb' & Ed' & Er' & Eg' & Eb' & ->).
      subst rs'. simpl in *.
      revert Ed' Er' Eg' Eb'. lookup_inserts. rewrite ?Ed, ?Er, ?Eg, ?Eb.
      intros [= <-] [= <-] [= <-] [= <-]. reflexivity.
  - rewrite (setPixelWithDepth_out _ _ _ _ _ Hf).
    eexists; split; [reflexivity|]. repeat (split; [auto|]).
    destruct (hits x y f) eqn:Hh.
    + apply hits_spec in Hh as [<- <-]. congruence.
    + rewrite Ecell. reflexivity.
Qed.

(** A whole fragment list, seen from one in-bounds pixel. *)
Lemma emits_cell fs rs :
  wf rs ->
  exists rs', foldM emit fs rs = Some rs' /\ wf rs' /\
    width rs' = width rs /\ height rs' = height rs /\
    forall x y, isInBounds rs x y = true ->
      cellAt rs' x y = cellRun x y fs <$> cellAt rs x y.
Proof.
  revert rs. induction fs as [|f fs IH]; intros rs Hwf.
  - exists rs. repeat (split; [auto|]). intros x y _. unfold cellRun. simpl.
    now destruct (cellAt rs x y).
  - simpl.
    assert (Hstep : exists rs1, emit rs f = Some rs1 /\ wf rs1 /\
              width rs1 = width rs /\ height rs1 = height rs).
    { unfold emit. apply setPixelWithDepth_total, Hwf. }
    destruct Hstep as (rs1 & E1 & Hwf1 & Hw1 & Hh1). rewrite E1. simpl.
    destruct (IH rs1 Hwf1) as (rs' & E' & Hwf' & Hw' & Hh' & Hcells).
    exists rs'. split; [exact E'|]. split; [exact Hwf'|].
    split; [congruence|]. split; [congruence|].
    intros x y Hin.
    assert (Hin1 : isInBounds rs1 x y = true).
    { unfold isInBounds in *. now rewrite Hw1, Hh1. }
    rewrite (Hcells x y Hin1).
    destruct (emit_cell rs f x y Hwf Hin) as (rs1' & E1' & _ & _ & _ & Hc).
    rewrite E1 in E1'. injection E1' as <-. rewrite Hc.
    destruct (cellAt rs x y); reflexivity.
Qed.

(** Two well-formed rasterizers of one size whose pixels agree are equal. *)
Lemma rasterizer_ext rs1 rs2 :
  wf rs1 -> wf rs2 -> width rs1 = width rs2 -> height rs1 = height rs2 ->
  (forall x y, isInBounds rs1 x y = true -> cellAt rs1 x y = cellAt rs2 x y) ->
  rs1 = rs2.
Proof.
  intros Hwf1 Hwf2 Hw Hh Hcells.
  assert (Hpix : forall k, 0 <= k < width rs1 * height rs1 ->
            depthBuffer rs1 !! Z.to_nat k = depthBuffer rs2 !! Z.to_nat k /\
            forall c, 0 <= c < 3 ->
              frameBuffer rs1 !! Z.to_nat (k * 3 + c) = frameBuffer rs2 !! Z.to_nat (k * 3 + c)).
  { intros k Hk.
    assert (Hwpos : 0 < width rs1) by (destruct Hwf1 as (? & ? & _); nia).
    pose proof (Z.mod_pos_bound k (width rs1) Hwpos) as Hx.
    pose proof (Z.div_mod k (width rs1) ltac:(lia)) as Hdm.
    assert (Hy : 0 <= k / width rs1 < height rs1).
    { split; [apply Z.div_pos; lia|]. apply Z.div_lt_upper_bound; lia. }
    assert (Hin1 : isInBounds rs1 (k mod width rs1) (k / width rs1) = true)
      by (apply isInBounds_spec; lia).
    assert (Hin2 : isInBounds rs2 (k mod width rs1) (k / width rs1) = true)
      by (apply isInBounds_spec; rewrite <- Hw, <- Hh; lia).
    specialize (Hcells _ _ Hin1).
    destruct (cellAt_in _ _ _ Hwf1 Hin1) as (d & cr & cg & cb & Ed & Er & Eg & Eb & Ec).
    destruct (cellAt_in _ _ _ Hwf2 Hin2) as (d' & cr' & cg' & cb' & Ed' & Er' & Eg' & Eb' & Ec').
    rewrite Ec, Ec' in Hcells. injection Hcells as -> -> -> ->.
    rewrite <- Hw in *.
    replace (k / width rs1 * width rs1 + k mod width rs1) with k in * by lia.
    split; [congruence|].
    intros c Hc. assert (c = 0 \/ c = 1 \/ c = 2) as [->|[->| ->]] by lia; congruence. }
  destruct rs1 as [w1 h1 fb1 db1], rs2 as [w2 h2 fb2 db2]. simpl in *. subst w2 h2.
  pose proof (wf_fb_length _ Hwf1) as Hf1. pose proof (wf_fb_length _ Hwf2) as Hf2.
  pose proof (wf_db_length _ Hwf1) as Hd1. pose proof (wf_db_length _ Hwf2) as Hd2.
  simpl in *.
  f_equal.
  - apply list_eq. intros i.
    destruct (decide (i < length fb1)%nat) as [Hlt|Hge].
    + pose proof (Z.div_mod (Z.of_nat i) 3 ltac:(lia)) as Hdm.
      pose proof (Z.mod_pos_bound (Z.of_nat i) 3 ltac:(lia)) as Hm.
      assert (Hk : 0 <= Z.of_nat i / 3 < w1 * h1).
      { split; [apply Z.div_pos; lia|]. apply Z.div_lt_upper_bound; lia. }
      destruct (Hpix _ Hk) as [_ Hc]. specialize (Hc _ Hm).
      replace (Z.to_nat (Z.of_nat i / 3 * 3 + Z.of_nat i mod 3)) with i in Hc by lia.
      exact Hc.
    + rewrite !lookup_ge_None_2 by lia. reflexivity.
  - apply list_eq. intros i.
    destruct (decide (i < length db1)%nat) as [Hlt|Hge].
    + destruct (Hpix (Z.of_nat i) ltac:(lia)) as [Hd _].
      now rewrite Nat2Z.id in Hd.
    + rewrite !lookup_ge_None_2 by lia. reflexivity.
Qed.

(** *** [clearBuffers] *)

Lemma clearBuffers_depth_spec n i (db : list float) :
  0 <= i -> i + Z.of_nat n <= Z.of_nat (length db) ->
  exists db', clearBuffers_depth n i db = Some db' /\ length db' = length db /\
    (forall k, i <= k < i + Z.of_nat n -> db' !! Z.to_nat k = Some one) /\
    (forall k, 0 <= k < i -> db' !! Z.to_nat k = db !! Z.to_nat k).
Proof.
  revert i db. induction n as [|n IH]; intros i db Hi Hlen.
  - exists db. simpl. split; [reflexivity|]. split; [reflexivity|]. split; [intros k Hk; lia | auto].
  - cbn [clearBuffers_depth]. rewrite store_Some by lia. simpl.
    destruct (IH (i + 1) (<[Z.to_nat i := one]> db)) as (db' & E & Hl & Hin & Hout);
      [lia | rewrite length_insert; lia |].
    exists db'. split; [exact E|]. split; [now rewrite Hl, length_insert|]. split.
    + intros k Hk. destruct (Z.eq_dec k i) as [->|Hne].
      * rewrite Hout by lia. apply list_lookup_insert_eq. lia.
      * apply Hin. lia.
    + intros k Hk. rewrite Hout by lia. apply list_lookup_insert_ne. lia.
Qed.

Lemma clearBuffers_color_spec n i c (fb : list Z) :
  0 <= i -> (i + Z.of_nat n) * 3 <= Z.of_nat (length fb) ->
  exists fb', clearBuffers_color n i c fb = Some fb' /\ length fb' = length fb /\
    (forall k, i <= k < i + Z.of_nat n ->
       fb' !! Z.to_nat (k * 3 + 0) = Some (r c) /\
       fb' !! Z.to_nat (k * 3 + 1) = Some (g c) /\
       fb' !! Z.to_nat (k * 3 + 2) = Some (b c)) /\
    (forall j, 0 <= j < i * 3 -> fb' !! Z.to_nat j = fb !! Z.to_nat j).
Proof.
  revert i fb. induction n as [|n IH]; intros i fb Hi Hlen.
  - exists fb. simpl. split; [reflexivity|]. split; [reflexivity|]. split; [intros k Hk; lia | auto].
  - cbn [clearBuffers_color]. rewrite store_rgb by lia.
    match goal with |- context [clearBuffers_color n (i + 1) c ?l] => set (fb1 := l) end.
    destruct (IH (i + 1) fb1) as (fb' & E & Hl & Hin & Hout);
      [lia | subst fb1; rewrite !length_insert; lia |].
    exists fb'. split; [exact E|].
    split; [rewrite Hl; subst fb1; now rewrite !length_insert|]. split.
    + intros k Hk. destruct (Z.eq_dec k i) as [->|Hne].
      * rewrite !Hout by lia. subst fb1. lookup_inserts. auto.
      * apply Hin. lia.
    + intros j Hj. rewrite Hout by lia. subst fb1. now lookup_inserts.
Qed.

(** After [clearBuffers] every cell holds depth 1.0 and the clear colour. *)
Lemma clearBuffers_spec rs c :
  wf rs ->
  exists s0, clearBuffers rs c = Some s0 /\ wf s0 /\
    width s0 = width rs /\ height s0 = height rs /\
    forall x y, isInBounds rs x y = true -> cellAt s0 x y = Some (one, channels c).
Proof.
  intros Hwf. pose proof Hwf as (Hw & Hh & Hf & Hd). unfold clearBuffers.
  destruct (clearBuffers_color_spec (Z.to_nat (width rs * height rs)) 0 c (frameBuffer rs))
    as (fb' & -> & Hfl & Hfin & _); [lia | nia |].
  destruct (clearBuffers_depth_spec (Z.to_nat (width rs * height rs)) 0 (depthBuffer rs))
    as (db' & -> & Hdl & Hdin & _); [lia | nia |].
  simpl. eexists; split; [reflexivity|].
  assert (Hwf' : wf (mkRasterizer (width rs) (height rs) fb' db')) by (apply wf_insert; auto).
  split; [exact Hwf'|]. do 2 (split; [reflexivity|]).
  intros x y Hin.
  assert (Hin' : isInBounds (mkRasterizer (width rs) (height rs) fb' db') x y = true) by exact Hin.
  destruct (cellAt_in _ _ _ Hwf' Hin') as (d & cr & cg & cb & Ed & Er & Eg & Eb & ->).
  simpl in *. apply isInBounds_spec in Hin as [Hx Hy].
  pose proof (cell_in_range _ _ _ _ Hx Hy) as Hc.
  destruct (Hfin (y * width rs + x)) as (F0 & F1 & F2); [lia|].
  rewrite Hdin in Ed by lia. unfold channels. congruence.
Qed.

(** The constructor yields a rasterizer of the expected shape, cleared to
    black and to the far plane. *)
Lemma new_wf w h :
  0 <= w -> 0 <= h ->
  exists rs, new w h = Some rs /\ wf rs /\ width rs = w /\ height rs = h /\
    forall x y, isInBounds rs x y = true -> cellAt rs x y = Some (one, (0, 0, 0)).
Proof.
  intros Hw Hh. unfold new.
  set (raw := mkRasterizer w h _ _).
  assert (Hwf : wf raw).
  { unfold wf, raw. simpl. rewrite !length_replicate. nia. }
  destruct (clearBuffers_spec raw (mkColor 0 0 0 255) Hwf) as (rs & E & Hwf' & Ew & Eh & Hc).
  exists rs. split; [exact E|]. split; [exact Hwf'|]. split; [exact Ew|]. split; [exact Eh|].
  intros x y Hin. apply Hc. unfold isInBounds in *. now rewrite Ew, Eh in Hin.
Qed.

(** *** The depth test, cell by cell *)

Lemma cellRun_cons x y f fs c :
  cellRun x y (f :: fs) c = cellRun x y fs (if hits x y f then depthTest c f else c).
Proof. reflexivity. Qed.

Lemma cellRun_app x y fs1 fs2 c :
  cellRun x y (fs1 ++ fs2) c = cellRun x y fs2 (cellRun x y fs1 c).
Proof. unfold cellRun. apply foldl_app. Qed.

(** Fragments that fail the test leave the cell alone. *)
Lemma cellRun_fail x y fs c :
  (forall f, f ∈ fs -> hits x y f = true -> ltb (fdepth f) c.1 = false) ->
  cellRun x y fs c = c.
Proof.
  induction fs as [|f fs IH]; intros H; [reflexivity|].
  rewrite cellRun_cons.
  destruct (hits x y f) eqn:Hh.
  - unfold depthTest. rewrite (H f) by (auto; constructor).
    apply IH. intros g Hg. apply H. now constructor.
  - apply IH. intros g Hg. apply H. now constructor.
Qed.

(** The stored depth is the initial one or that of a fragment that hit. *)
Lemma cellRun_depth x y fs c :
  (cellRun x y fs c).1 = c.1 \/
  exists f, f ∈ fs /\ hits x y f = true /\ (cellRun x y fs c).1 = fdepth f.
Proof.
  revert c. induction fs as [|f fs IH]; intros c; [now left|].
  rewrite cellRun_cons. destruct (hits x y f) eqn:Hh.
  - unfold depthTest. destruct (ltb (fdepth f) c.1).
    + destruct (IH (fdepth f, channels (fcolor f))) as [E|(g & Hg & Hhg & E)].
      * right. exists f. split; [constructor|]. split; [exact Hh|exact E].
      * right. exists g. split; [now constructor|]. auto.
    + destruct (IH c) as [E|(g & Hg & Hhg & E)]; [now left|].
      right. exists g. split; [now constructor|]. auto.
  - destruct (IH c) as [E|(g & Hg & Hhg & E)]; [now left|].
    right. exists g. split; [now constructor|]. auto.
Qed.

(** When every hitting fragment passes against both of two start cells and
    at least one fragment hits, the start cell is forgotten. *)
Lemma cellRun_reset x y fs c1 c2 :
  (exists f, f ∈ fs /\ hits x y f = true) ->
  (forall f, f ∈ fs -> hits x y f = true ->
     ltb (fdepth f) c1.1 = true /\ ltb (fdepth f) c2.1 = true) ->
  cellRun x y fs c1 = cellRun x y fs c2.
Proof.
  induction fs as [|f fs IH]; intros (g & Hg & Hhg) H.
  - inversion Hg.
  - rewrite !cellRun_cons. destruct (hits x y f) eqn:Hh.
    + destruct (H f ltac:(constructor) Hh) as [H1 H2].
      unfold depthTest. now rewrite H1, H2.
    + apply IH.
      * inversion Hg; subst; [congruence|]. eauto.
      * intros f' Hf'. apply H. now constructor.
Qed.

Lemma cellRun_depth_hit x y fs c :
  (exists f, f ∈ fs /\ hits x y f = true) ->
  (forall f, f ∈ fs -> hits x y f = true -> ltb (fdepth f) c.1 = true) ->
  exists f, f ∈ fs /\ hits x y f = true /\ (cellRun x y fs c).1 = fdepth f.
Proof.
  induction fs as [|f fs IH]; intros (g & Hg & Hhg) H.
  - inversion Hg.
  - rewrite cellRun_cons. destruct (hits x y f) eqn:Hh.
    + unfold depthTest. rewrite (H f ltac:(constructor) Hh).
      destruct (cellRun_depth x y fs (fdepth f, channels (fcolor f)))
        as [E|(f' & Hf' & Hhf' & E)].
      * exists f. split; [constructor|]. auto.
      * exists f'. split; [now constructor|]. auto.
    + destruct IH as (f' & Hf' & Hhf' & E).
      * inversion Hg; subst; [congruence|]. eauto.
      * intros f' Hf'. apply H. now constructor.
      * exists f'. split; [now constructor|]. auto.
Qed.

(** Z-buffering two fragment lists: when the first list's fragments are
    nearer than the cleared depth [far0] and nearer than the second list's
    on every shared pixel, the order of the two lists does not matter. *)
Lemma cellRun_commute x y near far far0 col :
  (forall f, f ∈ near -> ltb (fdepth f) far0 = true) ->
  (forall f g, f ∈ near -> g ∈ far -> fx f = fx g -> fy f = fy g ->
     ltb (fdepth f) (fdepth g) = true) ->
  cellRun x y near (cellRun x y far (far0, col))
  = cellRun x y far (cellRun x y near (far0, col)).
Proof.
  intros Hb Hc.
  destruct (existsb (hits x y) near) eqn:Hex.
  - apply existsb_exists in Hex as (f0 & Hf0%list_elem_of_In & Hh0).
    assert (Hhit : exists f, f ∈ near /\ hits x y f = true) by eauto.
    transitivity (cellRun x y near (far0, col)).
    + apply cellRun_reset; [exact Hhit|].
      intros f Hf Hh. split; [|apply Hb, Hf].
      destruct (cellRun_depth x y far (far0, col)) as [->|(g & Hg & Hhg & ->)];
        [apply Hb, Hf|].
      apply hits_spec in Hh as [? ?]. apply hits_spec in Hhg as [? ?].
      apply Hc; auto; congruence.
    + symmetry. apply cellRun_fail. intros g Hg Hhg.
      destruct (cellRun_depth_hit x y near (far0, col) Hhit) as (f & Hf & Hh & ->).
      { intros f Hf _. apply Hb, Hf. }
      apply F32Facts.ltb_asym.
      apply hits_spec in Hh as [? ?]. apply hits_spec in Hhg as [? ?].
      apply Hc; auto; congruence.
  - assert (Hno : forall c, cellRun x y near c = c).
    { intros c. apply cellRun_fail. intros f Hf Hh.
      assert (existsb (hits x y) near = true)
        by (apply existsb_exists; exists f; split; [now apply list_elem_of_In|exact Hh]).
      congruence. }
    now rewrite !Hno.
Qed.

(** *** No fill visits a pixel twice *)

Lemma scanline_pos v1 v2 v3 y x1 x2 f :
  f ∈ scanline v1 v2 v3 y x1 x2 -> fy f = y.
Proof.
  unfold scanline. intros (x & -> & _)%list_elem_of_fmap. reflexivity.
Qed.

Lemma scanline_NoDup v1 v2 v3 y x1 x2 :
  NoDup (pos <$> scanline v1 v2 v3 y x1 x2).
Proof.
  unfold scanline. rewrite <- list_fmap_compose.
  apply NoDup_fmap_2; [|apply NoDup_seqZ].
  intros a b [= E]. exact E.
Qed.

Lemma NoDup_pos_app (l k : list Fragment) :
  NoDup (pos <$> l) -> NoDup (pos <$> k) ->
  (forall f g, f ∈ l -> g ∈ k -> fy f <> fy g) ->
  NoDup (pos <$> (l ++ k)).
Proof.
  intros Hl Hk Hd. rewrite fmap_app. apply NoDup_app. split; [exact Hl|]. split; [|exact Hk].
  intros p (f & -> & Hf)%list_elem_of_fmap (g & E & Hg)%list_elem_of_fmap.
  apply (Hd f g Hf Hg). unfold pos in E. congruence.
Qed.

Lemma fillFlatBottom_rows_range n y x1 x2 s1 s2 v1 v2 v3 f :
  f ∈ fillFlatBottom_rows n y x1 x2 s1 s2 v1 v2 v3 -> y <= fy f < y + Z.of_nat n.
Proof.
  revert y x1 x2. induction n as [|n IH]; intros y x1 x2; simpl; [inversion 1|].
  intros [Hf|Hf]%elem_of_app.
  - apply scanline_pos in Hf. lia.
  - apply IH in Hf. lia.
Qed.

Lemma fillFlatBottom_rows_NoDup n y x1 x2 s1 s2 v1 v2 v3 :
  NoDup (pos <$> fillFlatBottom_rows n y x1 x2 s1 s2 v1 v2 v3).
Proof.
  revert y x1 x2. induction n as [|n IH]; intros y x1 x2; simpl; [constructor|].
  apply NoDup_pos_app; [apply scanline_NoDup | apply IH |].
  intros f g Hf%scanline_pos Hg%fillFlatBottom_rows_range. lia.
Qed.

Lemma fillFlatTop_rows_range n y x1 x2 s1 s2 v1 v2 v3 f :
  f ∈ fillFlatTop_rows n y x1 x2 s1 s2 v1 v2 v3 -> y - Z.of_nat n < fy f <= y.
Proof.
  revert y x1 x2. induction n as [|n IH]; intros y x1 x2; simpl; [inversion 1|].
  intros [Hf|Hf]%elem_of_app.
  - apply scanline_pos in Hf. lia.
  - apply IH in Hf. lia.
Qed.

Lemma fillFlatTop_rows_NoDup n y x1 x2 s1 s2 v1 v2 v3 :
  NoDup (pos <$> fillFlatTop_rows n y x1 x2 s1 s2 v1 v2 v3).
Proof.
  revert y x1 x2. induction n as [|n IH]; intros y x1 x2; simpl; [constructor|].
  apply NoDup_pos_app; [apply scanline_NoDup | apply IH |].
  intros f g Hf%scanline_pos Hg%fillFlatTop_rows_range. lia.
Qed.

(** The rows of a flat-bottom fill lie strictly above [ceil(v2.y)], those
    of a flat-top fill strictly below [ceil(v1.y)] (rows grow downwards). *)
Lemma fillFlatBottom_above v1 v2 v3 ug f :
  f ∈ fillFlatBottomTriangle_fragments v1 v2 v3 ug ->
  fy f < ceil_int (vec4.y (position v2)).
Proof.
  unfold fillFlatBottomTriangle_fragments. intros Hf%fillFlatBottom_rows_range. lia.
Qed.

Lemma fillFlatTop_below v1 v2 v3 ug f :
  f ∈ fillFlatTopTriangle_fragments v1 v2 v3 ug ->
  ceil_int (vec4.y (position v1)) < fy f.
Proof.
  unfold fillFlatTopTriangle_fragments. intros Hf%fillFlatTop_rows_range. lia.
Qed.

Lemma fill_fragments_NoDup ug fl : NoDup (pos <$> fill_fragments ug fl).
Proof.
  destruct fl; simpl.
  - apply fillFlatBottom_rows_NoDup.
  - apply fillFlatTop_rows_NoDup.
Qed.

Lemma drawTriangle_fragments_NoDup v1 v2 v3 ug :
  NoDup (pos <$> drawTriangle_fragments v1 v2 v3 ug).
Proof.
  unfold drawTriangle_fragments, drawTriangle_fills.
  destruct (sortByY v1 v2 v3) as [[top mid] bot].
  repeat match goal with |- context [if ?c then _ else _] => destruct c end;
    simpl; rewrite ?app_nil_r.
  - constructor.
  - apply fillFlatBottom_rows_NoDup.
  - apply fillFlatTop_rows_NoDup.
  - apply NoDup_pos_app;
      [apply (fill_fragments_NoDup ug (FlatBottom _ _ _))
      |apply (fill_fragments_NoDup ug (FlatTop _ _ _))|].
    intros f g Hf%fillFlatBottom_above Hg%fillFlatTop_below. lia.
Qed.

(** With every position hit at most once, the cell of a fragment that
    passes holds exactly that fragment. *)
Lemma cellRun_unique fs f c :
  NoDup (pos <$> fs) -> f ∈ fs -> ltb (fdepth f) c.1 = true ->
  cellRun (fx f) (fy f) fs c = (fdepth f, channels (fcolor f)).
Proof.
  revert c. induction fs as [|h fs IH]; intros c Hnd Hf Hlt; [inversion Hf|].
  rewrite fmap_cons in Hnd. apply NoDup_cons in Hnd as [Hh Hnd].
  rewrite cellRun_cons. destruct (hits (fx f) (fy f) h) eqn:Hhit.
  - apply hits_spec in Hhit as [Hx Hy].
    assert (h = f) as ->.
    { apply elem_of_cons in Hf as [E|Hf]; [now symmetry|]. exfalso. apply Hh.
      apply list_elem_of_fmap. exists f. split; [unfold pos; congruence|assumption]. }
    unfold depthTest. rewrite Hlt. apply cellRun_fail.
    intros g Hg Hhg. exfalso. apply Hh. apply hits_spec in Hhg as [? ?].
    apply list_elem_of_fmap. exists g. split; [unfold pos; congruence|assumption].
  - apply IH; auto. apply elem_of_cons in Hf as [E|Hf]; [|assumption].
    subst h. assert (hits (fx f) (fy f) f = true) by (apply hits_spec; auto). congruence.
Qed.

(** Two triangles drawn one after the other onto cleared buffers. *)
Lemma two_triangles_cells rs clear s0 a1 a2 a3 b1 b2 b3 ug :
  wf rs -> clearBuffers rs clear = Some s0 ->
  exists final,
    (drawTriangle s0 a1 a2 a3 ug ≫= fun s => drawTriangle s b1 b2 b3 ug) = Some final /\
    wf final /\ width final = width s0 /\ height final = height s0 /\
    wf s0 /\
    forall x y, isInBounds s0 x y = true ->
      cellAt final x y =
        Some (cellRun x y (drawTriangle_fragments b1 b2 b3 ug)
                (cellRun x y (drawTriangle_fragments a1 a2 a3 ug) (one, channels clear))).
Proof.
  intros Hwf Hclear.
  destruct (clearBuffers_spec rs clear Hwf) as (s0' & E0 & Hwf0 & Hw0 & Hh0 & Hc0).
  rewrite Hclear in E0. injection E0 as <-.
  unfold drawTriangle.
  destruct (emits_cell (drawTriangle_fragments a1 a2 a3 ug) s0 Hwf0)
    as (s1 & -> & Hwf1 & Hw1 & Hh1 & Hc1). simpl.
  destruct (emits_cell (drawTriangle_fragments b1 b2 b3 ug) s1 Hwf1)
    as (s2 & -> & Hwf2 & Hw2 & Hh2 & Hc2).
  exists s2. split; [reflexivity|]. split; [exact Hwf2|].
  split; [congruence|]. split; [congruence|]. split; [exact Hwf0|].
  intros x y Hin.
  assert (Hin1 : isInBounds s1 x y = true) by (unfold isInBounds in *; now rewrite Hw1, Hh1).
  assert (Hin0 : isInBounds rs x y = true) by (unfold isInBounds in *; now rewrite <- Hw0, <- Hh0).
  rewrite (Hc2 x y Hin1), (Hc1 x y Hin), (Hc0 x y Hin0). reflexivity.
Qed.
End RasterFacts.

Module DepthOrder.
Import F32 Raster BufferFacts RasterFacts Scene Stated.

(** C1, as stated, fails.  The sliver triangle at depth 0.2 and the same
    sliver at depth 0.8 both cover exactly pixel (3, 1) of a 4 by 2
    target; the barycentric weights computed there are -13344283,
    13344284 and 0, under which both interpolated depths round to 0.0.
    The tie keeps whichever triangle was drawn first, so far-then-near
    shows the far grey 64 and near-then-far the near grey 128. *)
Lemma depth_order_fails_on_sliver : ~ depthOrderIndependence.
Proof.
  intros H.
  destruct (H (blank 4 2) (grey 0)
              (mkRasterizer 4 2 (replicate 24 0) (replicate 8 one))
              (sliver (lit 1 5) (grey 100)) (sliver (lit 4 5) (grey 50)) true)
    as (final & E1 & E2 & _).
  - unfold wf. simpl. lia.
  - vm_compute. reflexivity.
  - repeat split.
  - repeat split.
  - intros x y. unfold covers.
    replace (fragmentsOf (sliver (lit 1 5) (grey 100)) true)
      with [mkFragment 3 1 (vec3.mk (S754_finite true 13344283 0)
                                     (S754_finite false 13344284 0) zero)
                       zero (grey 128)] by (vm_compute; reflexivity).
    replace (fragmentsOf (sliver (lit 4 5) (grey 50)) true)
      with [mkFragment 3 1 (vec3.mk (S754_finite true 13344283 0)
                                     (S754_finite false 13344284 0) zero)
                       zero (grey 64)] by (vm_compute; reflexivity).
    split; intros (f & Hf%list_elem_of_singleton & Hx & Hy); subst f;
      eexists; (split; [apply list_elem_of_singleton; reflexivity|]); auto.
  - vm_compute in E1. vm_compute in E2. congruence.
Qed.

(** C1, amended: drawn onto freshly cleared buffers, two triangles leave the
    same frame buffer and depth buffer in either order, and every in-bounds
    pixel the near fill covers ends with the depth and colour the near
    fill computed for it, provided the depths the fills interpolate are
    what vertex depths such as 0.2 and 0.8 make them when the weights are
    sound: each near fragment is below the cleared depth 1.0, and below
    each far fragment on the same pixel. *)
Theorem depth_order_independent rs clear s0 (near far : Triangle) ug :
  wf rs -> clearBuffers rs clear = Some s0 ->
  (forall f, f ∈ fragmentsOf near ug -> ltb (fdepth f) one = true) ->
  (forall f g, f ∈ fragmentsOf near ug -> g ∈ fragmentsOf far ug ->
     fx f = fx g -> fy f = fy g -> ltb (fdepth f) (fdepth g) = true) ->
  exists final,
    drawBoth s0 far near ug = Some final /\
    drawBoth s0 near far ug = Some final /\
    forall f, f ∈ fragmentsOf near ug -> isInBounds s0 (fx f) (fy f) = true ->
      cellAt final (fx f) (fy f) = Some (fdepth f, channels (fcolor f)).
Proof.
  intros Hwf Hclear Hb Hc.
  destruct near as [[n1 n2] n3], far as [[f1 f2] f3].
  unfold drawBoth, draw, fragmentsOf in *. simpl in *.
  destruct (two_triangles_cells rs clear s0 f1 f2 f3 n1 n2 n3 ug Hwf Hclear)
    as (fin1 & E1 & Hwf1 & Hw1 & Hh1 & Hwf0 & Hc1).
  destruct (two_triangles_cells rs clear s0 n1 n2 n3 f1 f2 f3 ug Hwf Hclear)
    as (fin2 & E2 & Hwf2 & Hw2 & Hh2 & _ & Hc2).
  assert (Heq : fin1 = fin2).
  { apply rasterizer_ext; auto; try congruence.
    intros x y Hin.
    assert (Hin0 : isInBounds s0 x y = true) by (unfold isInBounds in *; now rewrite <- Hw1, <- Hh1).
    rewrite (Hc1 x y Hin0), (Hc2 x y Hin0). f_equal.
    apply cellRun_commute; assumption. }
  exists fin1. split; [exact E1|]. split; [now rewrite Heq|].
  intros f Hf Hin. rewrite (Hc1 _ _ Hin). f_equal.
  rewrite cellRun_commute by assumption.
  rewrite (cellRun_unique (drawTriangle_fragments n1 n2 n3 ug) f (one, channels clear));
    [|apply drawTriangle_fragments_NoDup | exact Hf | apply Hb, Hf].
  apply cellRun_fail. intros g Hg Hhg. simpl.
  apply F32Facts.ltb_asym. apply hits_spec in Hhg as [? ?]. apply Hc; auto.
Qed.

Lemma forallb_elem_of {A} (p : A -> bool) (l : list A) :
  forallb p l = true -> forall a, a ∈ l -> p a = true.
Proof. intros H a Ha%list_elem_of_In. revert a Ha. now apply forallb_forall. Qed.

Lemma nearerOnSharedPixels_spec near far :
  nearerOnSharedPixels near far = true ->
  forall f g, f ∈ near -> g ∈ far -> fx f = fx g -> fy f = fy g ->
    ltb (fdepth f) (fdepth g) = true.
Proof.
  intros H f g Hf Hg Hx Hy.
  pose proof (forallb_elem_of _ _ (forallb_elem_of _ _ H f Hf) g Hg) as Hfg.
  simpl in Hfg. rewrite Hx, Hy, !Z.eqb_refl in Hfg. exact Hfg.
Qed.

(** The amended statement at work: the grid-aligned right triangle at
    depths 0.2 and 0.8 on an 8 by 8 target. *)
Lemma depth_order_independent_witness :
  wf (blank 8 8) /\
  clearBuffers (blank 8 8) (grey 0)
    = Some (mkRasterizer 8 8 (replicate 192 0) (replicate 64 one)) /\
  exists final,
    drawBoth (mkRasterizer 8 8 (replicate 192 0) (replicate 64 one))
             (corner (lit 4 5) (grey 50)) (corner (lit 1 5) (grey 100)) true = Some final /\
    drawBoth (mkRasterizer 8 8 (replicate 192 0) (replicate 64 one))
             (corner (lit 1 5) (grey 100)) (corner (lit 4 5) (grey 50)) true = Some final /\
    forall f, f ∈ fragmentsOf (corner (lit 1 5) (grey 100)) true ->
      isInBounds (mkRasterizer 8 8 (replicate 192 0) (replicate 64 one)) (fx f) (fy f) = true ->
      cellAt final (fx f) (fy f) = Some (fdepth f, channels (fcolor f)).
Proof.
  assert (H1 : wf (blank 8 8)) by (unfold wf; simpl; lia).
  assert (H2 : clearBuffers (blank 8 8) (grey 0)
               = Some (mkRasterizer 8 8 (replicate 192 0) (replicate 64 one)))
    by (vm_compute; reflexivity).
  split; [exact H1|]. split; [exact H2|].
  apply (depth_order_independent (blank 8 8) (grey 0) _
           (corner (lit 1 5) (grey 100)) (corner (lit 4 5) (grey 50)) true H1 H2).
  - apply forallb_elem_of. vm_compute. reflexivity.
  - apply nearerOnSharedPixels_spec. vm_compute. reflexivity.
Defined.

End DepthOrder.

Module PixelWrites.
Import F32 Raster BufferFacts RasterFacts Scene.

(** C2.  In bounds, [setPixelWithDepth] compares [depth] with the depth
    stored for the pixel.  If [depth < stored] it stores [depth] in the
    pixel's depth cell and the three colour channels in the pixel's bytes;
    otherwise, and in particular when [depth >= stored] or [depth ==
    stored], it returns with both buffers exactly as they were. *)
Theorem setPixelWithDepth_strict_test rs x y depth c :
  wf rs -> isInBounds rs x y = true ->
  exists stored,
    depthAt rs x y = Some stored /\
    (ltb depth stored = true ->
       setPixelWithDepth rs x y depth c =
         Some (mkRasterizer (width rs) (height rs)
                 (<[Z.to_nat ((y * width rs + x) * 3 + 2) := b c]>
                    (<[Z.to_nat ((y * width rs + x) * 3 + 1) := g c]>
                       (<[Z.to_nat ((y * width rs + x) * 3 + 0) := r c]> (frameBuffer rs))))
                 (<[Z.to_nat (y * width rs + x) := depth]> (depthBuffer rs))) /\
       forall rs', setPixelWithDepth rs x y depth c = Some rs' ->
         depthAt rs' x y = Some depth /\ colorAt rs' x y = Some (channels c)) /\
    (ltb depth stored = false -> setPixelWithDepth rs x y depth c = Some rs) /\
    (geb depth stored = true -> setPixelWithDepth rs x y depth c = Some rs) /\
    (eqb depth stored = true -> setPixelWithDepth rs x y depth c = Some rs).
Proof.
  intros Hwf Hin.
  destruct (setPixelWithDepth_in rs x y depth c Hwf Hin) as (stored & Hst & E).
  exists stored. split; [exact Hst|].
  assert (Hno : ltb depth stored = false -> setPixelWithDepth rs x y depth c = Some rs).
  { intros Hlt. now rewrite E, Hlt. }
  split; [|split; [exact Hno|split]].
  - intros Hlt. rewrite Hlt in E. split; [exact E|].
    intros rs' E'.
    destruct (emit_cell rs (mkFragment x y (glm.splat3 zero) depth c) x y Hwf Hin)
      as (rs1 & E1 & Hwf1 & Hw1 & Hh1 & Hcell).
    unfold emit in E1. simpl in E1. rewrite E' in E1. injection E1 as <-.
    assert (Hhit : hits x y (mkFragment x y (glm.splat3 zero) depth c) = true)
      by (apply hits_spec; auto).
    rewrite Hhit in Hcell.
    unfold cellAt in Hcell. unfold depthAt at 2 in Hcell. unfold cellIndex in Hcell.
    rewrite Hst in Hcell. simpl in Hcell.
    assert (Hin' : isInBounds rs' x y = true) by (unfold isInBounds in *; now rewrite Hw1, Hh1).
    destruct (cellAt_in rs' x y Hwf1 Hin') as (d' & cr & cg & cb & _ & _ & _ & _ & Ec).
    unfold cellAt in Ec.
    destruct (depthAt rs' x y) as [d1|]; [|discriminate]. simpl in *.
    destruct (colorAt rs' x y) as [c1|]; [|discriminate]. simpl in *.
    destruct (colorAt rs x y) as [c0|]; [|discriminate]. simpl in *.
    unfold depthTest in Hcell. simpl in Hcell. rewrite Hlt in Hcell.
    injection Hcell as -> ->. auto.
  - intros Hge. apply Hno, F32Facts.leb_not_ltb, Hge.
  - intros Heq. apply Hno, F32Facts.eqb_not_ltb, Heq.
Qed.

(** A 2 by 2 target after [clearBuffers]: every depth is 1.0. *)
Lemma setPixelWithDepth_strict_test_witness :
  wf (mkRasterizer 2 2 (replicate 12 0) (replicate 4 one)) /\
  isInBounds (mkRasterizer 2 2 (replicate 12 0) (replicate 4 one)) 1 0 = true /\
  exists stored,
    depthAt (mkRasterizer 2 2 (replicate 12 0) (replicate 4 one)) 1 0 = Some stored /\
    (ltb (lit 1 2) stored = true ->
       setPixelWithDepth (mkRasterizer 2 2 (replicate 12 0) (replicate 4 one)) 1 0
                         (lit 1 2) (grey 7)
       = Some (mkRasterizer 2 2 [0; 0; 0; 7; 7; 7; 0; 0; 0; 0; 0; 0]
                            [one; lit 1 2; one; one])).
Proof.
  assert (H1 : wf (mkRasterizer 2 2 (replicate 12 0) (replicate 4 one)))
    by (unfold wf; simpl; lia).
  assert (H2 : isInBounds (mkRasterizer 2 2 (replicate 12 0) (replicate 4 one)) 1 0 = true)
    by reflexivity.
  split; [exact H1|]. split; [exact H2|].
  destruct (setPixelWithDepth_strict_test _ 1 0 (lit 1 2) (grey 7) H1 H2)
    as (stored & Hst & Hlt & _).
  exists stored. split; [exact Hst|].
  intros H. destruct (Hlt H) as [E _]. exact E.
Defined.

(** C4.  Outside [0, width) x [0, height) both pixel routines return
    normally with the rasterizer untouched; and on a rasterizer of the
    constructor's shape no drawing routine ever addresses a byte or a depth
    cell outside the two buffers (every store and load of the run is in
    range, the buffers keep their sizes). *)
Theorem out_of_bounds_writes_dropped rs x y depth c :
  (x < 0 \/ width rs <= x \/ y < 0 \/ height rs <= y ->
     setPixel rs x y c = Some rs /\ setPixelWithDepth rs x y depth c = Some rs) /\
  (wf rs ->
  (forall x1 y1 x2 y2, exists rs',
     draw_line rs x1 y1 x2 y2 c = Some rs' /\ wf rs' /\
     width rs' = width rs /\ height rs' = height rs) /\
  (forall xc yc r_, exists rs',
     draw_circle rs xc yc r_ c = Some rs' /\ wf rs' /\
     width rs' = width rs /\ height rs' = height rs) /\
  (forall v1 v2 v3 ug, exists rs',
     drawTriangle rs v1 v2 v3 ug = Some rs' /\ wf rs' /\
     width rs' = width rs /\ height rs' = height rs) /\
  (forall v1 v2 v3, exists rs',
     drawWireframeTriangle rs v1 v2 v3 c = Some rs' /\ wf rs' /\
     width rs' = width rs /\ height rs' = height rs)).
Proof.
  split.
  { intros Hout. apply isInBounds_false in Hout.
    split; [apply setPixel_out | apply setPixelWithDepth_out]; exact Hout. }
  intros Hwf.
  assert (Hplot : forall l s, wf s -> exists s', foldM (plot c) l s = Some s' /\
            wf s' /\ width s' = width s /\ height s' = height s).
  { intros l s Hs.
    destruct (foldM_invariant (plot c)
                (fun t => wf t /\ width t = width s /\ height t = height s) l s)
      as (s' & E & H); [|auto|eauto].
    intros t p (Ht & Hw & Hh). unfold plot.
    destruct (setPixel_total t p.1 p.2 c Ht) as (t' & -> & Ht' & Hw' & Hh' & _).
    exists t'. split; [reflexivity|]. split; [exact Ht'|]. split; congruence. }
  split; [|split; [|split]].
  - intros. apply Hplot, Hwf.
  - intros. apply Hplot, Hwf.
  - intros v1 v2 v3 ug. unfold drawTriangle.
    destruct (emits_cell (drawTriangle_fragments v1 v2 v3 ug) rs Hwf)
      as (rs' & E & Hwf' & Hw & Hh & _). eauto.
  - intros v1 v2 v3. unfold drawWireframeTriangle, draw_line.
    destruct (Hplot (draw_line_pixels (trunc_int (vec4.x (position v1)))
                (trunc_int (vec4.y (position v1))) (trunc_int (vec4.x (position v2)))
                (trunc_int (vec4.y (position v2)))) rs Hwf) as (s1 & -> & H1 & Hw1 & Hh1).
    simpl.
    destruct (Hplot (draw_line_pixels (trunc_int (vec4.x (position v2)))
                (trunc_int (vec4.y (position v2))) (trunc_int (vec4.x (position v3)))
                (trunc_int (vec4.y (position v3)))) s1 H1) as (s2 & -> & H2 & Hw2 & Hh2).
    simpl.
    destruct (Hplot (draw_line_pixels (trunc_int (vec4.x (position v3)))
                (trunc_int (vec4.y (position v3))) (trunc_int (vec4.x (position v1)))
                (trunc_int (vec4.y (position v1)))) s2 H2) as (s3 & -> & H3 & Hw3 & Hh3).
    exists s3. split; [reflexivity|]. split; [exact H3|]. split; congruence.
Qed.

Lemma out_of_bounds_writes_dropped_witness :
  (setPixel (mkRasterizer 2 2 (replicate 12 0) (replicate 4 one)) 2 (-1) (grey 9)
     = Some (mkRasterizer 2 2 (replicate 12 0) (replicate 4 one)) /\
   setPixelWithDepth (mkRasterizer 2 2 (replicate 12 0) (replicate 4 one)) 2 (-1)
                     zero (grey 9)
     = Some (mkRasterizer 2 2 (replicate 12 0) (replicate 4 one))) /\
  wf (mkRasterizer 2 2 (replicate 12 0) (replicate 4 one)) /\
  exists rs', draw_line (mkRasterizer 2 2 (replicate 12 0) (replicate 4 one))
                        (-3) 0 5 1 (grey 9) = Some rs' /\ wf rs'.
Proof.
  assert (H1 : wf (mkRasterizer 2 2 (replicate 12 0) (replicate 4 one)))
    by (unfold wf; simpl; lia).
  destruct (out_of_bounds_writes_dropped
              (mkRasterizer 2 2 (replicate 12 0) (replicate 4 one)) 2 (-1) zero (grey 9))
    as [Hout Hdraw].
  split; [apply Hout; simpl; lia|]. split; [exact H1|].
  destruct (Hdraw H1) as (Hline & _).
  destruct (Hline (-3) 0 5 1) as (rs' & E & Hwf' & _).
  exists rs'. split; [exact E|exact Hwf'].
Defined.

End PixelWrites.

Module Outlines.
Import F32 Raster BufferFacts RasterFacts Scene.

(** A run of [setPixel] calls keeps the depth buffer. *)
Lemma plots_keep_depth c l rs :
  wf rs -> exists rs', foldM (plot c) l rs = Some rs' /\ wf rs' /\
    depthBuffer rs' = depthBuffer rs.
Proof.
  intros Hwf.
  destruct (foldM_invariant (plot c)
              (fun t => wf t /\ depthBuffer t = depthBuffer rs) l rs)
    as (s' & E & H); [|auto|eauto].
  intros t p (Ht & Hd). unfold plot.
  destruct (setPixel_total t p.1 p.2 c Ht) as (t' & -> & Ht' & _ & _ & Hd').
  exists t'. split; [reflexivity|]. split; [exact Ht'|congruence].
Qed.

(** C10.  [draw_line], [draw_circle] and [drawWireframeTriangle] only ever
    call [setPixel], which ignores depth: whatever the arguments, they
    return with every cell of the depth buffer as it was. *)
Theorem outlines_keep_depth_buffer rs c :
  wf rs ->
  (forall x1 y1 x2 y2, exists rs',
     draw_line rs x1 y1 x2 y2 c = Some rs' /\ depthBuffer rs' = depthBuffer rs) /\
  (forall xc yc r_, exists rs',
     draw_circle rs xc yc r_ c = Some rs' /\ depthBuffer rs' = depthBuffer rs) /\
  (forall v1 v2 v3, exists rs',
     drawWireframeTriangle rs v1 v2 v3 c = Some rs' /\ depthBuffer rs' = depthBuffer rs).
Proof.
  intros Hwf. split; [|split].
  - intros. destruct (plots_keep_depth c (draw_line_pixels x1 y1 x2 y2) rs Hwf)
      as (rs' & E & _ & Hd). eauto.
  - intros. destruct (plots_keep_depth c (draw_circle_pixels xc yc r_) rs Hwf)
      as (rs' & E & _ & Hd). eauto.
  - intros v1 v2 v3. unfold drawWireframeTriangle, draw_line.
    destruct (plots_keep_depth c (draw_line_pixels (trunc_int (vec4.x (position v1)))
                (trunc_int (vec4.y (position v1))) (trunc_int (vec4.x (position v2)))
                (trunc_int (vec4.y (position v2)))) rs Hwf) as (s1 & -> & H1 & Hd1).
    simpl.
    destruct (plots_keep_depth c (draw_line_pixels (trunc_int (vec4.x (position v2)))
                (trunc_int (vec4.y (position v2))) (trunc_int (vec4.x (position v3)))
                (trunc_int (vec4.y (position v3)))) s1 H1) as (s2 & -> & H2 & Hd2).
    simpl.
    destruct (plots_keep_depth c (draw_line_pixels (trunc_int (vec4.x (position v3)))
                (trunc_int (vec4.y (position v3))) (trunc_int (vec4.x (position v1)))
                (trunc_int (vec4.y (position v1)))) s2 H2) as (s3 & -> & H3 & Hd3).
    exists s3. split; [reflexivity|congruence].
Qed.

(** A 4 by 4 target whose depth buffer holds 0.5 everywhere. *)
Lemma outlines_keep_depth_buffer_witness :
  wf (mkRasterizer 4 4 (replicate 48 0) (replicate 16 (lit 1 2))) /\
  (exists rs', draw_line (mkRasterizer 4 4 (replicate 48 0) (replicate 16 (lit 1 2)))
                         0 0 3 2 (grey 200) = Some rs' /\
               depthBuffer rs' = replicate 16 (lit 1 2)) /\
  (exists rs', draw_circle (mkRasterizer 4 4 (replicate 48 0) (replicate 16 (lit 1 2)))
                           1 1 2 (grey 200) = Some rs' /\
               depthBuffer rs' = replicate 16 (lit 1 2)) /\
  (exists rs', drawWireframeTriangle
                 (mkRasterizer 4 4 (replicate 48 0) (replicate 16 (lit 1 2)))
                 (vertex (of_Z 0) (of_Z 0) zero (grey 1))
                 (vertex (of_Z 3) (of_Z 1) zero (grey 1))
                 (vertex (of_Z 1) (of_Z 3) zero (grey 1)) (grey 200) = Some rs' /\
               depthBuffer rs' = replicate 16 (lit 1 2)).
Proof.
  assert (H1 : wf (mkRasterizer 4 4 (replicate 48 0) (replicate 16 (lit 1 2))))
    by (unfold wf; simpl; lia).
  split; [exact H1|].
  destruct (outlines_keep_depth_buffer _ (grey 200) H1) as (Hl & Hc & Hw).
  split; [apply Hl|]. split; [apply Hc|apply Hw].
Defined.

End Outlines.

Module LinesAndCircles.
Import Raster BufferFacts RasterFacts Stated.


(** *** The midpoint loop never runs out of fuel *)

Lemma draw_circle_loop_fuel fuel1 fuel2 xc yc x y d :
  (Z.to_nat (y - x) <= fuel1)%nat -> (Z.to_nat (y - x) <= fuel2)%nat ->
  draw_circle_loop fuel1 xc yc x y d = draw_circle_loop fuel2 xc yc x y d.
Proof.
  revert fuel2 x y d. induction fuel1 as [|f1 IH]; intros fuel2 x y d H1 H2.
  - destruct fuel2; simpl; destruct (Z.ltb_spec x y); try reflexivity; lia.
  - destruct fuel2 as [|f2]; simpl; destruct (Z.ltb_spec x y); try reflexivity; try lia.
    destruct (d <? 0); simpl; do 8 f_equal; apply IH; lia.
Qed.

Lemma subsetb_spec l k : subsetb l k = true -> forall p, p ∈ l -> p ∈ k.
Proof.
  intros H p Hp%list_elem_of_In.
  pose proof (proj1 (forallb_forall _ _) H p Hp) as Hex. simpl in Hex.
  apply existsb_exists in Hex as (q & Hq%list_elem_of_In & Heq).
  unfold eqbZZ in Heq. apply andb_true_iff in Heq as [E1%Z.eqb_eq E2%Z.eqb_eq].
  destruct p, q. simpl in *. now subst.
Qed.

Lemma drawCirclePoints_shift xc yc x y :
  drawCirclePoints_pixels xc yc x y = shift xc yc <$> drawCirclePoints_pixels 0 0 x y.
Proof.
  unfold drawCirclePoints_pixels, shift. simpl. repeat (f_equal; try lia).
Qed.

Lemma draw_circle_loop_shift fuel xc yc x y d :
  draw_circle_loop fuel xc yc x y d = shift xc yc <$> draw_circle_loop fuel 0 0 x y d.
Proof.
  revert x y d. induction fuel as [|fuel IH]; intros x y d; cbn [draw_circle_loop].
  - now destruct (x <? y).
  - destruct (x <? y); [|reflexivity].
    destruct (d <? 0); rewrite fmap_app, <- IH, <- drawCirclePoints_shift; reflexivity.
Qed.

Lemma draw_circle_pixels_shift xc yc r_ :
  draw_circle_pixels xc yc r_ = shift xc yc <$> draw_circle_pixels 0 0 r_.
Proof.
  unfold draw_circle_pixels.
  now rewrite fmap_app, <- draw_circle_loop_shift, <- drawCirclePoints_shift.
Qed.

(** *** What a run of [setPixel] calls leaves in the frame buffer *)

Lemma eqbZZ_spec p q : eqbZZ p q = true <-> p = q.
Proof.
  unfold eqbZZ. rewrite andb_true_iff, !Z.eqb_eq. destruct p, q; simpl.
  split; [intros [-> ->]; reflexivity | intros [= -> ->]; auto].
Qed.

Lemma setPixel_colorAt rs px py c x y :
  wf rs -> isInBounds rs x y = true ->
  exists rs', setPixel rs px py c = Some rs' /\ wf rs' /\
    width rs' = width rs /\ height rs' = height rs /\
    colorAt rs' x y = if eqbZZ (px, py) (x, y) then Some (channels c) else colorAt rs x y.
Proof.
  intros Hwf Hin.
  destruct (cellAt_in _ _ _ Hwf Hin) as (d & cr & cg & cb & Ed & Er & Eg & Eb & Ecell).
  assert (Hcol : forall t, wf t -> isInBounds t x y = true -> width t = width rs ->
            forall vr vg vb,
              frameBuffer t !! Z.to_nat ((y * width rs + x) * 3 + 0) = Some vr ->
              frameBuffer t !! Z.to_nat ((y * width rs + x) * 3 + 1) = Some vg ->
              frameBuffer t !! Z.to_nat ((y * width rs + x) * 3 + 2) = Some vb ->
              colorAt t x y = Some (vr, vg, vb)).
  { intros t Ht Hint Hw vr vg vb Fr Fg Fb.
    destruct (cellAt_in _ _ _ Ht Hint) as (d' & cr' & cg' & cb' & _ & Er' & Eg' & Eb' & Ec').
    rewrite Hw in Er', Eg', Eb'.
    unfold cellAt in Ec'. destruct (depthAt t x y); [|discriminate]. simpl in Ec'.
    destruct (colorAt t x y) as [[[? ?] ?]|]; [|discriminate].
    injection Ec' as _ -> -> ->. congruence. }
  destruct (isInBounds rs px py) eqn:Hp.
  - rewrite (setPixel_in _ _ _ _ Hwf Hp).
    set (rs' := mkRasterizer _ _ _ _).
    assert (Hwf' : wf rs') by (apply wf_insert; auto; now rewrite !length_insert).
    exists rs'. split; [reflexivity|]. split; [exact Hwf'|]. do 2 (split; [reflexivity|]).
    pose proof Hin as Hin'. pose proof Hp as Hp'.
    apply isInBounds_spec in Hin' as [Hx Hy]. apply isInBounds_spec in Hp' as [Hpx Hpy].
    pose proof (cell_in_range _ _ _ _ Hx Hy) as Hc.
    pose proof (cell_in_range _ _ _ _ Hpx Hpy) as Hpc.
    pose proof (wf_fb_length _ Hwf) as Hl.
    destruct (eqbZZ (px, py) (x, y)) eqn:Heq.
    + apply eqbZZ_spec in Heq as [= -> ->].
      apply (Hcol rs' Hwf' Hin eq_refl); subst rs'; simpl; now lookup_inserts.
    + assert (Hne : py * width rs + px <> y * width rs + x).
      { intros E. apply cell_injective in E as [-> ->]; [|lia..].
        assert (eqbZZ (x, y) (x, y) = true) by now apply eqbZZ_spec. congruence. }
      rewrite (Hcol rs Hwf Hin eq_refl cr cg cb Er Eg Eb).
      apply (Hcol rs' Hwf' Hin eq_refl); subst rs'; simpl; now lookup_inserts.
  - rewrite (setPixel_out _ _ _ _ Hp). exists rs. repeat (split; [auto|]).
    destruct (eqbZZ (px, py) (x, y)) eqn:Heq; [|reflexivity].
    apply eqbZZ_spec in Heq as [= -> ->]. congruence.
Qed.

(** After the run, an in-bounds pixel holds the colour if some call named
    it, and what it held before otherwise. *)
Lemma plots_colorAt c l rs :
  wf rs ->
  exists rs', foldM (plot c) l rs = Some rs' /\ wf rs' /\
    width rs' = width rs /\ height rs' = height rs /\
    forall x y, isInBounds rs x y = true ->
      colorAt rs' x y = if existsb (eqbZZ (x, y)) l then Some (channels c) else colorAt rs x y.
Proof.
  revert rs. induction l as [|[px py] l IH]; intros rs Hwf.
  - exists rs. repeat (split; [auto|]). reflexivity.
  - change (foldM (plot c) ((px, py) :: l) rs)
      with (setPixel rs px py c ≫= foldM (plot c) l).
    destruct (setPixel_total rs px py c Hwf) as (rs1 & E1 & Hwf1 & Hw1 & Hh1 & _).
    rewrite E1. simpl.
    destruct (IH rs1 Hwf1) as (rs' & E' & Hwf' & Hw' & Hh' & Hcol).
    exists rs'. split; [exact E'|]. split; [exact Hwf'|].
    split; [congruence|]. split; [congruence|].
    intros x y Hin.
    assert (Hin1 : isInBounds rs1 x y = true) by (unfold isInBounds in *; now rewrite Hw1, Hh1).
    rewrite (Hcol x y Hin1).
    destruct (setPixel_colorAt rs px py c x y Hwf Hin) as (rs1' & E1' & _ & _ & _ & Hc1).
    rewrite E1 in E1'. injection E1' as <-. rewrite Hc1.
    replace (eqbZZ (x, y) (px, py)) with (eqbZZ (px, py) (x, y))
      by (unfold eqbZZ; simpl; now rewrite (Z.eqb_sym px), (Z.eqb_sym py)).
    destruct (existsb (eqbZZ (x, y)) l), (eqbZZ (px, py) (x, y)); reflexivity.
Qed.

Lemma existsb_eqbZZ p l : existsb (eqbZZ p) l = true <-> p ∈ l.
Proof.
  rewrite existsb_exists. split.
  - intros (q & Hq%list_elem_of_In & ->%eqbZZ_spec). exact Hq.
  - intros Hp. exists p. split; [now apply list_elem_of_In|now apply eqbZZ_spec].
Qed.

(** C8.  The pixels [draw_circle(0, 0, 3, c)] hands to [setPixel] are
    exactly the sixteen listed points, which are pairwise distinct; around
    any centre the same sixteen offsets are touched; and in the frame
    buffer exactly those of them that lie inside the target take the
    colour, every other pixel keeping what it held. *)
Theorem draw_circle_radius3_exact :
  (forall p, p ∈ draw_circle_pixels 0 0 3 <-> p ∈ circle3) /\
  NoDup circle3 /\ length circle3 = 16%nat /\
  (forall xc yc p, p ∈ draw_circle_pixels xc yc 3 <-> p ∈ shift xc yc <$> circle3) /\
  (forall rs xc yc c, wf rs ->
     exists rs', draw_circle rs xc yc 3 c = Some rs' /\
       forall x y, isInBounds rs x y = true ->
         ((x, y) ∈ shift xc yc <$> circle3 -> colorAt rs' x y = Some (channels c)) /\
         ((x, y) ∉ shift xc yc <$> circle3 -> colorAt rs' x y = colorAt rs x y)).
Proof.
  assert (H0 : forall p, p ∈ draw_circle_pixels 0 0 3 <-> p ∈ circle3).
  { intros p. split; apply subsetb_spec; vm_compute; reflexivity. }
  assert (H1 : forall xc yc p,
            p ∈ draw_circle_pixels xc yc 3 <-> p ∈ shift xc yc <$> circle3).
  { intros xc yc p. rewrite draw_circle_pixels_shift, !list_elem_of_fmap.
    split; intros (q & -> & Hq); exists q; (split; [reflexivity|]); now apply H0. }
  split; [exact H0|]. split; [|split; [reflexivity|split; [exact H1|]]].
  - apply (bool_decide_unpack _). vm_compute. reflexivity.
  - intros rs xc yc c Hwf. unfold draw_circle.
    destruct (plots_colorAt c (draw_circle_pixels xc yc 3) rs Hwf)
      as (rs' & E & _ & _ & _ & Hcol).
    exists rs'. split; [exact E|]. intros x y Hin. rewrite (Hcol x y Hin).
    destruct (existsb (eqbZZ (x, y)) (draw_circle_pixels xc yc 3)) eqn:Hex.
    + apply existsb_eqbZZ, H1 in Hex. split; [reflexivity|]. intros Hn. contradiction.
    + split; [|reflexivity]. intros Hy%H1%existsb_eqbZZ. congruence.
Qed.

(** The full circle fits a 7 by 7 target around its middle pixel. *)
Lemma draw_circle_radius3_exact_witness :
  wf (mkRasterizer 7 7 (replicate 147 0) (replicate 49 F32.one)) /\
  exists rs', draw_circle (mkRasterizer 7 7 (replicate 147 0) (replicate 49 F32.one))
                          3 3 3 (rgb 9 9 9) = Some rs' /\
    colorAt rs' 6 3 = Some (9, 9, 9) /\ colorAt rs' 3 3 = Some (0, 0, 0).
Proof.
  assert (Hwf : wf (mkRasterizer 7 7 (replicate 147 0) (replicate 49 F32.one)))
    by (unfold wf; simpl; lia).
  split; [exact Hwf|].
  destruct draw_circle_radius3_exact as (_ & _ & _ & _ & H).
  destruct (H _ 3 3 (rgb 9 9 9) Hwf) as (rs' & E & Hpix).
  exists rs'. split; [exact E|]. split.
  - apply (Hpix 6 3); [reflexivity|]. apply (list_elem_of_lookup_2 _ 0%nat). reflexivity.
  - rewrite (proj2 (Hpix 3 3 eq_refl)); [reflexivity|].
    apply (bool_decide_unpack _). vm_compute. reflexivity.
Defined.

End LinesAndCircles.

Module Interpolation.
Import F32 Raster BufferFacts RasterFacts Scene Stated.

Lemma shadePixel_fromWeights a b c y x : fromWeights (shadePixel a b c y x) a b c.
Proof. repeat split. Qed.

Lemma scanline_shaded a b c y x1 x2 f :
  f ∈ scanline a b c y x1 x2 -> fromWeights f a b c.
Proof.
  unfold scanline. intros (x & -> & _)%list_elem_of_fmap. apply shadePixel_fromWeights.
Qed.

Lemma fillFlatBottom_rows_shaded n y x1 x2 s1 s2 a b c f :
  f ∈ fillFlatBottom_rows n y x1 x2 s1 s2 a b c -> fromWeights f a b c.
Proof.
  revert y x1 x2. induction n as [|n IH]; intros y x1 x2; simpl; [inversion 1|].
  intros [Hf|Hf]%elem_of_app; [eapply scanline_shaded, Hf | eapply IH, Hf].
Qed.

Lemma fillFlatTop_rows_shaded n y x1 x2 s1 s2 a b c f :
  f ∈ fillFlatTop_rows n y x1 x2 s1 s2 a b c -> fromWeights f a b c.
Proof.
  revert y x1 x2. induction n as [|n IH]; intros y x1 x2; simpl; [inversion 1|].
  intros [Hf|Hf]%elem_of_app; [eapply scanline_shaded, Hf | eapply IH, Hf].
Qed.

(** The sorted vertices are the given ones, reordered. *)
Lemma sortByY_perm v1 v2 v3 :
  let '(top, mid, bot) := sortByY v1 v2 v3 in [top; mid; bot] ≡ₚ [v1; v2; v3].
Proof.
  unfold sortByY.
  destruct (lessY v2 v1);
    repeat match goal with |- context [if ?c then _ else _] => destruct c end.
  - etransitivity; [apply perm_swap|]. etransitivity; [apply perm_skip, perm_swap|].
    apply perm_swap.
  - etransitivity; [apply perm_skip, perm_swap|]. apply perm_swap.
  - apply perm_swap.
  - etransitivity; [apply perm_swap|]. apply perm_skip, perm_swap.
  - apply perm_skip, perm_swap.
  - reflexivity.
Qed.

(** C3, as stated, fails.  The wedge (6,0), (0,3), (6,6) is split at the
    height of its middle vertex; pixel (5, 5) lies in the lower half, whose
    weights (1/6, 1/6, 2/3) are taken against (mid, split vertex, bottom).
    No choice of three of the wedge's own vertices gives these weights:
    against (top, mid, bottom) they would be (1/12, 1/6, 3/4). *)
Lemma weights_not_against_original : ~ weightsAgainstOriginal.
Proof.
  intros H.
  pose (top := wedge.1.1). pose (mid := wedge.1.2). pose (bot := wedge.2).
  pose (f0 := shadePixel mid (splitVertex top mid bot) bot 5 5).
  destruct (H top mid bot true f0) as (a & b & c & Ha & Hb & Hc & Hbary & _).
  - apply (list_elem_of_lookup_2 _ 7%nat). vm_compute. reflexivity.
  - rewrite !elem_of_cons, elem_of_nil in Ha, Hb, Hc.
    destruct Ha as [->|[->|[->|[]]]], Hb as [->|[->|[->|[]]]], Hc as [->|[->|[->|[]]]];
      vm_compute in Hbary; discriminate Hbary.
Qed.

(** C3, amended: the weights of every filled pixel are computed against
    the three vertices handed to the fill that visits it, and its depth and
    colour are interpolated from those weights and those vertices.  For a
    triangle with a horizontal edge these are the given vertices, sorted
    by y.  Otherwise the rows from [ceil(top.y)] up to, not including,
    [ceil(mid.y)] belong to the upper half and use (top, mid, split); the
    rows after [ceil(mid.y)] up to [ceil(bot.y)] belong to the lower half
    and use (mid, split, bottom), [split] being the synthetic vertex
    interpolated on the long edge. *)
Theorem weights_against_fill_vertices v1 v2 v3 ug f :
  f ∈ drawTriangle_fragments v1 v2 v3 ug ->
  let '(top, mid, bot) := sortByY v1 v2 v3 in
  [top; mid; bot] ≡ₚ [v1; v2; v3] /\
  if eqb (vec4.y (position mid)) (vec4.y (position bot))
     || eqb (vec4.y (position top)) (vec4.y (position mid))
  then fromWeights f top mid bot
  else (ceil_int (vec4.y (position top)) <= fy f < ceil_int (vec4.y (position mid)) /\
        fromWeights f top mid (splitVertex top mid bot)) \/
       (ceil_int (vec4.y (position mid)) < fy f <= ceil_int (vec4.y (position bot)) /\
        fromWeights f mid (splitVertex top mid bot) bot).
Proof.
  unfold drawTriangle_fragments, drawTriangle_fills.
  pose proof (sortByY_perm v1 v2 v3) as Hperm.
  destruct (sortByY v1 v2 v3) as [[top mid] bot].
  intros Hf. split; [exact Hperm|].
  destruct (eqb (vec4.y (position top)) (vec4.y (position bot))); [inversion Hf|].
  destruct (eqb (vec4.y (position mid)) (vec4.y (position bot))); simpl in *.
  - rewrite app_nil_r in Hf. eapply fillFlatBottom_rows_shaded, Hf.
  - destruct (eqb (vec4.y (position top)) (vec4.y (position mid))); simpl in *.
    + rewrite app_nil_r in Hf. eapply fillFlatTop_rows_shaded, Hf.
    + rewrite app_nil_r in Hf. apply elem_of_app in Hf as [Hf|Hf].
      * left. split; [|eapply fillFlatBottom_rows_shaded, Hf].
        unfold fillFlatBottomTriangle_fragments in Hf.
        apply fillFlatBottom_rows_range in Hf. lia.
      * right. split; [|eapply fillFlatTop_rows_shaded, Hf].
        unfold fillFlatTopTriangle_fragments in Hf.
        apply fillFlatTop_rows_range in Hf. lia.
Qed.

(** Pixel (5, 5) of the wedge: below the middle row 3, in the lower half. *)
Lemma weights_against_fill_vertices_witness :
  shadePixel wedge.1.2 (splitVertex wedge.1.1 wedge.1.2 wedge.2) wedge.2 5 5
    ∈ drawTriangle_fragments wedge.1.1 wedge.1.2 wedge.2 true /\
  ((0 <= 5 < 3 /\
    fromWeights (shadePixel wedge.1.2 (splitVertex wedge.1.1 wedge.1.2 wedge.2) wedge.2 5 5)
                wedge.1.1 wedge.1.2 (splitVertex wedge.1.1 wedge.1.2 wedge.2)) \/
   (3 < 5 <= 6 /\
    fromWeights (shadePixel wedge.1.2 (splitVertex wedge.1.1 wedge.1.2 wedge.2) wedge.2 5 5)
                wedge.1.2 (splitVertex wedge.1.1 wedge.1.2 wedge.2) wedge.2)).
Proof.
  assert (H : shadePixel wedge.1.2 (splitVertex wedge.1.1 wedge.1.2 wedge.2) wedge.2 5 5
                ∈ drawTriangle_fragments wedge.1.1 wedge.1.2 wedge.2 true).
  { apply (list_elem_of_lookup_2 _ 7%nat). vm_compute. reflexivity. }
  split; [exact H|].
  pose proof (weights_against_fill_vertices _ _ _ _ _ H) as W.
  exact (proj2 W).
Defined.

End Interpolation.

Module LightingFacts.
Import F32 Lighting.

Lemma max_nonpositive d : leb d zero = true -> is_zero (F32.max d zero) = true.
Proof.
  unfold F32.max, ltb, leb, SFltb, SFleb.
  destruct d as [s|s| |s m e]; simpl; try discriminate; try reflexivity;
    destruct s; simpl; try discriminate; reflexivity.
Qed.

Lemma mul_zero_r k d :
  is_finite k = true -> is_zero d = true -> is_zero (mul k d) = true.
Proof. destruct k, d; simpl; try discriminate; reflexivity. Qed.

Lemma add_zero_r p d : is_zero d = true -> is_zero p = false -> add p d = p.
Proof. destruct p, d; simpl; try discriminate; reflexivity. Qed.

Lemma add_zero_l p q : is_zero p = true -> is_zero q = false -> add p q = q.
Proof. destruct p, q; simpl; try discriminate; reflexivity. Qed.

Lemma add_zeros p q : is_zero p = true -> is_zero q = true -> is_zero (add p q) = true.
Proof. destruct p as [[]| | |], q as [[]| | |]; simpl; try discriminate; reflexivity. Qed.

(** One channel of [finish]: clamp, scale to 255, truncate. *)
Lemma channel_of_zero p :
  is_zero p = true -> to_u8 (mul (glm.clamp p zero one) (of_Z 255)) = 0.
Proof. destruct p as [[]| | |]; try discriminate; intros _; vm_compute; reflexivity. Qed.

(** Adding a zero term on either side of a sum changes no channel. *)
Lemma channel_drop_zero_r p d :
  is_zero d = true ->
  to_u8 (mul (glm.clamp (add p d) zero one) (of_Z 255))
  = to_u8 (mul (glm.clamp p zero one) (of_Z 255)).
Proof.
  intros Hd. destruct (is_zero p) eqn:Hp.
  - now rewrite !channel_of_zero by auto using add_zeros.
  - now rewrite add_zero_r.
Qed.

Lemma channel_drop_zero_mid p d q :
  is_zero d = true ->
  to_u8 (mul (glm.clamp (add (add p d) q) zero one) (of_Z 255))
  = to_u8 (mul (glm.clamp (add p q) zero one) (of_Z 255)).
Proof.
  intros Hd. destruct (is_zero p) eqn:Hp.
  - destruct (is_zero q) eqn:Hq.
    + now rewrite !channel_of_zero by auto using add_zeros.
    + now rewrite !add_zero_l by auto using add_zeros.
  - now rewrite (add_zero_r p d).
Qed.

Lemma finish_drop_middle a d s :
  isZero3 d -> Shade.finish (glm.add3 (glm.add3 a d) s) = Shade.finish (glm.add3 a s).
Proof.
  intros (Hx & Hy & Hz). unfold Shade.finish, Shade.vec3ToColor, glm.clamp3, glm.add3. simpl.
  now rewrite !channel_drop_zero_mid.
Qed.

Lemma finish_drop_last a s :
  isZero3 s -> Shade.finish (glm.add3 a s) = Shade.finish a.
Proof.
  intros (Hx & Hy & Hz). unfold Shade.finish, Shade.vec3ToColor, glm.clamp3, glm.add3. simpl.
  now rewrite !channel_drop_zero_r.
Qed.

Lemma scale3_zero k d : isFinite3 k -> is_zero d = true -> isZero3 (glm.scale3 k d).
Proof.
  intros (Hx & Hy & Hz) Hd. unfold isZero3, glm.scale3. simpl.
  auto using mul_zero_r.
Qed.

Lemma powCeil_zero_base : powZeroBase powCeil.
Proof.
  intros base y Hb. unfold powCeil.
  destruct y as [[]|[]| |[] m e]; try discriminate; intros _.
  - destruct base; try discriminate. reflexivity.
  - unfold ceilZ.
    assert (Hn : 0 < (if 0 <=? e then Z.pos m * 2 ^ e else - (- Z.pos m / 2 ^ (- e)))).
    { destruct (Z.leb_spec 0 e).
      - apply Z.mul_pos_pos; [lia|]. apply Z.pow_pos_nonneg; lia.
      - assert (0 < 2 ^ (- e)) by (apply Z.pow_pos_nonneg; lia).
        assert (- Z.pos m / 2 ^ (- e) < 0); [|lia].
        apply Z.div_lt_upper_bound; lia. }
    destruct (Z.to_nat _) as [|k] eqn:Ek; [lia|].
    simpl. clear Ek.
    assert (Hfin : is_finite (Nat.iter k (mul base) one) = true).
    { induction k as [|k IH]; [reflexivity|]. simpl.
      destruct base; try discriminate. simpl.
      destruct (Nat.iter k _ _); try discriminate; reflexivity. }
    destruct base; try discriminate.
    destruct (Nat.iter k _ _); try discriminate; reflexivity.
Qed.

(** C5, as stated, fails.  Lit from behind ([dot(N, L) = -1]), with light
    colour 2^127 and diffuse reflectance 2 in the red channel, the product
    overflows to infinity and the diffuse term is [inf * 0], a NaN. *)
Lemma lighting_boundary_overflows : ~ lightingBoundary.
Proof.
  intros H.
  destruct (H powCeil powCeil_zero_base origin up origin behind glossy) as ((Hx & _) & _).
  - vm_compute. reflexivity.
  - vm_compute. reflexivity.
  - vm_compute in Hx. discriminate Hx.
Qed.

(** C5, amended: for a material of positive shininess, and a [pow] that
    maps a zero base to zero, whenever the products [light.color *
    material.diffuse] are finite and [dot(N, L) <= 0], the diffuse term is
    zero in every component and the shaded colour is that of ambient plus
    specular alone; whenever the products [light.color * material.specular]
    are finite and [dot(N, H) <= 0], the specular term is zero in every
    component and the shaded colour is that of ambient plus diffuse alone;
    and the ambient term is [light.ambient * material.ambient] whatever
    the positions and the normal. *)
Theorem lighting_boundary_finite powf pos normal viewPos light material :
  powZeroBase powf ->
  ltb zero (Material.shininess material) = true ->
  (isFinite3 (glm.mul3 (Light.color light) (Material.diffuse material)) ->
   leb (glm.dot (norm normal) (lightDir light pos)) zero = true ->
     isZero3 (Shade.calculateDiffuse (lightDir light pos) (norm normal) light material) /\
     Shade.computeGouraudShading powf pos normal viewPos light material
       = Shade.finish (glm.add3 (Shade.calculateAmbient light material)
            (Shade.calculateSpecular powf (lightDir light pos) (norm normal)
                                     (viewDir viewPos pos) light material)) /\
     Shade.computePhongShading powf pos normal viewPos light material
       = Shade.computeGouraudShading powf pos normal viewPos light material) /\
  (isFinite3 (glm.mul3 (Light.color light) (Material.specular material)) ->
   leb (glm.dot (norm normal) (halfwayDir light viewPos pos)) zero = true ->
     isZero3 (Shade.calculateSpecular powf (lightDir light pos) (norm normal)
                                      (viewDir viewPos pos) light material) /\
     Shade.computeGouraudShading powf pos normal viewPos light material
       = Shade.finish (glm.add3 (Shade.calculateAmbient light material)
            (Shade.calculateDiffuse (lightDir light pos) (norm normal) light material))) /\
  Shade.calculateAmbient light material
    = glm.mul3 (Light.ambient light) (Material.ambient material).
Proof.
  intros Hpow Hshiny. split; [|split; [|reflexivity]].
  - intros Hfin Hdot.
    assert (Hz : isZero3 (Shade.calculateDiffuse (lightDir light pos) (norm normal)
                            light material)).
    { unfold Shade.calculateDiffuse. apply scale3_zero; [exact Hfin|].
      apply max_nonpositive, Hdot. }
    split; [exact Hz|]. split; [|reflexivity].
    unfold Shade.computeGouraudShading. cbv zeta.
    apply finish_drop_middle, Hz.
  - intros Hfin Hdot.
    assert (Hz : isZero3 (Shade.calculateSpecular powf (lightDir light pos) (norm normal)
                            (viewDir viewPos pos) light material)).
    { unfold Shade.calculateSpecular. apply scale3_zero; [exact Hfin|].
      apply Hpow; [|exact Hshiny]. apply max_nonpositive, Hdot. }
    split; [exact Hz|].
    unfold Shade.computeGouraudShading. cbv zeta.
    apply finish_drop_last, Hz.
Qed.

(** The default white light behind a matte surface, the viewer behind it
    too: both dot products are -1. *)
Lemma lighting_boundary_finite_witness :
  powZeroBase powCeil /\
  ltb zero (Material.shininess matte) = true /\
  isFinite3 (glm.mul3 (Light.color white) (Material.diffuse matte)) /\
  leb (glm.dot (norm up) (lightDir white origin)) zero = true /\
  isFinite3 (glm.mul3 (Light.color white) (Material.specular matte)) /\
  leb (glm.dot (norm up) (halfwayDir white (vec3.mk zero zero (of_Z (-5))) origin)) zero = true /\
  isZero3 (Shade.calculateDiffuse (lightDir white origin) (norm up) white matte) /\
  isZero3 (Shade.calculateSpecular powCeil (lightDir white origin) (norm up)
             (viewDir (vec3.mk zero zero (of_Z (-5))) origin) white matte) /\
  Shade.calculateAmbient white matte
    = glm.mul3 (Light.ambient white) (Material.ambient matte).
Proof.
  assert (H1 : ltb zero (Material.shininess matte) = true) by (vm_compute; reflexivity).
  assert (H2 : isFinite3 (glm.mul3 (Light.color white) (Material.diffuse matte)))
    by (vm_compute; auto).
  assert (H3 : leb (glm.dot (norm up) (lightDir white origin)) zero = true)
    by (vm_compute; reflexivity).
  assert (H4 : isFinite3 (glm.mul3 (Light.color white) (Material.specular matte)))
    by (vm_compute; auto).
  assert (H5 : leb (glm.dot (norm up)
                      (halfwayDir white (vec3.mk zero zero (of_Z (-5))) origin)) zero = true)
    by (vm_compute; reflexivity).
  destruct (lighting_boundary_finite powCeil origin up (vec3.mk zero zero (of_Z (-5)))
              white matte powCeil_zero_base H1) as (Hd & Hs & Ha).
  split; [exact powCeil_zero_base|]. split; [exact H1|]. split; [exact H2|].
  split; [exact H3|]. split; [exact H4|]. split; [exact H5|].
  split; [exact (proj1 (Hd H2 H3))|]. split; [exact (proj1 (Hs H4 H5))|exact Ha].
Defined.

End LightingFacts.

(** * binary32 subtraction: unequal numbers have a nonzero difference *)

Module F32Sub.
Import F32.

Lemma digits2_pos_bounds m :
  2 ^ (Z.pos (digits2_pos m) - 1) <= Z.pos m < 2 ^ Z.pos (digits2_pos m).
Proof.
  assert (Hstep : forall d, 0 < d -> 2 ^ d = 2 * 2 ^ (d - 1)).
  { intros d Hd. rewrite <- Z.pow_succ_r by lia. f_equal. lia. }
  induction m as [m IH|m IH|]; simpl digits2_pos.
  - rewrite (Pos2Z.inj_succ (digits2_pos m)), (Pos2Z.inj_xI m).
    set (d := Z.pos (digits2_pos m)) in *.
    replace (Z.succ d - 1) with d by lia.
    pose proof (Hstep d ltac:(lia)). pose proof (Hstep (Z.succ d) ltac:(lia)) as H1.
    replace (Z.succ d - 1) with d in H1 by lia. lia.
  - rewrite (Pos2Z.inj_succ (digits2_pos m)), (Pos2Z.inj_xO m).
    set (d := Z.pos (digits2_pos m)) in *.
    replace (Z.succ d - 1) with d by lia.
    pose proof (Hstep d ltac:(lia)). pose proof (Hstep (Z.succ d) ltac:(lia)) as H1.
    replace (Z.succ d - 1) with d in H1 by lia. lia.
  - simpl. lia.
Qed.

Lemma shr_1_m mrs : 0 <= shr_m mrs -> shr_m (shr_1 mrs) = shr_m mrs / 2.
Proof.
  destruct mrs as [m r s]. cbn [shr_m]. intros Hm.
  destruct m as [|[p|p|]|p]; cbn [shr_1 shr_m]; try lia; try reflexivity.
  - apply Z.div_unique with 1; lia.
  - apply Z.div_unique with 0; lia.
Qed.

Lemma pow2_xO n : 2 ^ Z.pos n~0 = 2 ^ Z.pos n * 2 ^ Z.pos n.
Proof. rewrite <- Z.pow_add_r by lia. f_equal. lia. Qed.

Lemma pow2_xI n : 2 ^ Z.pos n~1 = 2 * (2 ^ Z.pos n * 2 ^ Z.pos n).
Proof.
  rewrite <- Z.pow_add_r, <- Z.pow_succ_r by lia. f_equal. lia.
Qed.

Lemma iter_pos_shr_1_m n mrs :
  0 <= shr_m mrs -> shr_m (SpecFloat.iter_pos shr_1 n mrs) = shr_m mrs / 2 ^ Z.pos n.
Proof.
  revert mrs. induction n as [n IH|n IH|]; intros mrs Hm; simpl SpecFloat.iter_pos.
  - assert (Hp : 0 < 2 ^ Z.pos n) by (apply Z.pow_pos_nonneg; lia).
    assert (H1 : 0 <= shr_m (shr_1 mrs)) by (rewrite shr_1_m by lia; apply Z.div_pos; lia).
    assert (H2 : 0 <= shr_m (SpecFloat.iter_pos shr_1 n (shr_1 mrs)))
      by (rewrite IH by lia; apply Z.div_pos; lia).
    rewrite (IH _ H2), (IH _ H1), shr_1_m by lia.
    rewrite pow2_xI, !Z.div_div by lia. reflexivity.
  - assert (Hp : 0 < 2 ^ Z.pos n) by (apply Z.pow_pos_nonneg; lia).
    assert (H2 : 0 <= shr_m (SpecFloat.iter_pos shr_1 n mrs))
      by (rewrite IH by lia; apply Z.div_pos; lia).
    rewrite (IH _ H2), (IH _ Hm).
    rewrite pow2_xO, !Z.div_div by lia. reflexivity.
  - rewrite shr_1_m by lia. reflexivity.
Qed.

Lemma shr_record_of_loc_m m l : shr_m (shr_record_of_loc m l) = m.
Proof. destruct l as [|[]]; reflexivity. Qed.

(** A positive mantissa at an exponent no smaller than [emin] is still
    positive after the truncation step of rounding. *)
Lemma shr_fexp_positive m e l :
  emin prec emax <= e ->
  0 < shr_m (shr_fexp prec emax (Z.pos m) e l).1 /\
  emin prec emax <= (shr_fexp prec emax (Z.pos m) e l).2.
Proof.
  intros He. unfold shr_fexp, shr. simpl Zdigits2.
  pose proof (digits2_pos_bounds m) as Hd.
  unfold emin, prec, emax in *. unfold fexp, emin.
  destruct (Z.max (Z.pos (digits2_pos m) + e - 24) (3 - 128 - 24) - e) as [|p|p] eqn:En;
    simpl; rewrite ?shr_record_of_loc_m; try lia.
  rewrite iter_pos_shr_1_m by (rewrite shr_record_of_loc_m; lia).
  rewrite shr_record_of_loc_m. split; [|lia].
  assert (Hp : Z.pos p <= Z.pos (digits2_pos m) - 1) by lia.
  assert (2 ^ Z.pos p <= 2 ^ (Z.pos (digits2_pos m) - 1)) by (apply Z.pow_le_mono_r; lia).
  apply Z.div_str_pos. split; [apply Z.pow_pos_nonneg; lia|lia].
Qed.

Lemma round_nearest_even_positive m l : 0 < m -> 0 < round_nearest_even m l.
Proof. intros Hm. destruct l as [|[]]; simpl; try lia. destruct (Z.even m); lia. Qed.

Lemma binary_round_aux_nonzero s m e l :
  emin prec emax <= e -> is_zero (binary_round_aux prec emax s (Z.pos m) e l) = false.
Proof.
  intros He. unfold binary_round_aux.
  pose proof (shr_fexp_positive m e l He) as [Hm1 He1].
  destruct (shr_fexp prec emax (Z.pos m) e l) as [mrs1 e1]. simpl in Hm1, He1.
  pose proof (round_nearest_even_positive (shr_m mrs1) (loc_of_shr_record mrs1) Hm1) as Hr.
  destruct (round_nearest_even (shr_m mrs1) (loc_of_shr_record mrs1)) as [|m1|m1]; try lia.
  pose proof (shr_fexp_positive m1 e1 loc_Exact He1) as [Hm2 _].
  destruct (shr_fexp prec emax (Z.pos m1) e1 loc_Exact) as [mrs2 e2]. simpl in Hm2.
  destruct (shr_m mrs2) as [|m2|m2]; try lia.
  now destruct (e2 <=? emax - prec).
Qed.

Lemma binary_round_nonzero s m e :
  emin prec emax <= e -> is_zero (binary_round prec emax s m e) = false.
Proof.
  intros He. unfold binary_round, shl_align.
  destruct (fexp prec emax (Z.pos (digits2_pos m) + e) - e) as [|p|p] eqn:Ed;
    try (apply binary_round_aux_nonzero; exact He).
  apply binary_round_aux_nonzero.
  unfold fexp, emin, prec, emax in *. lia.
Qed.

Lemma iter_xO_value m d : Z.pos (Pos.iter xO m d) = Z.pos m * 2 ^ Z.pos d.
Proof.
  induction d as [|d IH] using Pos.peano_ind.
  - simpl. lia.
  - rewrite Pos.iter_succ, Pos2Z.inj_xO, IH, Pos2Z.inj_succ, Z.pow_succ_r by lia. lia.
Qed.

Lemma iter_xO_digits m d :
  Z.pos (digits2_pos (Pos.iter xO m d)) = Z.pos (digits2_pos m) + Z.pos d.
Proof.
  induction d as [|d IH] using Pos.peano_ind.
  - simpl. lia.
  - rewrite Pos.iter_succ. simpl digits2_pos. rewrite Pos2Z.inj_succ, IH. lia.
Qed.

(** What validity says of a finite binary32: at most 24 digits, exponent
    at least -149, and full 24 digits above the minimal exponent. *)
Lemma valid_finite s m e :
  valid (S754_finite s m e) = true ->
  -149 <= e /\ Z.pos (digits2_pos m) <= 24 /\ (-149 < e -> Z.pos (digits2_pos m) = 24).
Proof.
  unfold valid, valid_binary, bounded, canonical_mantissa, fexp, emin, prec, emax.
  intros [H _]%andb_true_iff. apply Z.eqb_eq in H. lia.
Qed.

Lemma shl_align_down m e e' :
  e' <= e ->
  Z.pos (shl_align m e e').1 = Z.pos m * 2 ^ (e - e') /\
  Z.pos (digits2_pos (shl_align m e e').1) = Z.pos (digits2_pos m) + (e - e').
Proof.
  intros He. unfold shl_align.
  destruct (e' - e) as [|p|p] eqn:Ed; try lia.
  - replace (e - e') with 0 by lia. simpl. lia.
  - replace (e - e') with (Z.pos p) by lia. simpl fst.
    now rewrite iter_xO_value, iter_xO_digits.
Qed.

(** Two valid finite numbers whose difference rounds to zero are one and
    the same number. *)
Lemma sub_finite_zero sa ma ea sb mb eb :
  valid (S754_finite sa ma ea) = true -> valid (S754_finite sb mb eb) = true ->
  is_zero (sub (S754_finite sb mb eb) (S754_finite sa ma ea)) = true ->
  S754_finite sa ma ea = S754_finite sb mb eb.
Proof.
  intros Ha%valid_finite Hb%valid_finite.
  unfold sub, SFsub. cbv zeta.
  pose proof (shl_align_down ma ea (Z.min eb ea) ltac:(lia)) as [Hva Hda].
  pose proof (shl_align_down mb eb (Z.min eb ea) ltac:(lia)) as [Hvb Hdb].
  set (A := (shl_align ma ea (Z.min eb ea)).1) in *.
  set (B := (shl_align mb eb (Z.min eb ea)).1) in *.
  unfold binary_normalize.
  destruct (cond_Zopp sb (Z.pos B) - cond_Zopp sa (Z.pos A)) as [|p|p] eqn:ED.
  - intros _.
    assert (sa = sb /\ A = B) as [-> HAB].
    { destruct sa, sb; simpl in ED; try lia; split; auto; lia. }
    rewrite <- HAB in *.
    assert (ea = eb) as ->.
    { destruct (Z.lt_trichotomy ea eb) as [Hlt|[Heq|Hgt]]; [|exact Heq|].
      - rewrite Z.min_r in Hda, Hdb by lia. lia.
      - rewrite Z.min_l in Hda, Hdb by lia. lia. }
    rewrite Z.min_id, Z.sub_diag in Hva, Hvb. f_equal. lia.
  - intros H. rewrite binary_round_nonzero in H; [discriminate|].
    unfold emin, prec, emax. lia.
  - intros H. rewrite binary_round_nonzero in H; [discriminate|].
    unfold emin, prec, emax. lia.
Qed.

(** In general: the two numbers are identical, or both are zeros. *)
Lemma sub_zero_inv p q :
  valid p = true -> valid q = true -> is_zero (sub q p) = true ->
  p = q \/ (is_zero p = true /\ is_zero q = true).
Proof.
  intros Hp Hq.
  destruct p as [sa|sa| |sa ma ea], q as [sb|sb| |sb mb eb];
    try (simpl; discriminate); try (destruct sa, sb; simpl; discriminate).
  - intros _. right. auto.
  - intros H. left. now apply sub_finite_zero.
Qed.

Lemma compare_zero_l p q r :
  is_zero p = true -> is_zero q = true -> SFcompare p r = SFcompare q r.
Proof. destruct p, q; try discriminate. intros _ _. now destruct r. Qed.

Lemma compare_zero_r p q r :
  is_zero p = true -> is_zero q = true -> SFcompare r p = SFcompare r q.
Proof. destruct p, q; try discriminate. intros _ _. now destruct r. Qed.

(** A bound that one number exceeds and the other does not tells them
    apart, and then neither difference is zero. *)
Lemma differ_above c p q :
  valid p = true -> valid q = true ->
  ltb c p = true -> ltb c q = false ->
  is_zero (sub q p) = false /\ is_zero (sub p q) = false.
Proof.
  intros Hp Hq H1 H2. split.
  - destruct (is_zero (sub q p)) eqn:E; [|reflexivity].
    destruct (sub_zero_inv p q Hp Hq E) as [->|[Zp Zq]]; [congruence|].
    unfold ltb, SFltb in *. rewrite (compare_zero_r p q c Zp Zq) in H1. congruence.
  - destruct (is_zero (sub p q)) eqn:E; [|reflexivity].
    destruct (sub_zero_inv q p Hq Hp E) as [->|[Zq Zp]]; [congruence|].
    unfold ltb, SFltb in *. rewrite (compare_zero_r p q c Zp Zq) in H1. congruence.
Qed.

Lemma differ_below c p q :
  valid p = true -> valid q = true ->
  ltb p c = true -> ltb q c = false ->
  is_zero (sub q p) = false /\ is_zero (sub p q) = false.
Proof.
  intros Hp Hq H1 H2. split.
  - destruct (is_zero (sub q p)) eqn:E; [|reflexivity].
    destruct (sub_zero_inv p q Hp Hq E) as [->|[Zp Zq]]; [congruence|].
    unfold ltb, SFltb in *. rewrite (compare_zero_l p q c Zp Zq) in H1. congruence.
  - destruct (is_zero (sub p q)) eqn:E; [|reflexivity].
    destruct (sub_zero_inv q p Hq Hp E) as [->|[Zq Zp]]; [congruence|].
    unfold ltb, SFltb in *. rewrite (compare_zero_l p q c Zp Zq) in H1. congruence.
Qed.

End F32Sub.

(** * binary32 arithmetic returns well-formed numbers *)

Module F32Valid.
Import F32 F32Sub.

Lemma pow2_pos k : 0 <= k -> 0 < 2 ^ k.
Proof. intros. apply Z.pow_pos_nonneg; lia. Qed.

(** The number of binary digits is determined by the two powers of two
    that enclose the number. *)
Lemma digits2_pos_unique m k :
  2 ^ (k - 1) <= Z.pos m < 2 ^ k -> Z.pos (digits2_pos m) = k.
Proof.
  intros [Hlo Hhi]. pose proof (digits2_pos_bounds m) as [Dlo Dhi].
  set (d := Z.pos (digits2_pos m)) in *.
  assert (0 < k).
  { destruct (Z.lt_ge_cases 0 k); [assumption|]. exfalso.
    destruct (Z.eq_dec k 0) as [->|Hne]; [simpl in Hhi; lia|].
    rewrite Z.pow_neg_r in Hhi by lia. lia. }
  destruct (Z.lt_trichotomy d k) as [Hlt|[Heq|Hgt]]; [|exact Heq|].
  - assert (2 ^ d <= 2 ^ (k - 1)) by (apply Z.pow_le_mono_r; lia). lia.
  - assert (2 ^ k <= 2 ^ (d - 1)) by (apply Z.pow_le_mono_r; lia). lia.
Qed.

Lemma digits2_pos_lower m k : 2 ^ (k - 1) <= Z.pos m -> k <= Z.pos (digits2_pos m).
Proof.
  intros Hlo. pose proof (digits2_pos_bounds m) as [_ Dhi].
  destruct (Z.le_gt_cases k (Z.pos (digits2_pos m))); [assumption|].
  assert (2 ^ Z.pos (digits2_pos m) <= 2 ^ (k - 1)) by (apply Z.pow_le_mono_r; lia). lia.
Qed.

Lemma digits2_pos_mono m n :
  Z.pos m <= Z.pos n -> Z.pos (digits2_pos m) <= Z.pos (digits2_pos n).
Proof.
  intros H. apply digits2_pos_lower. pose proof (digits2_pos_bounds m). lia.
Qed.

(** Dropping [n] low bits of a number of more than [n] digits. *)
Lemma digits_div_pow2 m n q :
  0 <= n -> Z.pos m / 2 ^ n = Z.pos q ->
  Z.pos (digits2_pos q) = Z.pos (digits2_pos m) - n.
Proof.
  intros Hn Hq. pose proof (digits2_pos_bounds m) as [Dlo Dhi].
  set (d := Z.pos (digits2_pos m)) in *.
  pose proof (pow2_pos n Hn) as Hp.
  assert (Hdn : n < d).
  { destruct (Z.lt_ge_cases n d); [assumption|].
    assert (2 ^ d <= 2 ^ n) by (apply Z.pow_le_mono_r; lia).
    rewrite Z.div_small in Hq by lia. lia. }
  apply digits2_pos_unique. rewrite <- Hq. split.
  - apply Z.div_le_lower_bound; [lia|].
    rewrite <- Z.pow_add_r by lia. replace (n + (d - n - 1)) with (d - 1) by lia. lia.
  - apply Z.div_lt_upper_bound; [lia|].
    rewrite <- Z.pow_add_r by lia. replace (n + (d - n)) with d by lia. lia.
Qed.

Lemma fexp_mono a b : a <= b -> fexp prec emax a <= fexp prec emax b.
Proof. unfold fexp, emin, prec, emax. lia. Qed.

(** The truncation step, when it does not have to shift left: the
    exponent becomes [fexp] of the magnitude, and what is left of the
    mantissa either is zero or has kept the magnitude. *)
Lemma shr_fexp_spec m e l :
  0 <= m -> e <= fexp prec emax (Zdigits2 m + e) ->
  let r := shr_fexp prec emax m e l in
  r.2 = fexp prec emax (Zdigits2 m + e) /\
  0 <= shr_m r.1 /\
  (0 < shr_m r.1 -> Zdigits2 (shr_m r.1) + r.2 = Zdigits2 m + e) /\
  (shr_m r.1 = 0 -> r.2 = emin prec emax).
Proof.
  intros Hm He. unfold shr_fexp, shr.
  destruct (fexp prec emax (Zdigits2 m + e) - e) as [|n|n] eqn:En; try lia.
  - simpl. rewrite shr_record_of_loc_m. split; [lia|]. split; [lia|]. split; [lia|].
    intros ->. simpl in *. unfold fexp, emin, prec, emax in *. lia.
  - cbn [fst snd]. rewrite iter_pos_shr_1_m by (rewrite shr_record_of_loc_m; lia).
    rewrite shr_record_of_loc_m.
    pose proof (pow2_pos (Z.pos n) ltac:(lia)) as Hp.
    split; [lia|]. split; [apply Z.div_pos; lia|]. split.
    + intros Hq. destruct m as [|m|m]; try lia; [rewrite Z.div_0_l in Hq; lia|].
      destruct (Z.pos m / 2 ^ Z.pos n) as [|q|q] eqn:Eq; try lia.
      simpl Zdigits2. rewrite (digits_div_pow2 m (Z.pos n) q) by (lia || assumption). lia.
    + intros Hq. destruct m as [|m|m]; try lia.
      * simpl in *. unfold fexp, emin, prec, emax in *. lia.
      * pose proof (digits2_pos_bounds m) as [Dlo Dhi]. simpl Zdigits2 in *.
        assert (Z.pos m < 2 ^ Z.pos n).
        { destruct (Z.lt_ge_cases (Z.pos m) (2 ^ Z.pos n)); [assumption|].
          assert (1 <= Z.pos m / 2 ^ Z.pos n) by (apply Z.div_le_lower_bound; lia). lia. }
        assert (Z.pos (digits2_pos m) <= Z.pos n).
        { destruct (Z.le_gt_cases (Z.pos (digits2_pos m)) (Z.pos n)); [assumption|].
          assert (2 ^ Z.pos n <= 2 ^ (Z.pos (digits2_pos m) - 1))
            by (apply Z.pow_le_mono_r; lia). lia. }
        unfold fexp, emin, prec, emax in *. lia.
Qed.

Lemma round_nearest_even_range m l :
  round_nearest_even m l = m \/ round_nearest_even m l = m + 1.
Proof. destruct l as [|[]]; simpl; auto. destruct (Z.even m); auto. Qed.

(** Rounding yields a well-formed number whenever it starts from an
    exponent that does not exceed the one the magnitude calls for. *)
Lemma binary_round_aux_valid s m e l :
  0 <= m -> e <= fexp prec emax (Zdigits2 m + e) ->
  valid (binary_round_aux prec emax s m e l) = true.
Proof.
  intros Hm He. unfold binary_round_aux.
  pose proof (shr_fexp_spec m e l Hm He) as (E1 & P1 & D1 & Z1).
  destruct (shr_fexp prec emax m e l) as [mrs1 e1]. cbn [fst snd] in *.
  set (m2 := round_nearest_even (shr_m mrs1) (loc_of_shr_record mrs1)).
  assert (Hm2 : m2 = shr_m mrs1 \/ m2 = shr_m mrs1 + 1) by apply round_nearest_even_range.
  assert (He2 : e1 <= fexp prec emax (Zdigits2 m2 + e1)).
  { destruct (Z.eq_dec (shr_m mrs1) 0) as [Hz|Hnz].
    - specialize (Z1 Hz). destruct Hm2 as [->| ->]; rewrite Hz; simpl;
        unfold fexp, emin, prec, emax in *; lia.
    - specialize (D1 ltac:(lia)).
      assert (Zdigits2 (shr_m mrs1) <= Zdigits2 m2).
      { destruct (shr_m mrs1) as [|p|p] eqn:Ep; try lia.
        destruct m2 as [|q|q] eqn:Eq; try lia. simpl. apply digits2_pos_mono. lia. }
      transitivity (fexp prec emax (Zdigits2 (shr_m mrs1) + e1)).
      + rewrite D1, E1. lia.
      + apply fexp_mono. lia. }
  pose proof (shr_fexp_spec m2 e1 loc_Exact ltac:(lia) He2) as (E3 & P3 & D3 & _).
  destruct (shr_fexp prec emax m2 e1 loc_Exact) as [mrs3 e3]. cbn [fst snd] in *.
  destruct (shr_m mrs3) as [|m3|m3] eqn:Em3; try reflexivity; try lia.
  destruct (e3 <=? emax - prec) eqn:Hle; [|reflexivity].
  unfold valid, valid_binary, bounded, canonical_mantissa.
  rewrite Hle, andb_true_r. apply Z.eqb_eq.
  specialize (D3 ltac:(lia)). simpl Zdigits2 in D3. rewrite D3. lia.
Qed.

Lemma binary_round_valid s m e : valid (binary_round prec emax s m e) = true.
Proof.
  unfold binary_round, shl_align.
  destruct (fexp prec emax (Z.pos (digits2_pos m) + e) - e) as [|p|p] eqn:Ed.
  - apply binary_round_aux_valid; [lia|]. simpl Zdigits2. lia.
  - apply binary_round_aux_valid; [lia|]. simpl Zdigits2. lia.
  - apply binary_round_aux_valid; [lia|]. simpl Zdigits2.
    rewrite iter_xO_digits.
    replace (Z.pos (digits2_pos m) + Z.pos p + fexp prec emax (Z.pos (digits2_pos m) + e))
      with (Z.pos (digits2_pos m) + e) by lia. lia.
Qed.

Lemma binary_normalize_valid m e sz : valid (binary_normalize prec emax m e sz) = true.
Proof. destruct m; simpl; auto using binary_round_valid. Qed.

Lemma of_Z_valid n : valid (of_Z n) = true.
Proof. apply binary_normalize_valid. Qed.

Lemma add_valid p q : valid p = true -> valid q = true -> valid (add p q) = true.
Proof.
  intros Hp Hq. destruct p as [[]|[]| |sp mp ep], q as [[]|[]| |sq mq eq];
    try reflexivity; try assumption.
  apply binary_normalize_valid.
Qed.

Lemma sub_valid p q : valid p = true -> valid q = true -> valid (sub p q) = true.
Proof.
  intros Hp Hq. destruct p as [[]|[]| |sp mp ep], q as [[]|[]| |sq mq eq];
    try reflexivity; try assumption.
  apply binary_normalize_valid.
Qed.

Lemma mul_valid p q : valid p = true -> valid q = true -> valid (mul p q) = true.
Proof.
  intros Hp Hq. destruct p as [sp|sp| |sp mp ep], q as [sq|sq| |sq mq eq];
    try reflexivity.
  apply valid_finite in Hp as (Hp1 & Hp2 & Hp3), Hq as (Hq1 & Hq2 & Hq3).
  unfold mul, SFmul. apply binary_round_aux_valid; [lia|]. simpl Zdigits2.
  pose proof (digits2_pos_bounds mp) as [Lp _].
  pose proof (digits2_pos_bounds mq) as [Lq _].
  assert (Hd : Z.pos (digits2_pos mp) + Z.pos (digits2_pos mq) - 1
               <= Z.pos (digits2_pos (mp * mq))).
  { apply digits2_pos_lower. rewrite Pos2Z.inj_mul.
    replace (Z.pos (digits2_pos mp) + Z.pos (digits2_pos mq) - 1 - 1)
      with ((Z.pos (digits2_pos mp) - 1) + (Z.pos (digits2_pos mq) - 1)) by lia.
    rewrite Z.pow_add_r by lia.
    apply Z.mul_le_mono_nonneg; try lia; apply Z.lt_le_incl, pow2_pos; lia. }
  unfold fexp, emin, prec, emax. lia.
Qed.

Lemma div_valid p q : valid p = true -> valid q = true -> valid (div p q) = true.
Proof.
  intros Hp Hq. destruct p as [sp|sp| |sp mp ep], q as [sq|sq| |sq mq eq];
    try reflexivity.
  unfold div, SFdiv, SFdiv_core_binary. simpl Zdigits2.
  set (d1 := Z.pos (digits2_pos mp)). set (d2 := Z.pos (digits2_pos mq)).
  set (e' := Z.min (fexp prec emax (d1 + ep - (d2 + eq))) (ep - eq)).
  set (m' := match ep - eq - e' with
             | 0 => Z.pos mp
             | Z.pos _ => Z.shiftl (Z.pos mp) (ep - eq - e')
             | Z.neg _ => 0
             end).
  assert (Hs : 0 <= ep - eq - e') by (unfold e'; lia).
  assert (Hm' : m' = Z.pos mp * 2 ^ (ep - eq - e')).
  { unfold m'. destruct (ep - eq - e') as [|s|s] eqn:Es; try lia.
    rewrite Z.shiftl_mul_pow2 by lia. reflexivity. }
  pose proof (Z.div_eucl_eq m' (Z.pos mq) ltac:(lia)) as Heq.
  pose proof (Z.mod_pos_bound m' (Z.pos mq) ltac:(lia)) as Hr.
  unfold Z.modulo in Hr.
  destruct (Z.div_eucl m' (Z.pos mq)) as [q r] eqn:Edm.
  pose proof (pow2_pos (ep - eq - e') Hs) as Hp2.
  pose proof (digits2_pos_bounds mp) as [Lp Up]. fold d1 in Lp, Up.
  pose proof (digits2_pos_bounds mq) as [Lq Uq]. fold d2 in Lq, Uq.
  assert (Hq0 : 0 <= q) by nia.
  apply binary_round_aux_valid; [exact Hq0|].
  destruct (Z.le_gt_cases d2 (d1 + (ep - eq - e') - 1)) as [Hbig|Hsmall].
  - (* the quotient keeps at least d1 + s - d2 digits *)
    assert (Hlow : 2 ^ (d1 + (ep - eq - e') - 1 - d2) <= q).
    { assert (H1 : 2 ^ (d1 - 1) * 2 ^ (ep - eq - e') <= m') by (rewrite Hm'; nia).
      rewrite <- Z.pow_add_r in H1 by lia.
      assert (H2 : 2 ^ (d1 + (ep - eq - e') - 1 - d2) * 2 ^ d2 <= m').
      { rewrite <- Z.pow_add_r by lia.
        replace (d1 + (ep - eq - e') - 1 - d2 + d2) with (d1 - 1 + (ep - eq - e')) by lia.
        exact H1. }
      pose proof (pow2_pos (d1 + (ep - eq - e') - 1 - d2) ltac:(lia)).
      nia. }
    pose proof (pow2_pos (d1 + (ep - eq - e') - 1 - d2) ltac:(lia)) as Hpos.
    destruct q as [|q|q]; [lia| |lia].
    simpl Zdigits2.
    pose proof (digits2_pos_lower q (d1 + (ep - eq - e') - d2)) as Hd.
    replace (d1 + (ep - eq - e') - d2 - 1) with (d1 + (ep - eq - e') - 1 - d2) in Hd by lia.
    specialize (Hd Hlow).
    transitivity (fexp prec emax (d1 + ep - (d2 + eq))); [unfold e'; lia|].
    apply fexp_mono. lia.
  - (* the result lies below the smallest exponent *)
    assert (e' <= -149) by (unfold e' in *; unfold fexp, emin, prec, emax in *; lia).
    unfold fexp, emin, prec, emax. lia.
Qed.

End F32Valid.

Module ClipFacts.
Import F32 Clip ClipScene F32Sub.

Lemma clipLine_loop_unfold fuel rc s done :
  clipLine_loop fuel rc s done =
    match step rc s with
    | Accept => Some (mkResult true s done)
    | Reject => Some (mkResult false s done)
    | Continue s' =>
        match fuel with
        | O => None
        | S fuel' => clipLine_loop fuel' rc s' (S done)
        end
    end.
Proof. destruct fuel; reflexivity. Qed.

(** C6 fails on the code.  On the window [-2^30, -8] x [4, 2^30] the
    segment from (-2^30, 2^30) to (-12, 2) is visible, yet [clipLine]
    never returns: clipping the second endpoint to the bottom edge computes
    x = -2^30 + 2^30 = 0 (the -12 is absorbed by rounding), right of the
    window; clipping that to the right edge computes y = 2^30 - 2^30 = 0,
    below the window; and so on, alternately, for ever.  No amount of fuel
    lets the loop finish. *)
Theorem clipLine_spins :
  leb (xMin window) (xMax window) = true /\
  leb (yMin window) (yMax window) = true /\
  validRect window /\
  validState (init cornerX cornerY lowX lowY window) /\
  forall fuel, clipLine fuel cornerX cornerY lowX lowY window = None.
Proof.
  split; [vm_compute; reflexivity|]. split; [vm_compute; reflexivity|].
  split; [vm_compute; auto|]. split; [vm_compute; auto|]. intros fuel.
  assert (HA : step window spinA = Continue spinB) by (vm_compute; reflexivity).
  assert (HB : step window spinB = Continue spinA) by (vm_compute; reflexivity).
  assert (H0 : step window (init cornerX cornerY lowX lowY window) = Continue spinA)
    by (vm_compute; reflexivity).
  assert (Hspin : forall n done,
            clipLine_loop n window spinA done = None /\
            clipLine_loop n window spinB done = None).
  { induction n as [|n IH]; intros done; rewrite !clipLine_loop_unfold, HA, HB.
    - auto.
    - split; apply IH. }
  unfold clipLine. rewrite clipLine_loop_unfold, H0.
  destruct fuel; [reflexivity|]. apply Hspin.
Qed.

(** Every pass that goes on leaves both outcodes current. *)
Lemma step_codesCurrent rc s s' :
  codesCurrent rc s -> step rc s = Continue s' -> codesCurrent rc s'.
Proof.
  intros [H1 H2]. unfold step.
  destruct (Z.lor (code1 s) (code2 s) =? 0); [discriminate|].
  destruct (negb (Z.land (code1 s) (code2 s) =? 0)); [discriminate|].
  destruct (intersection _ _ _ _ _ _ _) as [x y].
  destruct (codeOut s =? code1 s); intros [= <-]; split; simpl; auto.
Qed.

Lemma init_codesCurrent x1 y1 x2 y2 rc : codesCurrent rc (init x1 y1 x2 y2 rc).
Proof. split; reflexivity. Qed.

Lemma after_codesCurrent n rc s s' :
  codesCurrent rc s -> after n rc s = Some s' -> codesCurrent rc s'.
Proof.
  revert s. induction n as [|n IH]; intros s Hs; simpl.
  - now intros [= <-].
  - destruct (step rc s) as [| |s1] eqn:E; try discriminate.
    apply IH. eapply step_codesCurrent; eauto.
Qed.

Ltac tell_apart :=
  match goal with
  | Ha : SFltb ?c ?p = true, Hb : SFltb ?c ?q = false |- is_zero (sub ?q ?p) = false =>
      apply (differ_above c p q); assumption
  | Ha : SFltb ?c ?p = true, Hb : SFltb ?c ?q = false |- is_zero (sub ?p ?q) = false =>
      apply (differ_above c p q); assumption
  | Ha : SFltb ?p ?c = true, Hb : SFltb ?q ?c = false |- is_zero (sub ?q ?p) = false =>
      apply (differ_below c p q); assumption
  | Ha : SFltb ?p ?c = true, Hb : SFltb ?q ?c = false |- is_zero (sub ?p ?q) = false =>
      apply (differ_below c p q); assumption
  end.

(** One pass, from any state: if the endpoints are well-formed numbers and
    the outcodes are current, the arm taken divides by a nonzero number. *)
Lemma pass_divisor_nonzero rc s s' :
  validState s -> codesCurrent rc s -> step rc s = Continue s' ->
  exists d,
    divisor (arm (codeOut s)) (x1 s) (y1 s) (x2 s) (y2 s) = Some d /\
    is_zero d = false.
Proof.
  intros (Vx1 & Vy1 & Vx2 & Vy2) [H1 H2].
  destruct s as [px1 py1 px2 py2 c1 c2]. simpl in *. subst c1 c2.
  unfold step, codeOut, computeOutCode, gtb, ltb. simpl.
  destruct (SFltb px1 (xMin rc)) eqn:A1; destruct (SFltb (xMax rc) px1) eqn:B1;
  destruct (SFltb py1 (yMin rc)) eqn:C1; destruct (SFltb (yMax rc) py1) eqn:D1;
  destruct (SFltb px2 (xMin rc)) eqn:A2; destruct (SFltb (xMax rc) px2) eqn:B2;
  destruct (SFltb py2 (yMin rc)) eqn:C2; destruct (SFltb (yMax rc) py2) eqn:D2;
  simpl; try discriminate; intros _;
  (eexists; split; [reflexivity|]); tell_apart.
Qed.

(** The endpoints stay well-formed numbers from pass to pass. *)
Lemma intersection_valid a px1 py1 px2 py2 rc :
  validRect rc ->
  valid px1 = true -> valid py1 = true -> valid px2 = true -> valid py2 = true ->
  valid (intersection a px1 py1 px2 py2 rc (S754_nan, S754_nan)).1 = true /\
  valid (intersection a px1 py1 px2 py2 rc (S754_nan, S754_nan)).2 = true.
Proof.
  intros (R1 & R2 & R3 & R4) V1 V2 V3 V4.
  destruct a; simpl; split; auto;
    repeat first [apply F32Valid.add_valid | apply F32Valid.div_valid
                 | apply F32Valid.mul_valid | apply F32Valid.sub_valid | assumption].
Qed.

Lemma step_validState rc s s' :
  validRect rc -> validState s -> step rc s = Continue s' -> validState s'.
Proof.
  intros HR (V1 & V2 & V3 & V4). unfold step.
  destruct (Z.lor (code1 s) (code2 s) =? 0); [discriminate|].
  destruct (negb (Z.land (code1 s) (code2 s) =? 0)); [discriminate|].
  pose proof (intersection_valid (arm (codeOut s)) _ _ _ _ rc HR V1 V2 V3 V4) as [Ix Iy].
  destruct (intersection _ _ _ _ _ _ _) as [x y]. simpl in Ix, Iy.
  destruct (codeOut s =? code1 s); intros [= <-]; repeat split; simpl; auto.
Qed.

Lemma after_validState n rc s s' :
  validRect rc -> validState s -> after n rc s = Some s' -> validState s'.
Proof.
  intros HR. revert s. induction n as [|n IH]; intros s Hs; simpl.
  - now intros [= <-].
  - destruct (step rc s) as [| |s1] eqn:E; try discriminate.
    apply IH. eapply step_validState; eauto.
Qed.

(** C7.  Start [clipLine] on any four binary32 coordinates and any
    binary32 rectangle.  In every pass of its loop that reaches the
    intersection computation (the [n+1]-th, for any [n]) one of the four
    arms is taken, and the number that arm divides by is not zero:
    [y2 - y1] on the TOP and BOTTOM arms, [x2 - x1] on the RIGHT and LEFT
    arms. *)
Theorem clip_divisor_nonzero ax ay bx by_ rc n s s' :
  valid ax = true -> valid ay = true -> valid bx = true -> valid by_ = true ->
  validRect rc ->
  after n rc (init ax ay bx by_ rc) = Some s ->
  step rc s = Continue s' ->
  exists d,
    divisor (arm (codeOut s)) (x1 s) (y1 s) (x2 s) (y2 s) = Some d /\
    is_zero d = false /\
    (arm (codeOut s) = ArmTop \/ arm (codeOut s) = ArmBottom -> d = sub (y2 s) (y1 s)) /\
    (arm (codeOut s) = ArmRight \/ arm (codeOut s) = ArmLeft -> d = sub (x2 s) (x1 s)).
Proof.
  intros V1 V2 V3 V4 HR Hafter Hstep.
  assert (Hv : validState s).
  { eapply after_validState; [exact HR| |exact Hafter]. repeat split; assumption. }
  assert (Hc : codesCurrent rc s).
  { eapply after_codesCurrent; [|exact Hafter]. apply init_codesCurrent. }
  destruct (pass_divisor_nonzero rc s s' Hv Hc Hstep) as (d & Hd & Hz).
  exists d. split; [exact Hd|]. split; [exact Hz|].
  split; intros [E|E]; rewrite E in Hd; simpl in Hd; congruence.
Qed.

(** In the square [0, 10] x [0, 10], the segment from (-5, 5) to (5, 15):
    the first pass takes the LEFT arm and divides by 10, the second takes
    the TOP arm and divides by 5. *)
Lemma clip_divisor_nonzero_witness :
  validRect square /\
  after 1 square (init (of_Z (-5)) (of_Z 5) (of_Z 5) (of_Z 15) square)
    = Some (mkState (of_Z 0) (of_Z 10) (of_Z 5) (of_Z 15) 0 8) /\
  exists d,
    divisor (arm (codeOut (mkState (of_Z 0) (of_Z 10) (of_Z 5) (of_Z 15) 0 8)))
            (of_Z 0) (of_Z 10) (of_Z 5) (of_Z 15) = Some d /\
    is_zero d = false /\
    (arm (codeOut (mkState (of_Z 0) (of_Z 10) (of_Z 5) (of_Z 15) 0 8)) = ArmTop \/
     arm (codeOut (mkState (of_Z 0) (of_Z 10) (of_Z 5) (of_Z 15) 0 8)) = ArmBottom ->
       d = sub (of_Z 15) (of_Z 10)) /\
    (arm (codeOut (mkState (of_Z 0) (of_Z 10) (of_Z 5) (of_Z 15) 0 8)) = ArmRight \/
     arm (codeOut (mkState (of_Z 0) (of_Z 10) (of_Z 5) (of_Z 15) 0 8)) = ArmLeft ->
       d = sub (of_Z 5) (of_Z 0)).
Proof.
  assert (HR : validRect square) by (vm_compute; auto).
  assert (HA : after 1 square (init (of_Z (-5)) (of_Z 5) (of_Z 5) (of_Z 15) square)
               = Some (mkState (of_Z 0) (of_Z 10) (of_Z 5) (of_Z 15) 0 8))
    by (vm_compute; reflexivity).
  split; [exact HR|]. split; [exact HA|].
  refine (clip_divisor_nonzero (of_Z (-5)) (of_Z 5) (of_Z 5) (of_Z 15) square 1 _
            (mkState (of_Z 0) (of_Z 10) (of_Z 0) (of_Z 10) 0 0)
            _ _ _ _ HR HA _); vm_compute; reflexivity.
Defined.

End ClipFacts.

(* ===================================================================== *)
(** * Further properties of the line and circle routines *)
(* ===================================================================== *)

Module Bresenham.
Import Raster BufferFacts RasterFacts.

(** *** The loop of [drawLineLow] *)

(** With [0 <= dy <= dx] and the decision variable within its band, the
    [i]-th pixel lies [i] columns on and [t] rows on, [t] being the
    multiple of [dx] nearest to [dy * i]. *)
Lemma drawLineLow_loop_nth n x y D dx dy yi i p :
  0 <= dy <= dx -> 2 * dy - 2 * dx <= D <= 2 * dy ->
  drawLineLow_loop n x y D dx dy yi !! i = Some p ->
  exists t, p = (x + Z.of_nat i, y + yi * t) /\ 0 <= t <= Z.of_nat i /\
    2 * dy - 2 * dx <= D + 2 * dy * Z.of_nat i - 2 * dx * t <= 2 * dy.
Proof.
  intros Hd. revert x y D i. induction n as [|n IH]; intros x y D i HD; [discriminate|].
  cbn [drawLineLow_loop]. destruct i as [|i].
  - intros [= <-]. exists 0. split; [f_equal; lia|]. lia.
  - rewrite lookup_cons_ne_0 by lia. simpl Init.Nat.pred.
    destruct (Z.ltb_spec 0 D) as [Hpos|Hneg]; intros Hp.
    + apply IH in Hp as (t & -> & Ht & Hband); [|lia].
      exists (t + 1). split; [f_equal; lia|]. lia.
    + apply IH in Hp as (t & -> & Ht & Hband); [|lia].
      exists t. split; [f_equal; lia|]. lia.
Qed.

Lemma drawLineLow_loop_length n x y D dx dy yi :
  length (drawLineLow_loop n x y D dx dy yi) = n.
Proof.
  revert x y D. induction n as [|n IH]; intros x y D; [reflexivity|].
  cbn [drawLineLow_loop]. destruct (0 <? D); simpl; now rewrite IH.
Qed.

(** From one pixel to the next: one column on, and the same row or the
    next one in direction [yi]. *)
Lemma drawLineLow_loop_next n x y D dx dy yi i p q :
  drawLineLow_loop n x y D dx dy yi !! i = Some p ->
  drawLineLow_loop n x y D dx dy yi !! S i = Some q ->
  q.1 = p.1 + 1 /\ (q.2 = p.2 \/ q.2 = p.2 + yi).
Proof.
  revert x y D i. induction n as [|n IH]; intros x y D i; [discriminate|].
  cbn [drawLineLow_loop]. destruct i as [|i].
  - intros [= <-]. rewrite lookup_cons_ne_0 by lia. simpl Init.Nat.pred.
    destruct n as [|n]; [destruct (0 <? D); discriminate|].
    destruct (0 <? D); cbn [drawLineLow_loop]; intros [= <-]; simpl; lia.
  - rewrite !lookup_cons_ne_0 by lia. simpl Init.Nat.pred.
    destruct (0 <? D); apply IH.
Qed.

(** [drawLineHigh] is [drawLineLow] with the two axes exchanged. *)
Lemma drawLineHigh_loop_swap n x y D dx dy xi :
  drawLineHigh_loop n x y D dx dy xi = prod_swap <$> drawLineLow_loop n y x D dy dx xi.
Proof.
  revert x y D. induction n as [|n IH]; intros x y D; [reflexivity|].
  cbn [drawLineHigh_loop drawLineLow_loop].
  destruct (0 <? D); rewrite fmap_cons, IH; reflexivity.
Qed.

Lemma drawLineHigh_pixels_swap x1 y1 x2 y2 :
  drawLineHigh_pixels x1 y1 x2 y2 = prod_swap <$> drawLineLow_pixels y1 x1 y2 x2.
Proof.
  unfold drawLineHigh_pixels, drawLineLow_pixels. cbv zeta.
  destruct (x2 - x1 <? 0); apply drawLineHigh_loop_swap.
Qed.

(** *** [drawLineLow] on a shallow segment running rightwards *)

Section Low.
Variables a1 b1 a2 b2 : Z.
Hypothesis Hright : a1 <= a2.
Hypothesis Hshallow : Z.abs (b2 - b1) <= a2 - a1.

Lemma drawLineLow_pixels_length :
  length (drawLineLow_pixels a1 b1 a2 b2) = Z.to_nat (a2 - a1 + 1).
Proof.
  unfold drawLineLow_pixels. cbv zeta.
  destruct (b2 - b1 <? 0); rewrite drawLineLow_loop_length; lia.
Qed.

Lemma drawLineLow_pixels_nth i p :
  drawLineLow_pixels a1 b1 a2 b2 !! i = Some p ->
  exists t, p = (a1 + Z.of_nat i, b1 + Z.sgn (b2 - b1) * t) /\
    0 <= Z.of_nat i <= a2 - a1 /\ 0 <= t <= Z.abs (b2 - b1) /\
    - (a2 - a1) <= 2 * Z.abs (b2 - b1) * Z.of_nat i - 2 * (a2 - a1) * t <= a2 - a1.
Proof.
  intros Hp.
  assert (Hi : Z.of_nat i <= a2 - a1).
  { apply lookup_lt_Some in Hp. rewrite drawLineLow_pixels_length in Hp. lia. }
  unfold drawLineLow_pixels in Hp. cbv zeta in Hp.
  assert (Hbound : forall t, 0 <= t <= Z.of_nat i ->
            2 * Z.abs (b2 - b1) * Z.of_nat i - 2 * (a2 - a1) * t >= - (a2 - a1) ->
            t <= Z.abs (b2 - b1)).
  { intros t Ht Hlow. destruct (Z.eq_dec (a2 - a1) 0) as [E0|Hne]; [lia|].
    destruct (Z_le_gt_dec t (Z.abs (b2 - b1))) as [?|Hgt]; [assumption|exfalso].
    assert (2 * (a2 - a1) * t >= 2 * (a2 - a1) * (Z.abs (b2 - b1) + 1)) by nia.
    assert (2 * Z.abs (b2 - b1) * Z.of_nat i <= 2 * Z.abs (b2 - b1) * (a2 - a1)) by nia.
    nia. }
  destruct (Z.ltb_spec (b2 - b1) 0) as [Hneg|Hpos].
  - apply drawLineLow_loop_nth in Hp as (t & -> & Ht & Hband); [|lia..].
    replace (Z.abs (b2 - b1)) with (- (b2 - b1)) in * by lia.
    assert (Htb : t <= - (b2 - b1)) by (apply Hbound; lia).
    exists t. split; [|lia]. f_equal.
    replace (Z.sgn (b2 - b1)) with (-1) by lia. lia.
  - apply drawLineLow_loop_nth in Hp as (t & -> & Ht & Hband); [|lia..].
    replace (Z.abs (b2 - b1)) with (b2 - b1) in * by lia.
    assert (Htb : t <= b2 - b1) by (apply Hbound; lia).
    exists t. split; [|lia]. f_equal.
    destruct (Z.eq_dec (b2 - b1) 0) as [E0|Hne].
    + assert (t = 0) by lia. subst t. lia.
    + replace (Z.sgn (b2 - b1)) with 1 by lia. lia.
Qed.

Lemma drawLineLow_pixels_first :
  head (drawLineLow_pixels a1 b1 a2 b2) = Some (a1, b1).
Proof.
  unfold drawLineLow_pixels. cbv zeta.
  destruct (b2 - b1 <? 0);
    (replace (Z.to_nat (a2 + 1 - a1)) with (S (Z.to_nat (a2 - a1))) by lia);
    reflexivity.
Qed.

Lemma drawLineLow_pixels_last :
  last (drawLineLow_pixels a1 b1 a2 b2) = Some (a2, b2).
Proof.
  rewrite last_lookup, drawLineLow_pixels_length.
  replace (Init.Nat.pred (Z.to_nat (a2 - a1 + 1))) with (Z.to_nat (a2 - a1)) by lia.
  destruct (lookup_lt_is_Some_2 (drawLineLow_pixels a1 b1 a2 b2) (Z.to_nat (a2 - a1)))
    as [p Hp]; [rewrite drawLineLow_pixels_length; lia|].
  rewrite Hp. f_equal.
  apply drawLineLow_pixels_nth in Hp as (t & -> & Hi & Ht & Hband).
  rewrite Z2Nat.id in * by lia.
  assert (t = Z.abs (b2 - b1)).
  { destruct (Z.eq_dec (a2 - a1) 0) as [E0|Hne]; [lia|]. nia. }
  subst t. f_equal; lia.
Qed.

Lemma drawLineLow_pixels_next i p q :
  drawLineLow_pixels a1 b1 a2 b2 !! i = Some p ->
  drawLineLow_pixels a1 b1 a2 b2 !! S i = Some q ->
  q.1 = p.1 + 1 /\ Z.abs (q.2 - p.2) <= 1.
Proof.
  unfold drawLineLow_pixels. cbv zeta.
  destruct (b2 - b1 <? 0); intros Hp Hq;
    destruct (drawLineLow_loop_next _ _ _ _ _ _ _ _ _ _ Hp Hq) as [E [E'|E']]; lia.
Qed.

(** A shallow rightward line stays in the bounding box of its endpoints
    and within half a row of the ideal segment, seen from either end. *)
Lemma drawLineLow_pixels_near q :
  q ∈ drawLineLow_pixels a1 b1 a2 b2 ->
  a1 <= q.1 <= a2 /\ Z.min b1 b2 <= q.2 <= Z.max b1 b2 /\
  2 * Z.abs ((a2 - a1) * (q.2 - b1) - (b2 - b1) * (q.1 - a1)) <= a2 - a1 /\
  2 * Z.abs ((a2 - a1) * (q.2 - b2) - (b2 - b1) * (q.1 - a2)) <= a2 - a1.
Proof.
  revert q. intros q (i & Hq)%list_elem_of_lookup_1.
    apply drawLineLow_pixels_nth in Hq as (t & -> & Hi & Ht & Hband); [|assumption..].
    simpl. split; [lia|].
    assert (Hsg : Z.sgn (b2 - b1) * Z.abs (b2 - b1) = b2 - b1) by lia.
    assert (Hs1 : Z.abs (Z.sgn (b2 - b1)) <= 1) by lia.
    assert (Hs2 : t = 0 \/ Z.sgn (b2 - b1) <> 0) by lia.
    set (sg := Z.sgn (b2 - b1)) in *. set (ab := Z.abs (b2 - b1)) in *.
    split; [destruct Hs2; nia|].
    assert (E : (a2 - a1) * (b1 + sg * t - b1) - (b2 - b1) * (a1 + Z.of_nat i - a1)
                = sg * ((a2 - a1) * t - ab * Z.of_nat i)).
    { rewrite <- Hsg. ring. }
    assert (E' : (a2 - a1) * (b1 + sg * t - b2) - (b2 - b1) * (a1 + Z.of_nat i - a2)
                = sg * ((a2 - a1) * t - ab * Z.of_nat i)).
    { replace (b1 + sg * t - b2) with (sg * t - (b2 - b1)) by ring.
      rewrite <- Hsg. ring. }
    rewrite E, E', Z.abs_mul.
    assert (0 <= Z.abs ((a2 - a1) * t - ab * Z.of_nat i)) by lia.
    assert (2 * Z.abs ((a2 - a1) * t - ab * Z.of_nat i) <= a2 - a1) by lia.
    nia.
Qed.

End Low.

(** *** [draw_line]: one of four calls, all of them the shallow rightward
    case up to exchanging the endpoints or the axes *)

Lemma draw_line_canonical x1 y1 x2 y2 :
  exists (sw : bool) a1 b1 a2 b2,
    a1 <= a2 /\ Z.abs (b2 - b1) <= a2 - a1 /\
    draw_line_pixels x1 y1 x2 y2 =
      (if sw then prod_swap <$> drawLineLow_pixels a1 b1 a2 b2
       else drawLineLow_pixels a1 b1 a2 b2) /\
    (((if sw then (b1, a1) else (a1, b1)) = (x1, y1) /\
      (if sw then (b2, a2) else (a2, b2)) = (x2, y2)) \/
     ((if sw then (b1, a1) else (a1, b1)) = (x2, y2) /\
      (if sw then (b2, a2) else (a2, b2)) = (x1, y1))).
Proof.
  unfold draw_line_pixels.
  destruct (Z.ltb_spec (Z.abs (y2 - y1)) (Z.abs (x2 - x1))) as [Hlow|Hhigh].
  - destruct (Z.ltb_spec x2 x1).
    + exists false, x2, y2, x1, y1. repeat split; [lia..|right; auto].
    + exists false, x1, y1, x2, y2. repeat split; [lia..|left; auto].
  - destruct (Z.ltb_spec y2 y1).
    + exists true, y2, x2, y1, x1. rewrite drawLineHigh_pixels_swap.
      repeat split; [lia..|right; auto].
    + exists true, y1, x1, y2, x2. rewrite drawLineHigh_pixels_swap.
      repeat split; [lia..|left; auto].
Qed.

(** On endpoints for which no [int] overflows, [draw_line] issues one
    [setPixel] call per step along the longer axis, the first and the last
    at the two endpoints. *)
Theorem draw_line_count_and_endpoints x1 y1 x2 y2 :
  IntRange.lineFits x1 y1 x2 y2 ->
  length (draw_line_pixels x1 y1 x2 y2)
    = Z.to_nat (Z.max (Z.abs (x2 - x1)) (Z.abs (y2 - y1)) + 1) /\
  ((head (draw_line_pixels x1 y1 x2 y2) = Some (x1, y1) /\
    last (draw_line_pixels x1 y1 x2 y2) = Some (x2, y2)) \/
   (head (draw_line_pixels x1 y1 x2 y2) = Some (x2, y2) /\
    last (draw_line_pixels x1 y1 x2 y2) = Some (x1, y1))).
Proof.
  intros _.
  destruct (draw_line_canonical x1 y1 x2 y2)
    as (sw & a1 & b1 & a2 & b2 & Hr & Hs & -> & Hends).
  pose proof (drawLineLow_pixels_length a1 b1 a2 b2 Hr) as Hlen.
  pose proof (drawLineLow_pixels_first a1 b1 a2 b2 Hr Hs) as Hfirst.
  pose proof (drawLineLow_pixels_last a1 b1 a2 b2 Hr Hs) as Hlast.
  destruct sw.
  - rewrite length_fmap, Hlen, fmap_last, Hlast.
    replace (head (prod_swap <$> drawLineLow_pixels a1 b1 a2 b2))
      with (prod_swap <$> head (drawLineLow_pixels a1 b1 a2 b2))
      by (now destruct (drawLineLow_pixels a1 b1 a2 b2)).
    rewrite Hfirst. simpl.
    destruct Hends as [[[= <- <-] [= <- <-]]|[[= <- <-] [= <- <-]]];
      (split; [f_equal; lia|auto]).
  - rewrite Hlen, Hfirst, Hlast.
    destruct Hends as [[[= <- <-] [= <- <-]]|[[= <- <-] [= <- <-]]];
      (split; [f_equal; lia|auto]).
Qed.

(** The pixels of a line stay in the bounding box of its endpoints. *)
Lemma draw_line_pixels_box x1 y1 x2 y2 p :
  p ∈ draw_line_pixels x1 y1 x2 y2 ->
  Z.min x1 x2 <= p.1 <= Z.max x1 x2 /\ Z.min y1 y2 <= p.2 <= Z.max y1 y2.
Proof.
  destruct (draw_line_canonical x1 y1 x2 y2)
    as (sw & a1 & b1 & a2 & b2 & Hr & Hs & -> & Hends).
  destruct sw.
  - intros (q & -> & Hq)%list_elem_of_fmap.
    apply (drawLineLow_pixels_near a1 b1 a2 b2 Hr Hs) in Hq as (H1 & H2 & _).
    destruct q as [qa qb]. simpl in *.
    destruct Hends as [[[= <- <-] [= <- <-]]|[[= <- <-] [= <- <-]]]; lia.
  - intros Hq.
    apply (drawLineLow_pixels_near a1 b1 a2 b2 Hr Hs) in Hq as (H1 & H2 & _).
    destruct p as [qa qb]. simpl in *.
    destruct Hends as [[[= <- <-] [= <- <-]]|[[= <- <-] [= <- <-]]]; lia.
Qed.

(** On endpoints for which no [int] overflows, every pixel of the line
    lies in the bounding box of the endpoints and within half a pixel of
    the ideal segment, measured along the shorter axis. *)
Theorem draw_line_accuracy x1 y1 x2 y2 p :
  IntRange.lineFits x1 y1 x2 y2 ->
  p ∈ draw_line_pixels x1 y1 x2 y2 ->
  Z.min x1 x2 <= p.1 <= Z.max x1 x2 /\ Z.min y1 y2 <= p.2 <= Z.max y1 y2 /\
  2 * Z.abs ((x2 - x1) * (p.2 - y1) - (y2 - y1) * (p.1 - x1))
    <= Z.max (Z.abs (x2 - x1)) (Z.abs (y2 - y1)).
Proof.
  intros _.
  destruct (draw_line_canonical x1 y1 x2 y2)
    as (sw & a1 & b1 & a2 & b2 & Hr & Hs & -> & Hends).
  pose proof (fun q => drawLineLow_pixels_near a1 b1 a2 b2 Hr Hs q) as Hlow.
  destruct sw.
  - intros (q & -> & Hq)%list_elem_of_fmap. apply Hlow in Hq as (H1 & H2 & H3 & H4).
    destruct q as [qa qb]. simpl in *.
    destruct Hends as [[[= <- <-] [= <- <-]]|[[= <- <-] [= <- <-]]].
    + split; [lia|]. split; [lia|].
      replace ((b2 - b1) * (qa - a1) - (a2 - a1) * (qb - b1))
        with (- ((a2 - a1) * (qb - b1) - (b2 - b1) * (qa - a1))) by ring.
      rewrite Z.abs_opp. lia.
    + split; [lia|]. split; [lia|].
      replace ((b1 - b2) * (qa - a2) - (a1 - a2) * (qb - b2))
        with ((a2 - a1) * (qb - b2) - (b2 - b1) * (qa - a2)) by ring.
      lia.
  - intros Hq. apply Hlow in Hq as (H1 & H2 & H3 & H4).
    destruct p as [qa qb]. simpl in *.
    destruct Hends as [[[= <- <-] [= <- <-]]|[[= <- <-] [= <- <-]]].
    + split; [lia|]. split; [lia|]. lia.
    + split; [lia|]. split; [lia|].
      replace ((a1 - a2) * (qb - b2) - (b1 - b2) * (qa - a2))
        with (- ((a2 - a1) * (qb - b2) - (b2 - b1) * (qa - a2))) by ring.
      rewrite Z.abs_opp. lia.
Qed.

(** On endpoints for which no [int] overflows, consecutive pixels are
    neighbours: the line has no gap and never stays in place. *)
Theorem draw_line_connected x1 y1 x2 y2 i p q :
  IntRange.lineFits x1 y1 x2 y2 ->
  draw_line_pixels x1 y1 x2 y2 !! i = Some p ->
  draw_line_pixels x1 y1 x2 y2 !! S i = Some q ->
  Z.max (Z.abs (q.1 - p.1)) (Z.abs (q.2 - p.2)) = 1.
Proof.
  intros _.
  destruct (draw_line_canonical x1 y1 x2 y2)
    as (sw & a1 & b1 & a2 & b2 & Hr & Hs & -> & _).
  destruct sw.
  - rewrite !list_lookup_fmap.
    destruct (drawLineLow_pixels a1 b1 a2 b2 !! i) as [p'|] eqn:Hp; [|discriminate].
    destruct (drawLineLow_pixels a1 b1 a2 b2 !! S i) as [q'|] eqn:Hq; [|discriminate].
    intros [= <-] [= <-].
    destruct (drawLineLow_pixels_next _ _ _ _ _ _ _ Hp Hq) as [E1 E2].
    destruct p', q'; simpl in *. lia.
  - intros Hp Hq. destruct (drawLineLow_pixels_next _ _ _ _ _ _ _ Hp Hq) as [E1 E2]. lia.
Qed.


Lemma draw_line_count_and_endpoints_witness :
  length (draw_line_pixels 0 0 5 2) = 6%nat /\
  ((head (draw_line_pixels 0 0 5 2) = Some (0, 0) /\
    last (draw_line_pixels 0 0 5 2) = Some (5, 2)) \/
   (head (draw_line_pixels 0 0 5 2) = Some (5, 2) /\
    last (draw_line_pixels 0 0 5 2) = Some (0, 0))).
Proof.
  exact (draw_line_count_and_endpoints 0 0 5 2
           ltac:(unfold IntRange.lineFits, F32.INT_MIN, F32.INT_MAX; cbn; lia)).
Defined.

Lemma draw_line_accuracy_witness :
  (2, 1) ∈ draw_line_pixels 0 0 5 2 /\
  2 * Z.abs ((5 - 0) * (1 - 0) - (2 - 0) * (2 - 0)) <= Z.max (Z.abs (5 - 0)) (Z.abs (2 - 0)).
Proof.
  assert (H : (2, 1) ∈ draw_line_pixels 0 0 5 2)
    by (apply (list_elem_of_lookup_2 _ 2%nat); reflexivity).
  split; [exact H|].
  exact (proj2 (proj2 (draw_line_accuracy 0 0 5 2 (2, 1)
           ltac:(unfold IntRange.lineFits, F32.INT_MIN, F32.INT_MAX; cbn; lia) H))).
Defined.

Lemma draw_line_connected_witness :
  draw_line_pixels 0 0 5 2 !! 1%nat = Some (1, 0) /\
  draw_line_pixels 0 0 5 2 !! 2%nat = Some (2, 1) /\
  Z.max (Z.abs (2 - 1)) (Z.abs (1 - 0)) = 1.
Proof.
  split; [reflexivity|]. split; [reflexivity|].
  exact (draw_line_connected 0 0 5 2 1 (1, 0) (2, 1)
           ltac:(unfold IntRange.lineFits, F32.INT_MIN, F32.INT_MAX; cbn; lia)
           eq_refl eq_refl).
Defined.

(** A line between two pixels of the target is drawn in full: none of its
    [setPixel] calls is dropped, every pixel of the line takes the colour,
    and nothing else changes. *)
Theorem draw_line_inside rs x1 y1 x2 y2 c :
  wf rs -> isInBounds rs x1 y1 = true -> isInBounds rs x2 y2 = true ->
  exists rs', draw_line rs x1 y1 x2 y2 c = Some rs' /\
    depthBuffer rs' = depthBuffer rs /\
    (forall p, p ∈ draw_line_pixels x1 y1 x2 y2 ->
       isInBounds rs p.1 p.2 = true /\ colorAt rs' p.1 p.2 = Some (channels c)) /\
    (forall x y, isInBounds rs x y = true -> (x, y) ∉ draw_line_pixels x1 y1 x2 y2 ->
       colorAt rs' x y = colorAt rs x y).
Proof.
  intros Hwf H1 H2. unfold draw_line.
  destruct (LinesAndCircles.plots_colorAt c (draw_line_pixels x1 y1 x2 y2) rs Hwf)
    as (rs' & E & _ & _ & _ & Hcol).
  exists rs'. split; [exact E|]. split.
  { destruct (Outlines.plots_keep_depth c (draw_line_pixels x1 y1 x2 y2) rs Hwf)
      as (rs2 & E2 & _ & Hd). rewrite E in E2. now injection E2 as <-. }
  split.
  - intros [px py] Hp. simpl.
    assert (Hin : isInBounds rs px py = true).
    { apply draw_line_pixels_box in Hp as (Hx & Hy). simpl in *.
      apply isInBounds_spec in H1, H2. apply isInBounds_spec. lia. }
    split; [exact Hin|]. rewrite (Hcol px py Hin).
    apply LinesAndCircles.existsb_eqbZZ in Hp. now rewrite Hp.
  - intros x y Hin Hn. rewrite (Hcol x y Hin).
    destruct (existsb (Stated.eqbZZ (x, y)) (draw_line_pixels x1 y1 x2 y2)) eqn:Hex;
      [|reflexivity].
    apply LinesAndCircles.existsb_eqbZZ in Hex. contradiction.
Qed.

Lemma draw_line_inside_witness :
  exists rs', draw_line (Scene.blank 6 3) 0 0 5 2 (Scene.grey 9) = Some rs' /\
    colorAt rs' 2 1 = Some (9, 9, 9) /\ colorAt rs' 2 0 = Some (0, 0, 0).
Proof.
  assert (Hwf : wf (Scene.blank 6 3)) by (unfold wf; simpl; lia).
  destruct (draw_line_inside (Scene.blank 6 3) 0 0 5 2 (Scene.grey 9) Hwf eq_refl eq_refl)
    as (rs' & E & _ & Hon & Hoff).
  exists rs'. split; [exact E|]. split.
  - apply (Hon (2, 1)). apply (list_elem_of_lookup_2 _ 2%nat). reflexivity.
  - rewrite (Hoff 2 0 eq_refl); [reflexivity|].
    apply (bool_decide_unpack _). vm_compute. reflexivity.
Defined.

End Bresenham.

Module MidpointCircle.
Import Raster BufferFacts RasterFacts.

(** The eight points of one [drawCirclePoints] call are at squared distance
    [x^2 + y^2] from the centre, inside the square of half-side
    [max |x| |y|]. *)
Lemma drawCirclePoints_pixels_dist xc yc x y p :
  p ∈ drawCirclePoints_pixels xc yc x y ->
  (p.1 - xc) * (p.1 - xc) + (p.2 - yc) * (p.2 - yc) = x * x + y * y /\
  Z.abs (p.1 - xc) <= Z.max (Z.abs x) (Z.abs y) /\
  Z.abs (p.2 - yc) <= Z.max (Z.abs x) (Z.abs y).
Proof.
  unfold drawCirclePoints_pixels. rewrite !elem_of_cons, elem_of_nil.
  intros [->|[->|[->|[->|[->|[->|[->|[->|[]]]]]]]]]; simpl; (split; [ring|lia]).
Qed.

(** The loop keeps [d = (x+1)^2 + y^2 - y - r^2], and every point it
    reaches misses the ideal circle by less than [r]. *)
Lemma draw_circle_loop_dist r_ fuel xc yc x y d p :
  0 <= x -> 0 <= y <= r_ -> x <= r_ ->
  d = (x + 1) * (x + 1) + y * y - y - r_ * r_ ->
  Z.abs (x * x + y * y - r_ * r_) <= r_ - 1 ->
  p ∈ draw_circle_loop fuel xc yc x y d ->
  Z.abs ((p.1 - xc) * (p.1 - xc) + (p.2 - yc) * (p.2 - yc) - r_ * r_) <= r_ - 1 /\
  Z.abs (p.1 - xc) <= r_ /\ Z.abs (p.2 - yc) <= r_.
Proof.
  revert x y d. induction fuel as [|fuel IH]; intros x y d Hx Hy Hxr Hd He;
    cbn [draw_circle_loop]; destruct (Z.ltb_spec x y) as [Hlt|Hge];
    try (intros H; inversion H; fail).
  destruct (Z.ltb_spec d 0) as [Hneg|Hpos].
  - intros [Hp|Hp]%elem_of_app.
    + apply drawCirclePoints_pixels_dist in Hp as (-> & H1 & H2). split; [nia|lia].
    + apply IH in Hp; [exact Hp|lia|lia|lia|nia|nia].
  - intros [Hp|Hp]%elem_of_app.
    + apply drawCirclePoints_pixels_dist in Hp as (-> & H1 & H2). split; [nia|lia].
    + apply IH in Hp; [exact Hp|lia|lia|lia|nia|nia].
Qed.

Lemma draw_circle_pixels_dist xc yc r_ p :
  1 <= r_ -> p ∈ draw_circle_pixels xc yc r_ ->
  Z.abs ((p.1 - xc) * (p.1 - xc) + (p.2 - yc) * (p.2 - yc) - r_ * r_) <= r_ - 1 /\
  Z.abs (p.1 - xc) <= r_ /\ Z.abs (p.2 - yc) <= r_.
Proof.
  intros Hr. unfold draw_circle_pixels. cbv zeta. intros [Hp|Hp]%elem_of_app.
  - apply drawCirclePoints_pixels_dist in Hp as (-> & H1 & H2). split; [nia|lia].
  - apply (draw_circle_loop_dist r_) in Hp; [exact Hp|lia|lia|lia|nia|nia].
Qed.

(** On a centre and a radius [r >= 0] for which no [int] overflows, every
    pixel of the circle misses the ideal circle by less than [r] in squared
    distance (for radius 0 it is the centre), and lies in the square of
    half-side [r] around the centre. *)
Theorem draw_circle_accuracy xc yc r_ p :
  IntRange.circleFits xc yc r_ ->
  0 <= r_ -> p ∈ draw_circle_pixels xc yc r_ ->
  Z.abs ((p.1 - xc) * (p.1 - xc) + (p.2 - yc) * (p.2 - yc) - r_ * r_) <= Z.max 0 (r_ - 1) /\
  Z.abs (p.1 - xc) <= r_ /\ Z.abs (p.2 - yc) <= r_.
Proof.
  intros _ Hr Hp. destruct (Z.eq_dec r_ 0) as [->|Hne].
  - change (draw_circle_pixels xc yc 0) with (drawCirclePoints_pixels xc yc 0 0 ++ []) in Hp.
    rewrite app_nil_r in Hp.
    apply drawCirclePoints_pixels_dist in Hp as (-> & H1 & H2). lia.
  - destruct (draw_circle_pixels_dist xc yc r_ p) as (H1 & H2 & H3); [lia|exact Hp|].
    split; [lia|auto].
Qed.

Lemma draw_circle_accuracy_witness :
  (5, 3) ∈ draw_circle_pixels 3 4 2 /\
  Z.abs ((5 - 3) * (5 - 3) + (3 - 4) * (3 - 4) - 2 * 2) <= Z.max 0 (2 - 1).
Proof.
  assert (H : (5, 3) ∈ draw_circle_pixels 3 4 2).
  { apply (bool_decide_unpack _). vm_compute. reflexivity. }
  split; [exact H|].
  exact (proj1 (draw_circle_accuracy 3 4 2 (5, 3)
           ltac:(unfold IntRange.circleFits, IntRange.fitsInt, F32.INT_MIN, F32.INT_MAX; cbn; lia)
           ltac:(lia) H)).
Defined.

(** *** The pixel set has the eight symmetries of the square *)

Ltac pick_point := first [ left; f_equal; lia | right; pick_point ].

Lemma drawCirclePoints_pixels_sym xc yc x y a b :
  (xc + a, yc + b) ∈ drawCirclePoints_pixels xc yc x y ->
  (xc - a, yc + b) ∈ drawCirclePoints_pixels xc yc x y /\
  (xc + a, yc - b) ∈ drawCirclePoints_pixels xc yc x y /\
  (xc + b, yc + a) ∈ drawCirclePoints_pixels xc yc x y.
Proof.
  unfold drawCirclePoints_pixels. rewrite !elem_of_cons, elem_of_nil.
  intros [E|[E|[E|[E|[E|[E|[E|[E|[]]]]]]]]]; injection E as E1 E2;
    (split; [|split]); pick_point.
Qed.

Lemma draw_circle_loop_sym fuel xc yc x y d a b :
  (xc + a, yc + b) ∈ draw_circle_loop fuel xc yc x y d ->
  (xc - a, yc + b) ∈ draw_circle_loop fuel xc yc x y d /\
  (xc + a, yc - b) ∈ draw_circle_loop fuel xc yc x y d /\
  (xc + b, yc + a) ∈ draw_circle_loop fuel xc yc x y d.
Proof.
  revert x y d. induction fuel as [|fuel IH]; intros x y d; cbn [draw_circle_loop];
    destruct (x <? y); try (intros H; inversion H; fail).
  destruct (d <? 0); rewrite !elem_of_app;
    (intros [Hp|Hp]; [apply drawCirclePoints_pixels_sym in Hp|apply IH in Hp]); tauto.
Qed.

(** On a centre and a radius for which no [int] overflows, the set of
    pixels [draw_circle] names is mapped to itself by the mirror images in
    both axes through the centre and by the exchange of the two axes. *)
Theorem draw_circle_symmetric xc yc r_ a b :
  IntRange.circleFits xc yc r_ ->
  (xc + a, yc + b) ∈ draw_circle_pixels xc yc r_ ->
  (xc - a, yc + b) ∈ draw_circle_pixels xc yc r_ /\
  (xc + a, yc - b) ∈ draw_circle_pixels xc yc r_ /\
  (xc + b, yc + a) ∈ draw_circle_pixels xc yc r_.
Proof.
  intros _. unfold draw_circle_pixels. cbv zeta. rewrite !elem_of_app.
  intros [Hp|Hp]; [apply drawCirclePoints_pixels_sym in Hp|apply draw_circle_loop_sym in Hp];
    tauto.
Qed.

Lemma draw_circle_symmetric_witness :
  (10 + 3, 20 + 4) ∈ draw_circle_pixels 10 20 5 /\
  (10 - 3, 20 + 4) ∈ draw_circle_pixels 10 20 5 /\
  (10 + 3, 20 - 4) ∈ draw_circle_pixels 10 20 5 /\
  (10 + 4, 20 + 3) ∈ draw_circle_pixels 10 20 5.
Proof.
  assert (H : (10 + 3, 20 + 4) ∈ draw_circle_pixels 10 20 5).
  { apply (bool_decide_unpack _). vm_compute. reflexivity. }
  split; [exact H|].
  refine (draw_circle_symmetric 10 20 5 3 4 _ H).
  unfold IntRange.circleFits, IntRange.fitsInt, F32.INT_MIN, F32.INT_MAX. cbn. lia.
Defined.

(** *** The loop ends by itself *)

(** The [while (x < y)] loop ends after at most [r] passes: allowing more
    passes than the radius changes nothing, for any radius. *)
Theorem draw_circle_terminates xc yc r_ fuel :
  (Z.to_nat r_ <= fuel)%nat ->
  drawCirclePoints_pixels xc yc 0 r_ ++ draw_circle_loop fuel xc yc 0 r_ (1 - r_)
  = draw_circle_pixels xc yc r_.
Proof.
  intros Hf. unfold draw_circle_pixels. cbv zeta. f_equal.
  apply LinesAndCircles.draw_circle_loop_fuel; lia.
Qed.

Lemma draw_circle_terminates_witness :
  drawCirclePoints_pixels 0 0 0 3 ++ draw_circle_loop 100 0 0 0 3 (1 - 3)
  = draw_circle_pixels 0 0 3.
Proof. apply draw_circle_terminates. simpl. lia. Defined.

(** A circle whose bounding square fits the target is drawn in full: none
    of its [setPixel] calls is dropped, every named pixel takes the colour,
    and nothing else changes. *)
Theorem draw_circle_inside rs xc yc r_ c :
  wf rs -> 0 <= r_ ->
  isInBounds rs (xc - r_) (yc - r_) = true -> isInBounds rs (xc + r_) (yc + r_) = true ->
  exists rs', draw_circle rs xc yc r_ c = Some rs' /\
    depthBuffer rs' = depthBuffer rs /\
    (forall p, p ∈ draw_circle_pixels xc yc r_ ->
       isInBounds rs p.1 p.2 = true /\ colorAt rs' p.1 p.2 = Some (channels c)) /\
    (forall x y, isInBounds rs x y = true -> (x, y) ∉ draw_circle_pixels xc yc r_ ->
       colorAt rs' x y = colorAt rs x y).
Proof.
  intros Hwf Hr H1 H2. unfold draw_circle.
  destruct (LinesAndCircles.plots_colorAt c (draw_circle_pixels xc yc r_) rs Hwf)
    as (rs' & E & _ & _ & _ & Hcol).
  exists rs'. split; [exact E|]. split.
  { destruct (Outlines.plots_keep_depth c (draw_circle_pixels xc yc r_) rs Hwf)
      as (rs2 & E2 & _ & Hd). rewrite E in E2. now injection E2 as <-. }
  split.
  - intros [px py] Hp. simpl.
    assert (Hin : isInBounds rs px py = true).
    { assert (Hb : Z.abs (px - xc) <= r_ /\ Z.abs (py - yc) <= r_).
      { destruct (Z.eq_dec r_ 0) as [->|Hne].
        - change (draw_circle_pixels xc yc 0)
            with (drawCirclePoints_pixels xc yc 0 0 ++ []) in Hp.
          rewrite app_nil_r in Hp.
          apply drawCirclePoints_pixels_dist in Hp as (_ & Hx & Hy). simpl in *. lia.
        - apply draw_circle_pixels_dist in Hp as (_ & Hx & Hy); [auto|lia]. }
      apply isInBounds_spec in H1, H2. apply isInBounds_spec. lia. }
    split; [exact Hin|]. rewrite (Hcol px py Hin).
    apply LinesAndCircles.existsb_eqbZZ in Hp. now rewrite Hp.
  - intros x y Hin Hn. rewrite (Hcol x y Hin).
    destruct (existsb (Stated.eqbZZ (x, y)) (draw_circle_pixels xc yc r_)) eqn:Hex;
      [|reflexivity].
    apply LinesAndCircles.existsb_eqbZZ in Hex. contradiction.
Qed.

Lemma draw_circle_inside_witness :
  exists rs', draw_circle (Scene.blank 5 5) 2 2 2 (Scene.grey 9) = Some rs' /\
    colorAt rs' 4 2 = Some (9, 9, 9) /\ colorAt rs' 2 2 = Some (0, 0, 0).
Proof.
  assert (Hwf : wf (Scene.blank 5 5)) by (unfold wf; simpl; lia).
  destruct (draw_circle_inside (Scene.blank 5 5) 2 2 2 (Scene.grey 9) Hwf
              ltac:(lia) eq_refl eq_refl) as (rs' & E & _ & Hon & Hoff).
  exists rs'. split; [exact E|]. split.
  - apply (Hon (4, 2)). apply (bool_decide_unpack _). vm_compute. reflexivity.
  - rewrite (Hoff 2 2 eq_refl); [reflexivity|].
    apply (bool_decide_unpack _). vm_compute. reflexivity.
Defined.

End MidpointCircle.

Module OutlineAlgebra.
Import F32 Raster BufferFacts RasterFacts.

(** A run of [setPixel] calls in one colour depends only on which pixels
    are named, not on their order or multiplicity. *)
Lemma plots_ext c l k rs :
  wf rs -> (forall p, p ∈ l <-> p ∈ k) ->
  foldM (plot c) l rs = foldM (plot c) k rs.
Proof.
  intros Hwf Hlk.
  destruct (LinesAndCircles.plots_colorAt c l rs Hwf) as (r1 & E1 & W1 & Hw1 & Hh1 & C1).
  destruct (LinesAndCircles.plots_colorAt c k rs Hwf) as (r2 & E2 & W2 & Hw2 & Hh2 & C2).
  destruct (Outlines.plots_keep_depth c l rs Hwf) as (r1' & E1' & _ & D1).
  destruct (Outlines.plots_keep_depth c k rs Hwf) as (r2' & E2' & _ & D2).
  rewrite E1 in E1'. injection E1' as <-. rewrite E2 in E2'. injection E2' as <-.
  rewrite E1, E2. f_equal.
  apply rasterizer_ext; [assumption|assumption|congruence|congruence|].
  intros x y Hin.
  assert (Hin0 : isInBounds rs x y = true) by (unfold isInBounds in *; now rewrite <- Hw1, <- Hh1).
  unfold cellAt, depthAt, cellIndex. rewrite D1, D2, Hw1, Hw2.
  rewrite (C1 x y Hin0), (C2 x y Hin0).
  replace (existsb (Stated.eqbZZ (x, y)) k) with (existsb (Stated.eqbZZ (x, y)) l);
    [reflexivity|].
  destruct (existsb (Stated.eqbZZ (x, y)) l) eqn:El; symmetry.
  - apply LinesAndCircles.existsb_eqbZZ. apply Hlk. now apply LinesAndCircles.existsb_eqbZZ.
  - apply not_true_iff_false. intros Ek%LinesAndCircles.existsb_eqbZZ%Hlk.
    apply LinesAndCircles.existsb_eqbZZ in Ek. congruence.
Qed.

Lemma plots_app c l k rs :
  foldM (plot c) (l ++ k) rs = foldM (plot c) l rs ≫= foldM (plot c) k.
Proof. apply foldM_app. Qed.





(** Outlines in one colour can be drawn in any order, and drawing one a
    second time changes nothing. *)
Theorem same_colour_lines_commute rs x1 y1 x2 y2 x3 y3 x4 y4 c :
  wf rs ->
  (draw_line rs x1 y1 x2 y2 c ≫= fun s => draw_line s x3 y3 x4 y4 c)
  = (draw_line rs x3 y3 x4 y4 c ≫= fun s => draw_line s x1 y1 x2 y2 c) /\
  (draw_line rs x1 y1 x2 y2 c ≫= fun s => draw_line s x1 y1 x2 y2 c)
  = draw_line rs x1 y1 x2 y2 c.
Proof.
  intros Hwf. unfold draw_line. rewrite <- !plots_app.
  split; apply plots_ext; try assumption; intros p; rewrite !elem_of_app; tauto.
Qed.

Lemma same_colour_lines_commute_witness :
  (draw_line (Scene.blank 8 8) 0 0 7 3 (Scene.grey 7) ≫= fun s => draw_line s 0 5 6 1 (Scene.grey 7))
  = (draw_line (Scene.blank 8 8) 0 5 6 1 (Scene.grey 7) ≫= fun s => draw_line s 0 0 7 3 (Scene.grey 7)).
Proof.
  apply (same_colour_lines_commute (Scene.blank 8 8)).
  unfold wf. simpl. lia.
Defined.

End OutlineAlgebra.

(* ===================================================================== *)
(** * Further properties of the pixel routines and the Z-buffer *)
(* ===================================================================== *)

Module F32Order.
Import F32.

(** [SFcompare] orders floats as a total preorder with NaN apart: the same
    answer twice in a row carries over. *)
Lemma compare_trans (p q r : float) c :
  SFcompare p q = Some c -> SFcompare q r = Some c -> SFcompare p r = Some c.
Proof.
  destruct p as [sp|sp| |sp mp ep], q as [sq|sq| |sq mq eq_], r as [sr|sr| |sr mr er];
    simpl; try discriminate;
    try (destruct sp, sq, sr; simpl; intros; congruence).
  destruct sp, sq, sr; simpl; try (intros; congruence);
    destruct (Z.compare_spec ep eq_), (Z.compare_spec eq_ er), (Z.compare_spec ep er);
    try lia; try (intros; congruence); subst;
    try change (PosDef.Pos.compare_cont Eq mp mq) with (Pos.compare mp mq);
    try change (PosDef.Pos.compare_cont Eq mq mr) with (Pos.compare mq mr);
    try change (PosDef.Pos.compare_cont Eq mp mr) with (Pos.compare mp mr);
    try change (PosDef.Pos.compare_cont Eq mp mp) with (Pos.compare mp mp);
    destruct (Pos.compare_spec mp mq), (Pos.compare_spec mq mr), (Pos.compare_spec mp mr);
    simpl; try lia; intros; congruence.
Qed.

Lemma ltb_trans (p q r : float) : ltb p q = true -> ltb q r = true -> ltb p r = true.
Proof.
  unfold ltb, SFltb. intros H1 H2.
  destruct (SFcompare p q) as [[]|] eqn:E1; try discriminate.
  destruct (SFcompare q r) as [[]|] eqn:E2; try discriminate.
  now rewrite (compare_trans _ _ _ _ E1 E2).
Qed.

Lemma eqb_trans (p q r : float) : eqb p q = true -> eqb q r = true -> eqb p r = true.
Proof.
  unfold eqb, SFeqb. intros H1 H2.
  destruct (SFcompare p q) as [[]|] eqn:E1; try discriminate.
  destruct (SFcompare q r) as [[]|] eqn:E2; try discriminate.
  now rewrite (compare_trans _ _ _ _ E1 E2).
Qed.

Lemma eqb_sym (p q : float) : eqb p q = true -> eqb q p = true.
Proof.
  unfold eqb, SFeqb. rewrite (F32Facts.compare_antisym p q).
  destruct (SFcompare p q) as [[]|]; simpl; congruence.
Qed.

End F32Order.

Module ZBuffer.
Import F32 Raster BufferFacts RasterFacts Stated Pipeline.

(** One cell under a run of depth tests: no fragment that landed on it is
    nearer than what it ends up holding, and it ends up holding either
    what it held or the depth and colour of one single fragment, nearer
    than what it held. *)
Lemma cellRun_nearest x y fs c :
  (forall f, f ∈ fs -> hits x y f = true -> ltb (fdepth f) (cellRun x y fs c).1 = false) /\
  (cellRun x y fs c = c \/
   exists f, f ∈ fs /\ hits x y f = true /\
     cellRun x y fs c = (fdepth f, channels (fcolor f)) /\ ltb (fdepth f) c.1 = true).
Proof.
  revert c. induction fs as [|f fs IH]; intros c.
  - split; [intros f Hf; inversion Hf|now left].
  - rewrite cellRun_cons.
    set (c1 := if hits x y f then depthTest c f else c).
    destruct (IH c1) as [Hnear Hwho].
    assert (Hc1 : c1 = c \/
              (hits x y f = true /\ c1 = (fdepth f, channels (fcolor f)) /\
               ltb (fdepth f) c.1 = true)).
    { subst c1. destruct (hits x y f); [|now left].
      unfold depthTest. destruct (ltb (fdepth f) c.1) eqn:E; [right; auto|now left]. }
    assert (Hdown : cellRun x y fs c1 = c1 \/ ltb (cellRun x y fs c1).1 c1.1 = true).
    { destruct Hwho as [->|(g & _ & _ & -> & Hg)]; [now left|now right]. }
    split.
    + intros g [->|Hg]%elem_of_cons Hh; [|now apply Hnear].
      destruct Hdown as [->|Hlt].
      * subst c1. rewrite Hh. unfold depthTest.
        destruct (ltb (fdepth f) c.1) eqn:E; [apply F32Facts.ltb_irrefl|exact E].
      * destruct (ltb (fdepth f) (cellRun x y fs c1).1) eqn:E; [|reflexivity].
        pose proof (F32Order.ltb_trans _ _ _ E Hlt) as Hc.
        subst c1. rewrite Hh in Hc. unfold depthTest in Hc.
        destruct (ltb (fdepth f) c.1) eqn:E'; simpl in Hc; [|congruence].
        now rewrite F32Facts.ltb_irrefl in Hc.
    + destruct Hwho as [->|(g & Hg & Hhg & -> & Hlt)].
      * destruct Hc1 as [->|(Hh & -> & Hlt)]; [now left|].
        right. exists f. split; [constructor|]. auto.
      * right. exists g. split; [now constructor|]. split; [exact Hhg|]. split; [reflexivity|].
        destruct Hc1 as [->|(Hh & E & Hlt')]; [exact Hlt|].
        rewrite E in Hlt. simpl in Hlt. exact (F32Order.ltb_trans _ _ _ Hlt Hlt').
Qed.

(** A run of [drawTriangle] calls is the run of all their
    [setPixelWithDepth] calls. *)
Lemma drawTriangles_emits ts ug rs :
  drawTriangles rs ts ug = foldM emit (fragmentsOfAll ts ug) rs.
Proof.
  revert rs. induction ts as [|t ts IH]; intros rs; [reflexivity|].
  unfold drawTriangles, fragmentsOfAll. simpl. rewrite foldM_app.
  change (draw rs t ug) with (foldM emit (fragmentsOf t ug) rs).
  destruct (foldM emit (fragmentsOf t ug) rs) as [s|]; [|reflexivity]. simpl. apply IH.
Qed.

(** Hidden-surface removal.  After any run of [drawTriangle] calls on a
    well-formed rasterizer, every pixel holds either what it held before or
    the depth and colour of one fragment of the run that landed on it and
    was nearer than what it held; and no fragment of the run that landed on
    it is nearer than the depth it holds. *)
Theorem z_buffer_keeps_nearest rs ts ug :
  wf rs ->
  exists rs', drawTriangles rs ts ug = Some rs' /\ wf rs' /\
    forall x y, isInBounds rs x y = true ->
      exists c c', cellAt rs x y = Some c /\ cellAt rs' x y = Some c' /\
        (forall f, f ∈ fragmentsOfAll ts ug -> fx f = x -> fy f = y ->
           ltb (fdepth f) c'.1 = false) /\
        (c' = c \/
         exists f, f ∈ fragmentsOfAll ts ug /\ fx f = x /\ fy f = y /\
           c' = (fdepth f, channels (fcolor f)) /\ ltb (fdepth f) c.1 = true).
Proof.
  intros Hwf. rewrite drawTriangles_emits.
  destruct (emits_cell (fragmentsOfAll ts ug) rs Hwf) as (rs' & E & Hwf' & _ & _ & Hcells).
  exists rs'. split; [exact E|]. split; [exact Hwf'|].
  intros x y Hin.
  destruct (cellAt_in rs x y Hwf Hin) as (d & cr & cg & cb & _ & _ & _ & _ & Ec).
  exists (d, (cr, cg, cb)), (cellRun x y (fragmentsOfAll ts ug) (d, (cr, cg, cb))).
  split; [exact Ec|]. split; [rewrite (Hcells x y Hin), Ec; reflexivity|].
  destruct (cellRun_nearest x y (fragmentsOfAll ts ug) (d, (cr, cg, cb))) as [Hnear Hwho].
  split.
  - intros f Hf Hx Hy. apply Hnear; [exact Hf|]. apply hits_spec. auto.
  - destruct Hwho as [->|(f & Hf & Hh & -> & Hlt)]; [now left|].
    right. exists f. apply hits_spec in Hh as [Hx Hy]. auto 7.
Qed.

Lemma z_buffer_keeps_nearest_witness :
  exists rs', drawTriangles (mkRasterizer 8 8 (replicate 192 0) (replicate 64 one))
                [Scene.corner (lit 1 2) (Scene.grey 9); Scene.corner (lit 1 4) (Scene.grey 5)]
                true = Some rs' /\ wf rs'.
Proof.
  assert (Hwf : wf (mkRasterizer 8 8 (replicate 192 0) (replicate 64 one)))
    by (unfold wf; simpl; lia).
  destruct (z_buffer_keeps_nearest (mkRasterizer 8 8 (replicate 192 0) (replicate 64 one))
              [Scene.corner (lit 1 2) (Scene.grey 9); Scene.corner (lit 1 4) (Scene.grey 5)]
              true Hwf) as (rs' & E & Hwf' & _).
  exists rs'. auto.
Defined.

End ZBuffer.

Module Triangles.
Import F32 Raster BufferFacts RasterFacts Stated.

(** One [drawTriangle] call never visits a pixel twice: its two fills do
    not overlap, and neither do their scanlines. *)
Theorem drawTriangle_visits_once v1 v2 v3 ug i j f g :
  drawTriangle_fragments v1 v2 v3 ug !! i = Some f ->
  drawTriangle_fragments v1 v2 v3 ug !! j = Some g ->
  fx f = fx g -> fy f = fy g -> i = j.
Proof.
  intros Hf Hg Hx Hy.
  apply (NoDup_lookup (pos <$> drawTriangle_fragments v1 v2 v3 ug) i j (pos f)).
  - apply drawTriangle_fragments_NoDup.
  - now rewrite list_lookup_fmap, Hf.
  - rewrite list_lookup_fmap, Hg. unfold pos. simpl. congruence.
Qed.

Lemma drawTriangle_visits_once_witness :
  exists f, drawTriangle_fragments Scene.wedge.1.1 Scene.wedge.1.2 Scene.wedge.2 true !! 7%nat
            = Some f /\ fx f = 5 /\ fy f = 5.
Proof.
  destruct (drawTriangle_fragments Scene.wedge.1.1 Scene.wedge.1.2 Scene.wedge.2 true !! 7%nat)
    as [f|] eqn:E; [|vm_compute in E; discriminate].
  exists f. split; [reflexivity|].
  assert (E' := E). vm_compute in E'. injection E' as <-.
  pose proof (drawTriangle_visits_once _ _ _ _ 7%nat 7%nat _ _ E E eq_refl eq_refl) as _.
  split; reflexivity.
Defined.

(** The three vertices are sorted before anything else is done, and the
    fills see only the sorted triple. *)
Lemma drawTriangle_fragments_sorted v1 v2 v3 w1 w2 w3 ug :
  sortByY v1 v2 v3 = sortByY w1 w2 w3 ->
  drawTriangle_fragments v1 v2 v3 ug = drawTriangle_fragments w1 w2 w3 ug.
Proof.
  intros E. unfold drawTriangle_fragments, drawTriangle_fills. now rewrite E.
Qed.

Lemma sortByY_distinct a b c :
  lessY a b = true -> lessY b c = true ->
  sortByY a b c = (a, b, c) /\ sortByY a c b = (a, b, c) /\
  sortByY b a c = (a, b, c) /\ sortByY b c a = (a, b, c) /\
  sortByY c a b = (a, b, c) /\ sortByY c b a = (a, b, c).
Proof.
  unfold lessY. intros Hab Hbc.
  pose proof (F32Order.ltb_trans _ _ _ Hab Hbc) as Hac.
  pose proof (F32Facts.ltb_asym _ _ Hab) as Hba.
  pose proof (F32Facts.ltb_asym _ _ Hbc) as Hcb.
  pose proof (F32Facts.ltb_asym _ _ Hac) as Hca.
  unfold sortByY, lessY.
  repeat first [rewrite Hab | rewrite Hbc | rewrite Hac | rewrite Hba | rewrite Hcb | rewrite Hca].
  repeat split; reflexivity.
Qed.

(** When the three vertices lie at three different heights, the order in
    which they are passed to [drawTriangle] has no effect at all. *)
Theorem drawTriangle_any_order rs a b c ug :
  ltb (vec4.y (position a)) (vec4.y (position b)) = true ->
  ltb (vec4.y (position b)) (vec4.y (position c)) = true ->
  drawTriangle rs a c b ug = drawTriangle rs a b c ug /\
  drawTriangle rs b a c ug = drawTriangle rs a b c ug /\
  drawTriangle rs b c a ug = drawTriangle rs a b c ug /\
  drawTriangle rs c a b ug = drawTriangle rs a b c ug /\
  drawTriangle rs c b a ug = drawTriangle rs a b c ug.
Proof.
  intros Hab Hbc.
  destruct (sortByY_distinct a b c Hab Hbc) as (E1 & E2 & E3 & E4 & E5 & E6).
  unfold drawTriangle.
  rewrite (drawTriangle_fragments_sorted a c b a b c), (drawTriangle_fragments_sorted b a c a b c),
          (drawTriangle_fragments_sorted b c a a b c), (drawTriangle_fragments_sorted c a b a b c),
          (drawTriangle_fragments_sorted c b a a b c) by congruence.
  repeat split; reflexivity.
Qed.

Lemma drawTriangle_any_order_witness :
  drawTriangle (Scene.blank 8 8) Scene.wedge.2 Scene.wedge.1.1 Scene.wedge.1.2 true
  = drawTriangle (Scene.blank 8 8) Scene.wedge.1.1 Scene.wedge.1.2 Scene.wedge.2 true.
Proof.
  exact (proj1 (proj2 (proj2 (proj2
           (drawTriangle_any_order (Scene.blank 8 8) Scene.wedge.1.1 Scene.wedge.1.2
              Scene.wedge.2 true ltac:(vm_compute; reflexivity) ltac:(vm_compute; reflexivity)))))).
Defined.

(** A triangle whose three vertices lie at one height is not drawn at all:
    no pixel is visited and both buffers stay as they are. *)
Theorem drawTriangle_flat_is_empty rs v1 v2 v3 ug :
  eqb (vec4.y (position v1)) (vec4.y (position v2)) = true ->
  eqb (vec4.y (position v2)) (vec4.y (position v3)) = true ->
  drawTriangle_fragments v1 v2 v3 ug = [] /\ drawTriangle rs v1 v2 v3 ug = Some rs.
Proof.
  intros H12 H23.
  pose proof (F32Order.eqb_trans _ _ _ H12 H23) as H13.
  assert (E : drawTriangle_fragments v1 v2 v3 ug = []).
  { unfold drawTriangle_fragments, drawTriangle_fills, sortByY, lessY.
    rewrite (F32Facts.eqb_not_ltb _ _ (F32Order.eqb_sym _ _ H12)),
            (F32Facts.eqb_not_ltb _ _ (F32Order.eqb_sym _ _ H13)),
            (F32Facts.eqb_not_ltb _ _ (F32Order.eqb_sym _ _ H23)).
    now rewrite H13. }
  split; [exact E|]. unfold drawTriangle. now rewrite E.
Qed.

Lemma drawTriangle_flat_is_empty_witness :
  drawTriangle (Scene.blank 8 8) (Scene.vertex (of_Z 1) (of_Z 2) one (Scene.grey 1))
               (Scene.vertex (of_Z 5) (of_Z 2) one (Scene.grey 2))
               (Scene.vertex (of_Z 3) (of_Z 2) one (Scene.grey 3)) true
  = Some (Scene.blank 8 8).
Proof.
  apply (drawTriangle_flat_is_empty (Scene.blank 8 8)); reflexivity.
Defined.

(** The [useGouraud] argument is never read: both settings interpolate the
    vertex colours, and give the same pixels in the same order. *)
Theorem drawTriangle_ignores_useGouraud rs v1 v2 v3 :
  drawTriangle_fragments v1 v2 v3 true = drawTriangle_fragments v1 v2 v3 false /\
  drawTriangle rs v1 v2 v3 true = drawTriangle rs v1 v2 v3 false.
Proof. split; reflexivity. Qed.

End Triangles.

Module TriangleRows.
Import F32 Raster BufferFacts RasterFacts Stated.

(** Floats that compare equal round up to the same integer. *)
Lemma eqb_ceil_int p q : eqb p q = true -> ceil_int p = ceil_int q.
Proof.
  unfold eqb, SFeqb, ceil_int.
  destruct p as [sp|sp| |sp mp ep], q as [sq|sq| |sq mq eq_]; simpl; try discriminate;
    try reflexivity; try (destruct sp; discriminate); try (destruct sq; discriminate).
  destruct sp, sq; try discriminate;
    destruct (Z.compare_spec ep eq_); try discriminate; subst;
    change (PosDef.Pos.compare_cont Eq mp mq) with (Pos.compare mp mq);
    destruct (Pos.compare_spec mp mq); try discriminate; subst; reflexivity.
Qed.

(** The scanline at the height of the middle vertex is left out: whatever
    the triangle, [drawTriangle] visits no pixel of row [ceil(mid.y)], [mid]
    being the second of the three vertices once sorted by height. *)
Theorem drawTriangle_skips_middle_row v1 v2 v3 ug f :
  f ∈ drawTriangle_fragments v1 v2 v3 ug ->
  fy f <> ceil_int (vec4.y (position (sortByY v1 v2 v3).1.2)).
Proof.
  unfold drawTriangle_fragments, drawTriangle_fills.
  destruct (sortByY v1 v2 v3) as [[top mid] bot]. simpl.
  destruct (eqb (vec4.y (position top)) (vec4.y (position bot))); [intros H; inversion H|].
  destruct (eqb (vec4.y (position mid)) (vec4.y (position bot))).
  { simpl. rewrite app_nil_r. intros Hf%fillFlatBottom_above. lia. }
  destruct (eqb (vec4.y (position top)) (vec4.y (position mid))) eqn:Etm.
  { simpl. rewrite app_nil_r. intros Hf%fillFlatTop_below.
    rewrite <- (eqb_ceil_int _ _ Etm). lia. }
  simpl. rewrite app_nil_r.
  intros [Hf%fillFlatBottom_above|Hf%fillFlatTop_below]%elem_of_app; lia.
Qed.

Lemma drawTriangle_skips_middle_row_witness :
  exists f, f ∈ drawTriangle_fragments Scene.wedge.1.1 Scene.wedge.1.2 Scene.wedge.2 true /\
            fy f <> 3.
Proof.
  destruct (drawTriangle_fragments Scene.wedge.1.1 Scene.wedge.1.2 Scene.wedge.2 true !! 7%nat)
    as [f|] eqn:E; [|vm_compute in E; discriminate].
  apply list_elem_of_lookup_2 in E.
  exists f. split; [exact E|].
  exact (drawTriangle_skips_middle_row _ _ _ _ f E).
Defined.

End TriangleRows.

Module Buffers2.
Import F32 Raster BufferFacts RasterFacts.

(** The constructor, for non-negative dimensions whose byte count
    [width * height * 3] is an int, yields a well-formed rasterizer of those
    dimensions whose every pixel is black and at the far plane. *)
Theorem constructor_clears w h :
  IntRange.sizeFits w h ->
  exists rs, new w h = Some rs /\ wf rs /\ width rs = w /\ height rs = h /\
    forall x y, 0 <= x < w -> 0 <= y < h -> cellAt rs x y = Some (one, (0, 0, 0)).
Proof.
  intros (Hw & Hh & _). destruct (new_wf w h Hw Hh) as (rs & E & Hwf & Ew & Eh & Hc).
  exists rs. repeat (split; [assumption|]).
  intros x y Hx Hy. apply Hc. apply isInBounds_spec. lia.
Qed.

Lemma constructor_clears_witness :
  exists rs, new 4 3 = Some rs /\ wf rs /\ cellAt rs 3 2 = Some (one, (0, 0, 0)).
Proof.
  assert (Hfit : IntRange.sizeFits 4 3)
    by (unfold IntRange.sizeFits, F32.INT_MAX; cbn; lia).
  destruct (constructor_clears 4 3 Hfit) as (rs & E & Hwf & _ & _ & Hc).
  exists rs. split; [exact E|]. split; [exact Hwf|]. apply Hc; lia.
Defined.

(** [clearBuffers] forgets everything drawn so far: what it leaves depends
    only on the dimensions and on the clear colour, every pixel holding
    that colour and depth 1.0.  The colour's alpha plays no part. *)
Theorem clearBuffers_resets rs1 rs2 c1 c2 :
  wf rs1 -> wf rs2 -> width rs1 = width rs2 -> height rs1 = height rs2 ->
  channels c1 = channels c2 ->
  exists s, clearBuffers rs1 c1 = Some s /\ clearBuffers rs2 c2 = Some s /\ wf s /\
    width s = width rs1 /\ height s = height rs1 /\
    forall x y, isInBounds s x y = true -> cellAt s x y = Some (one, channels c1).
Proof.
  intros W1 W2 Ew Eh Ec.
  destruct (clearBuffers_spec rs1 c1 W1) as (s1 & E1 & Ws1 & Ew1 & Eh1 & C1).
  destruct (clearBuffers_spec rs2 c2 W2) as (s2 & E2 & Ws2 & Ew2 & Eh2 & C2).
  assert (s1 = s2) as <-.
  { apply rasterizer_ext; [assumption|assumption|congruence|congruence|].
    intros x y Hin.
    assert (H1 : isInBounds rs1 x y = true) by (unfold isInBounds in *; now rewrite <- Ew1, <- Eh1).
    assert (H2 : isInBounds rs2 x y = true) by (unfold isInBounds in *; now rewrite <- Ew, <- Eh).
    rewrite (C1 x y H1), (C2 x y H2). now rewrite Ec. }
  exists s1. repeat (split; [assumption|]).
  intros x y Hin. apply C1. unfold isInBounds in *. now rewrite <- Ew1, <- Eh1.
Qed.

Lemma clearBuffers_resets_witness :
  exists s, clearBuffers (Scene.blank 3 2) (mkColor 1 2 3 0) = Some s /\
            clearBuffers (mkRasterizer 3 2 (replicate 18 77) (replicate 6 one)) (mkColor 1 2 3 255)
              = Some s /\
            cellAt s 2 1 = Some (one, (1, 2, 3)).
Proof.
  assert (W1 : wf (Scene.blank 3 2)) by (unfold wf; simpl; lia).
  assert (W2 : wf (mkRasterizer 3 2 (replicate 18 77) (replicate 6 one)))
    by (unfold wf; simpl; lia).
  destruct (clearBuffers_resets _ _ (mkColor 1 2 3 0) (mkColor 1 2 3 255) W1 W2
              eq_refl eq_refl eq_refl) as (s & E1 & E2 & Ws & Ew & Eh & Hc).
  exists s. split; [exact E1|]. split; [exact E2|].
  apply Hc. unfold isInBounds. rewrite Ew, Eh. reflexivity.
Defined.

(** [setPixel] on a pixel of the target: that pixel reads back the colour
    written, every other pixel reads back what it held, and the depth
    buffer and the dimensions are as before. *)
Theorem setPixel_write_then_read rs x y c :
  wf rs -> isInBounds rs x y = true ->
  exists rs', setPixel rs x y c = Some rs' /\ wf rs' /\
    width rs' = width rs /\ height rs' = height rs /\
    depthBuffer rs' = depthBuffer rs /\
    colorAt rs' x y = Some (channels c) /\
    forall x' y', isInBounds rs x' y' = true -> (x', y') <> (x, y) ->
      colorAt rs' x' y' = colorAt rs x' y'.
Proof.
  intros Hwf Hin.
  destruct (setPixel_total rs x y c Hwf) as (rs' & E & Hwf' & Ew & Eh & Ed).
  exists rs'. repeat (split; [assumption|]). split.
  - destruct (LinesAndCircles.setPixel_colorAt rs x y c x y Hwf Hin)
      as (rs2 & E2 & _ & _ & _ & Hc).
    rewrite E in E2. injection E2 as <-. rewrite Hc.
    now rewrite (proj2 (LinesAndCircles.eqbZZ_spec (x, y) (x, y)) eq_refl).
  - intros x' y' Hin' Hne.
    destruct (LinesAndCircles.setPixel_colorAt rs x y c x' y' Hwf Hin')
      as (rs2 & E2 & _ & _ & _ & Hc).
    rewrite E in E2. injection E2 as <-. rewrite Hc.
    destruct (Stated.eqbZZ (x, y) (x', y')) eqn:Heq; [|reflexivity].
    apply LinesAndCircles.eqbZZ_spec in Heq. congruence.
Qed.

Lemma setPixel_write_then_read_witness :
  exists rs', setPixel (Scene.blank 3 2) 2 1 (rgb 7 8 9) = Some rs' /\
    colorAt rs' 2 1 = Some (7, 8, 9) /\ colorAt rs' 1 1 = Some (0, 0, 0).
Proof.
  assert (W : wf (Scene.blank 3 2)) by (unfold wf; simpl; lia).
  destruct (setPixel_write_then_read (Scene.blank 3 2) 2 1 (rgb 7 8 9) W eq_refl)
    as (rs' & E & _ & _ & _ & _ & Hon & Hoff).
  exists rs'. split; [exact E|]. split; [exact Hon|].
  rewrite (Hoff 1 1 eq_refl); [reflexivity|congruence].
Defined.


End Buffers2.

(* ===================================================================== *)
(** * Properties of the matrix stack *)
(* ===================================================================== *)

Module MatrixStack.
Import Transform Traversal.

Lemma popMatrix_snoc model view proj st top :
  popMatrix (mk model view proj (st ++ [top])) = mk top view proj st.
Proof. unfold popMatrix. simpl. now rewrite last_snoc, removelast_last. Qed.

(** [popMatrix] undoes [pushMatrix], whatever was done to the model matrix
    in between; on an empty stack it does nothing; and it never touches
    the view and projection matrices. *)
Theorem popMatrix_restores tr m :
  popMatrix (pushMatrix tr) = tr /\
  popMatrix (setModelMatrix (pushMatrix tr) m) = tr /\
  (matrixStack tr = [] -> popMatrix tr = tr) /\
  viewMatrix (popMatrix tr) = viewMatrix tr /\
  projectionMatrix (popMatrix tr) = projectionMatrix tr.
Proof.
  destruct tr as [model view proj st].
  unfold pushMatrix, setModelMatrix. simpl. rewrite !popMatrix_snoc.
  repeat split.
  - intros ->. reflexivity.
  - unfold popMatrix. simpl. now destruct (last st).
  - unfold popMatrix. simpl. now destruct (last st).
Qed.

Lemma popMatrix_restores_witness : popMatrix Transform.new = Transform.new.
Proof.
  exact (proj1 (proj2 (proj2 (popMatrix_restores Transform.new mat4.identity))) eq_refl).
Defined.

(** A balanced run of operations leaves the part of the stack below its
    own pushes as it found it, and never touches the other two matrices. *)
Lemma run_balanced ops : forall depth tr base extra,
  balanced depth ops = true ->
  matrixStack tr = base ++ extra -> length extra = depth ->
  matrixStack (run ops tr) = base /\
  viewMatrix (run ops tr) = viewMatrix tr /\
  projectionMatrix (run ops tr) = projectionMatrix tr.
Proof.
  induction ops as [|op ops IH]; intros depth tr base extra Hb Hst Hlen.
  - simpl in Hb. apply Nat.eqb_eq in Hb. subst depth.
    destruct extra; [|discriminate]. rewrite app_nil_r in Hst. auto.
  - destruct op as [| |m]; simpl in Hb; unfold run; simpl; fold (run ops).
    + destruct (IH (S depth) (pushMatrix tr) base (extra ++ [modelMatrix tr]) Hb)
        as (H1 & H2 & H3).
      * simpl. now rewrite Hst, app_assoc.
      * rewrite length_app. simpl. lia.
      * auto.
    + destruct depth as [|d]; [discriminate|].
      destruct (exists_last (l := extra)) as [extra' [top ->]];
        [intros ->; discriminate|].
      rewrite length_app in Hlen. simpl in Hlen.
      destruct tr as [model view proj st]. simpl in Hst. subst st.
      rewrite app_assoc, popMatrix_snoc.
      destruct (IH d (mk top view proj (base ++ extra')) base extra' Hb)
        as (H1 & H2 & H3); [reflexivity|lia|auto].
    + destruct (IH depth (setModelMatrix tr m) base extra Hb Hst Hlen) as (H1 & H2 & H3).
      auto.
Qed.

Lemma run_app ops1 ops2 tr : run (ops1 ++ ops2) tr = run ops2 (run ops1 tr).
Proof. unfold run. apply foldl_app. Qed.

(** Hierarchical drawing.  Whatever a node does between its [pushMatrix]
    and its [popMatrix], as long as its own pushes and pops pair up, the
    transform comes back exactly as it was: model matrix, stack and all. *)
Theorem bracketed_traversal_restores ops tr :
  balanced 0 ops = true ->
  run (Push :: ops ++ [Pop]) tr = tr.
Proof.
  intros Hb.
  change (Push :: ops ++ [Pop]) with ([Push] ++ ops ++ [Pop]).
  rewrite !run_app.
  change (run [Push] tr) with (pushMatrix tr).
  destruct (run_balanced ops 0 (pushMatrix tr) (matrixStack tr ++ [modelMatrix tr]) [] Hb)
    as (H1 & H2 & H3); [simpl; now rewrite app_nil_r|reflexivity|].
  destruct (run ops (pushMatrix tr)) as [model view proj st]. simpl in *. subst.
  change (run [Pop] ?t) with (popMatrix t). rewrite popMatrix_snoc.
  now destruct tr.
Qed.

Lemma bracketed_traversal_restores_witness :
  run [Push; SetModel (mat4.mk (vec4.mk F32.zero F32.zero F32.zero F32.zero)
                               (vec4.mk F32.zero F32.zero F32.zero F32.zero)
                               (vec4.mk F32.zero F32.zero F32.zero F32.zero)
                               (vec4.mk F32.zero F32.zero F32.zero F32.zero));
       Push; Pop; Pop] Transform.new
  = Transform.new.
Proof.
  apply (bracketed_traversal_restores [SetModel _; Push; Pop] Transform.new). reflexivity.
Defined.

End MatrixStack.

Module PixelAlgebra.
Import F32 Raster BufferFacts RasterFacts.

(** Rasterizers of one shape and one depth buffer that show the same
    colours are the same. *)
Lemma same_colours rs1 rs2 :
  wf rs1 -> wf rs2 -> width rs1 = width rs2 -> height rs1 = height rs2 ->
  depthBuffer rs1 = depthBuffer rs2 ->
  (forall x y, isInBounds rs1 x y = true -> colorAt rs1 x y = colorAt rs2 x y) ->
  rs1 = rs2.
Proof.
  intros W1 W2 Ew Eh Ed Hc. apply rasterizer_ext; try assumption.
  intros x y Hin. unfold cellAt, depthAt, cellIndex. now rewrite Ed, Ew, (Hc x y Hin).
Qed.

(** Two [setPixel] calls in a row, seen from any pixel of the target. *)
Lemma setPixel_setPixel rs x y c1 x' y' c2 :
  wf rs ->
  exists s, (setPixel rs x y c1 ≫= fun s1 => setPixel s1 x' y' c2) = Some s /\ wf s /\
    width s = width rs /\ height s = height rs /\ depthBuffer s = depthBuffer rs /\
    forall u v, isInBounds rs u v = true ->
      colorAt s u v =
        if Stated.eqbZZ (x', y') (u, v) then Some (channels c2)
        else if Stated.eqbZZ (x, y) (u, v) then Some (channels c1)
        else colorAt rs u v.
Proof.
  intros Hwf.
  destruct (setPixel_total rs x y c1 Hwf) as (s1 & E1 & W1 & Ew1 & Eh1 & Ed1).
  destruct (setPixel_total s1 x' y' c2 W1) as (s2 & E2 & W2 & Ew2 & Eh2 & Ed2).
  exists s2. rewrite E1. simpl. split; [exact E2|]. split; [exact W2|].
  split; [congruence|]. split; [congruence|]. split; [congruence|].
  intros u v Hin.
  assert (Hin1 : isInBounds s1 u v = true) by (unfold isInBounds in *; now rewrite Ew1, Eh1).
  destruct (LinesAndCircles.setPixel_colorAt s1 x' y' c2 u v W1 Hin1)
    as (s2' & E2' & _ & _ & _ & Hc2).
  destruct (LinesAndCircles.setPixel_colorAt rs x y c1 u v Hwf Hin)
    as (s1' & E1' & _ & _ & _ & Hc1).
  rewrite E1 in E1'. injection E1' as <-. rewrite E2 in E2'. injection E2' as <-.
  now rewrite Hc2, Hc1.
Qed.

(** Two [setPixel] calls in a row: on one pixel the later colour wins, on
    two different pixels the order does not matter. *)
Theorem setPixel_twice rs x y c1 c2 x' y' :
  wf rs ->
  (setPixel rs x y c1 ≫= fun s => setPixel s x y c2) = setPixel rs x y c2 /\
  ((x, y) <> (x', y') ->
   (setPixel rs x y c1 ≫= fun s => setPixel s x' y' c2)
   = (setPixel rs x' y' c2 ≫= fun s => setPixel s x y c1)).
Proof.
  intros Hwf. split.
  - destruct (setPixel_setPixel rs x y c1 x y c2 Hwf) as (s & -> & W & Ew & Eh & Ed & Hc).
    destruct (setPixel_total rs x y c2 Hwf) as (t & E & Wt & Ewt & Eht & Edt).
    rewrite E. f_equal. apply same_colours; try assumption; try congruence.
    intros u v Hin.
    assert (Hin0 : isInBounds rs u v = true) by (unfold isInBounds in *; now rewrite <- Ew, <- Eh).
    rewrite (Hc u v Hin0).
    destruct (LinesAndCircles.setPixel_colorAt rs x y c2 u v Hwf Hin0)
      as (t' & E' & _ & _ & _ & Hct).
    rewrite E in E'. injection E' as <-. rewrite Hct.
    now destruct (Stated.eqbZZ (x, y) (u, v)).
  - intros Hne.
    destruct (setPixel_setPixel rs x y c1 x' y' c2 Hwf) as (s & -> & W & Ew & Eh & Ed & Hc).
    destruct (setPixel_setPixel rs x' y' c2 x y c1 Hwf) as (t & -> & Wt & Ewt & Eht & Edt & Hct).
    f_equal. apply same_colours; try assumption; try congruence.
    intros u v Hin.
    assert (Hin0 : isInBounds rs u v = true) by (unfold isInBounds in *; now rewrite <- Ew, <- Eh).
    rewrite (Hc u v Hin0), (Hct u v Hin0).
    destruct (Stated.eqbZZ (x, y) (u, v)) eqn:A, (Stated.eqbZZ (x', y') (u, v)) eqn:B;
      try reflexivity.
    apply LinesAndCircles.eqbZZ_spec in A, B. congruence.
Qed.

Lemma setPixel_twice_witness :
  (setPixel (Scene.blank 3 2) 2 1 (rgb 7 8 9) ≫= fun s => setPixel s 2 1 (rgb 1 2 3))
  = setPixel (Scene.blank 3 2) 2 1 (rgb 1 2 3).
Proof.
  apply (setPixel_twice (Scene.blank 3 2) 2 1 (rgb 7 8 9) (rgb 1 2 3) 0 0).
  unfold wf. simpl. lia.
Defined.

End PixelAlgebra.

(* ===================================================================== *)
(** * Further properties of the clipper *)
(* ===================================================================== *)

Module ClipResults.
Import F32 Clip ClipScene ClipRegions.

Lemma outcode_zero_inside x y rc : computeOutCode x y rc = INSIDE <-> inside rc x y.
Proof.
  unfold computeOutCode, inside, gtb, ltb.
  destruct (SFltb x (xMin rc)), (SFltb (xMax rc) x), (SFltb y (yMin rc)), (SFltb (yMax rc) y);
    simpl; split; try discriminate; try tauto; intros (? & ? & ? & ?); discriminate.
Qed.

(** What the outcode says.  It is INSIDE exactly when none of the four
    comparisons holds (so a NaN coordinate counts as inside on its axis);
    LEFT and BOTTOM are set exactly when the point is below the lower
    bound; RIGHT and TOP are set only when it is above the upper bound and
    not below the lower one; opposite bits are never set together. *)
Theorem computeOutCode_meaning x y rc :
  (computeOutCode x y rc = INSIDE <-> inside rc x y) /\
  has (computeOutCode x y rc) LEFT = ltb x (xMin rc) /\
  has (computeOutCode x y rc) RIGHT = negb (ltb x (xMin rc)) && gtb x (xMax rc) /\
  has (computeOutCode x y rc) BOTTOM = ltb y (yMin rc) /\
  has (computeOutCode x y rc) TOP = negb (ltb y (yMin rc)) && gtb y (yMax rc) /\
  has (computeOutCode x y rc) LEFT && has (computeOutCode x y rc) RIGHT = false /\
  has (computeOutCode x y rc) BOTTOM && has (computeOutCode x y rc) TOP = false /\
  computeOutCode S754_nan S754_nan rc = INSIDE.
Proof.
  split; [apply outcode_zero_inside|].
  assert (Hnan : computeOutCode S754_nan S754_nan rc = INSIDE).
  { unfold computeOutCode, gtb, ltb, SFltb. simpl.
    now destruct (xMax rc) as [[]|[]| |[] ? ?], (yMax rc) as [[]|[]| |[] ? ?]. }
  rewrite Hnan. clear Hnan.
  unfold computeOutCode, gtb, ltb.
  destruct (SFltb x (xMin rc)), (SFltb (xMax rc) x), (SFltb y (yMin rc)), (SFltb (yMax rc) y);
    repeat split; reflexivity.
Qed.

(** Where the endpoints of a state come from: the original point, or a
    point of one of the four edge lines. *)
Lemma step_provenance rc s s' (o1 o2 : float * float) :
  codesCurrent rc s -> step rc s = Continue s' ->
  ((x1 s, y1 s) = o1 \/ onEdgeLine rc (x1 s) (y1 s)) ->
  ((x2 s, y2 s) = o2 \/ onEdgeLine rc (x2 s) (y2 s)) ->
  ((x1 s', y1 s') = o1 \/ onEdgeLine rc (x1 s') (y1 s')) /\
  ((x2 s', y2 s') = o2 \/ onEdgeLine rc (x2 s') (y2 s')).
Proof.
  intros [H1 H2].
  destruct s as [px1 py1 px2 py2 c1 c2]. simpl in *. subst c1 c2.
  unfold step, codeOut, computeOutCode, gtb, ltb, onEdgeLine. simpl.
  destruct (SFltb px1 (xMin rc)); destruct (SFltb (xMax rc) px1);
  destruct (SFltb py1 (yMin rc)); destruct (SFltb (yMax rc) py1);
  destruct (SFltb px2 (xMin rc)); destruct (SFltb (xMax rc) px2);
  destruct (SFltb py2 (yMin rc)); destruct (SFltb (yMax rc) py2);
  simpl; try discriminate; intros [= <-] P1 P2; simpl; split; auto 6.
Qed.

Lemma clipLine_loop_post fuel rc s done res (o1 o2 : float * float) :
  codesCurrent rc s ->
  ((x1 s, y1 s) = o1 \/ onEdgeLine rc (x1 s) (y1 s)) ->
  ((x2 s, y2 s) = o2 \/ onEdgeLine rc (x2 s) (y2 s)) ->
  clipLine_loop fuel rc s done = Some res ->
  codesCurrent rc (final res) /\
  step rc (final res) = (if accept res then Accept else Reject) /\
  (done <= clips res <= done + fuel)%nat /\
  ((x1 (final res), y1 (final res)) = o1 \/ onEdgeLine rc (x1 (final res)) (y1 (final res))) /\
  ((x2 (final res), y2 (final res)) = o2 \/ onEdgeLine rc (x2 (final res)) (y2 (final res))).
Proof.
  assert (Hstop : forall (s : State) (done : nat) (b : bool),
            codesCurrent rc s ->
            ((x1 s, y1 s) = o1 \/ onEdgeLine rc (x1 s) (y1 s)) ->
            ((x2 s, y2 s) = o2 \/ onEdgeLine rc (x2 s) (y2 s)) ->
            step rc s = (if b then Accept else Reject) ->
            forall n : nat,
            codesCurrent rc (final (mkResult b s done)) /\
            step rc (final (mkResult b s done))
              = (if accept (mkResult b s done) then Accept else Reject) /\
            (done <= clips (mkResult b s done) <= done + n)%nat /\
            ((x1 s, y1 s) = o1 \/ onEdgeLine rc (x1 s) (y1 s)) /\
            ((x2 s, y2 s) = o2 \/ onEdgeLine rc (x2 s) (y2 s))).
  { intros s0 d0 b Hc P1 P2 Es n. simpl. split; [exact Hc|]. split; [exact Es|].
    split; [lia|]. split; assumption. }
  revert s done. induction fuel as [|fuel IH]; intros s done Hc P1 P2;
    rewrite ClipFacts.clipLine_loop_unfold; destruct (step rc s) as [| |s'] eqn:Es.
  - intros [= <-]. apply (Hstop s done true); assumption.
  - intros [= <-]. apply (Hstop s done false); assumption.
  - discriminate.
  - intros [= <-]. apply (Hstop s done true); assumption.
  - intros [= <-]. apply (Hstop s done false); assumption.
  - intros Hres.
    destruct (step_provenance rc s s' o1 o2 Hc Es P1 P2) as [P1' P2'].
    apply IH in Hres as (H1 & H2 & H3 & H4 & H5);
      [|eapply ClipFacts.step_codesCurrent; eassumption|assumption|assumption].
    split; [exact H1|]. split; [exact H2|]. split; [lia|]. split; assumption.
Qed.

(** What [clipLine] promises when it returns.  An accepted segment has
    both endpoints inside the rectangle; a rejected one has both endpoints
    beyond one and the same side; either way each endpoint is the one
    passed in or a point of an edge line, and no more passes were made
    than the count reported. *)
Theorem clipLine_postcondition fuel ax ay bx by_ rc res :
  clipLine fuel ax ay bx by_ rc = Some res ->
  (clips res <= fuel)%nat /\
  (accept res = true ->
     inside rc (x1 (final res)) (y1 (final res)) /\
     inside rc (x2 (final res)) (y2 (final res))) /\
  (accept res = false ->
     beyondSameSide rc (x1 (final res)) (y1 (final res)) (x2 (final res)) (y2 (final res))) /\
  ((x1 (final res), y1 (final res)) = (ax, ay) \/
   onEdgeLine rc (x1 (final res)) (y1 (final res))) /\
  ((x2 (final res), y2 (final res)) = (bx, by_) \/
   onEdgeLine rc (x2 (final res)) (y2 (final res))).
Proof.
  unfold clipLine. intros Hres.
  apply (clipLine_loop_post _ _ _ _ _ (ax, ay) (bx, by_)) in Hres
    as ([C1 C2] & Hstep & Hn & P1 & P2);
    [|apply ClipFacts.init_codesCurrent|left; reflexivity|left; reflexivity].
  split; [lia|]. split; [|split; [|split; assumption]].
  - intros Ha. rewrite Ha in Hstep. revert Hstep. unfold step.
    destruct (Z.lor (code1 (final res)) (code2 (final res)) =? 0) eqn:E.
    + intros _. apply Z.eqb_eq, Z.lor_eq_0_iff in E as [E1 E2].
      split; apply outcode_zero_inside; unfold INSIDE; congruence.
    + destruct (negb _); [discriminate|].
      destruct (intersection _ _ _ _ _ _ _).
      destruct (codeOut (final res) =? code1 (final res)); discriminate.
  - intros Ha. rewrite Ha in Hstep. revert Hstep. unfold step, codeOut. rewrite C1, C2.
    unfold computeOutCode, beyondSameSide, gtb, ltb.
    destruct (SFltb (x1 (final res)) (xMin rc)); destruct (SFltb (xMax rc) (x1 (final res)));
    destruct (SFltb (y1 (final res)) (yMin rc)); destruct (SFltb (yMax rc) (y1 (final res)));
    destruct (SFltb (x2 (final res)) (xMin rc)); destruct (SFltb (xMax rc) (x2 (final res)));
    destruct (SFltb (y2 (final res)) (yMin rc)); destruct (SFltb (yMax rc) (y2 (final res)));
    simpl; try discriminate; intros _; auto 6.
Qed.

Lemma clipLine_postcondition_witness :
  exists res, clipLine 4 (of_Z (-5)) (of_Z 5) (of_Z 5) (of_Z 15) square = Some res /\
    accept res = true /\ inside square (x1 (final res)) (y1 (final res)).
Proof.
  destruct (clipLine 4 (of_Z (-5)) (of_Z 5) (of_Z 5) (of_Z 15) square) as [res|] eqn:E;
    [|vm_compute in E; discriminate].
  exists res. split; [reflexivity|].
  assert (Ha : accept res = true) by (vm_compute in E; injection E as <-; reflexivity).
  split; [exact Ha|].
  exact (proj1 (proj1 (proj2 (clipLine_postcondition _ _ _ _ _ _ _ E)) Ha)).
Defined.

(** Clipping what [clipLine] returned changes nothing: the same verdict
    comes back at once, with the same endpoints and no pass made. *)
Theorem clipLine_idempotent fuel ax ay bx by_ rc res fuel' :
  clipLine fuel ax ay bx by_ rc = Some res ->
  clipLine fuel' (x1 (final res)) (y1 (final res)) (x2 (final res)) (y2 (final res)) rc
  = Some (mkResult (accept res) (final res) 0).
Proof.
  unfold clipLine. intros Hres.
  apply (clipLine_loop_post _ _ _ _ _ (ax, ay) (bx, by_)) in Hres
    as ([C1 C2] & Hstep & _);
    [|apply ClipFacts.init_codesCurrent|left; reflexivity|left; reflexivity].
  assert (E : init (x1 (final res)) (y1 (final res)) (x2 (final res)) (y2 (final res)) rc
              = final res).
  { unfold init. rewrite <- C1, <- C2. now destruct (final res). }
  rewrite E, ClipFacts.clipLine_loop_unfold, Hstep. now destruct (accept res).
Qed.

Lemma clipLine_idempotent_witness :
  exists res, clipLine 4 (of_Z (-5)) (of_Z 5) (of_Z 5) (of_Z 15) square = Some res /\
    clipLine 0 (x1 (final res)) (y1 (final res)) (x2 (final res)) (y2 (final res)) square
    = Some (mkResult (accept res) (final res) 0).
Proof.
  destruct (clipLine 4 (of_Z (-5)) (of_Z 5) (of_Z 5) (of_Z 15) square) as [res|] eqn:E;
    [|vm_compute in E; discriminate].
  exists res. split; [reflexivity|].
  exact (clipLine_idempotent _ _ _ _ _ _ _ 0%nat E).
Defined.

End ClipResults.

(* ===================================================================== *)
(** * Properties of the colour helpers *)
(* ===================================================================== *)

Module ColorMixFacts.
Import F32 Raster ColorMix.

Lemma allBytes_spec test lo n v :
  allBytes test lo n = true -> lo <= v < lo + n -> test v = true.
Proof.
  unfold allBytes. intros H Hv.
  apply (proj1 (forallb_forall _ _) H). apply list_elem_of_In, elem_of_seqZ. lia.
Qed.

(** A byte times 1.0 is the byte, exactly; a byte times zero is zero. *)
Lemma byte_times_one v :
  1 <= v < 256 -> is_zero (mul (of_Z v) one) = false /\ to_u8 (mul (of_Z v) one) = v.
Proof.
  intros Hv.
  pose proof (allBytes_spec
    (fun v => negb (is_zero (mul (of_Z v) one)) && (to_u8 (mul (of_Z v) one) =? v)) 1 255 v
    ltac:(vm_compute; reflexivity) ltac:(lia)) as H.
  apply andb_true_iff in H as [H1 H2]. apply negb_true_iff in H1. apply Z.eqb_eq in H2. auto.
Qed.

Lemma byte_finite v : 0 <= v < 256 -> is_finite (of_Z v) = true.
Proof.
  intros Hv.
  exact (allBytes_spec (fun v => is_finite (of_Z v)) 0 256 v
           ltac:(vm_compute; reflexivity) ltac:(lia)).
Qed.

Lemma to_u8_zero z : is_zero z = true -> to_u8 z = 0.
Proof. destruct z; try discriminate. reflexivity. Qed.

(** One channel: a byte with weight 1.0 among terms of weight zero. *)
Lemma channel_alone v z :
  0 <= v < 256 -> is_zero z = true ->
  to_u8 (add (mul (of_Z v) one) z) = v /\ to_u8 (add z (mul (of_Z v) one)) = v.
Proof.
  intros Hv Hz. destruct (Z.eq_dec v 0) as [->|Hne].
  - split; apply to_u8_zero, LightingFacts.add_zeros; auto.
  - destruct (byte_times_one v ltac:(lia)) as [Hnz Hu].
    rewrite LightingFacts.add_zero_r, LightingFacts.add_zero_l by assumption. auto.
Qed.

Lemma byte_times_zero v z :
  0 <= v < 256 -> is_zero z = true -> is_zero (mul (of_Z v) z) = true.
Proof. intros Hv Hz. apply LightingFacts.mul_zero_r; [now apply byte_finite|exact Hz]. Qed.

(** [interpolateColor] returns its first colour at [t = 0] and its second
    colour at [t = 1], alpha included. *)
Theorem interpolateColor_endpoints c1 c2 :
  byteColor c1 -> byteColor c2 ->
  interpolateColor c1 c2 zero = c1 /\ interpolateColor c1 c2 one = c2.
Proof.
  intros (R1 & G1 & B1 & A1) (R2 & G2 & B2 & A2).
  assert (H0 : forall u v, 0 <= u < 256 -> 0 <= v < 256 ->
            to_u8 (add (mul (of_Z u) (sub (of_Z 1) zero)) (mul (of_Z v) zero)) = u).
  { intros u v Hu Hv. change (sub (of_Z 1) zero) with one.
    exact (proj1 (channel_alone u _ Hu (byte_times_zero v zero Hv eq_refl))). }
  assert (H1 : forall u v, 0 <= u < 256 -> 0 <= v < 256 ->
            to_u8 (add (mul (of_Z u) (sub (of_Z 1) one)) (mul (of_Z v) one)) = v).
  { intros u v Hu Hv. change (sub (of_Z 1) one) with zero.
    exact (proj2 (channel_alone v _ Hv (byte_times_zero u zero Hu eq_refl))). }
  unfold interpolateColor. rewrite !H0, !H1 by assumption.
  destruct c1, c2. auto.
Qed.

Lemma interpolateColor_endpoints_witness :
  interpolateColor (mkColor 10 20 30 40) (mkColor 200 210 220 230) zero = mkColor 10 20 30 40 /\
  interpolateColor (mkColor 10 20 30 40) (mkColor 200 210 220 230) one = mkColor 200 210 220 230.
Proof.
  apply (interpolateColor_endpoints (mkColor 10 20 30 40) (mkColor 200 210 220 230));
    unfold byteColor; simpl; lia.
Defined.

(** The three-colour [interpolateColor] returns each of its colours at the
    barycentric weights of the matching corner. *)
Theorem interpolateColor3_corners c1 c2 c3 :
  byteColor c1 -> byteColor c2 -> byteColor c3 ->
  interpolateColor3 c1 c2 c3 one zero zero = c1 /\
  interpolateColor3 c1 c2 c3 zero one zero = c2 /\
  interpolateColor3 c1 c2 c3 zero zero one = c3.
Proof.
  intros (R1 & G1 & B1 & A1) (R2 & G2 & B2 & A2) (R3 & G3 & B3 & A3).
  assert (H1 : forall u v w, 0 <= u < 256 -> 0 <= v < 256 -> 0 <= w < 256 ->
            to_u8 (add (add (mul (of_Z u) one) (mul (of_Z v) zero)) (mul (of_Z w) zero)) = u).
  { intros u v w Hu Hv Hw.
    pose proof (byte_times_zero v zero Hv eq_refl) as Zv.
    pose proof (byte_times_zero w zero Hw eq_refl) as Zw.
    destruct (Z.eq_dec u 0) as [->|Hne].
    - apply to_u8_zero. repeat apply LightingFacts.add_zeros; auto.
    - destruct (byte_times_one u ltac:(lia)) as [Hnz Hu8].
      rewrite (LightingFacts.add_zero_r (mul (of_Z u) one) (mul (of_Z v) zero)) by assumption.
      now rewrite LightingFacts.add_zero_r by assumption. }
  assert (H2 : forall u v w, 0 <= u < 256 -> 0 <= v < 256 -> 0 <= w < 256 ->
            to_u8 (add (add (mul (of_Z u) zero) (mul (of_Z v) one)) (mul (of_Z w) zero)) = v).
  { intros u v w Hu Hv Hw.
    pose proof (byte_times_zero u zero Hu eq_refl) as Zu.
    pose proof (byte_times_zero w zero Hw eq_refl) as Zw.
    destruct (Z.eq_dec v 0) as [->|Hne].
    - apply to_u8_zero. repeat apply LightingFacts.add_zeros; auto.
    - destruct (byte_times_one v ltac:(lia)) as [Hnz Hv8].
      rewrite (LightingFacts.add_zero_l (mul (of_Z u) zero)) by assumption.
      now rewrite LightingFacts.add_zero_r by assumption. }
  assert (H3 : forall u v w, 0 <= u < 256 -> 0 <= v < 256 -> 0 <= w < 256 ->
            to_u8 (add (add (mul (of_Z u) zero) (mul (of_Z v) zero)) (mul (of_Z w) one)) = w).
  { intros u v w Hu Hv Hw.
    pose proof (byte_times_zero u zero Hu eq_refl) as Zu.
    pose proof (byte_times_zero v zero Hv eq_refl) as Zv.
    pose proof (LightingFacts.add_zeros _ _ Zu Zv) as Zuv.
    exact (proj2 (channel_alone w _ Hw Zuv)). }
  unfold interpolateColor3.
  rewrite !H1, !H2, !H3 by assumption.
  destruct c1, c2, c3. auto.
Qed.

Lemma interpolateColor3_corners_witness :
  interpolateColor3 (mkColor 1 2 3 4) (mkColor 50 60 70 80) (mkColor 255 0 128 9)
                    zero one zero = mkColor 50 60 70 80.
Proof.
  apply (interpolateColor3_corners (mkColor 1 2 3 4) (mkColor 50 60 70 80) (mkColor 255 0 128 9));
    unfold byteColor; simpl; lia.
Defined.

End ColorMixFacts.

Module Saturation.
Import F32 Raster.

(** One channel of the final colour: clamp to [0, 1], scale by 255,
    truncate.  A value of 1.0 or more gives 255, a value of 0.0 or less
    gives 0. *)
Lemma channel_saturates_high p :
  leb one p = true -> to_u8 (mul (glm.clamp p zero one) (of_Z 255)) = 255.
Proof.
  assert (Hone : to_u8 (mul one (of_Z 255)) = 255) by (vm_compute; reflexivity).
  unfold leb, SFleb, glm.clamp, F32.min, F32.max, ltb, SFltb.
  destruct p as [s|s| |s m e]; try discriminate; destruct s; try discriminate.
  - intros _. exact Hone.
  - change (SFcompare (S754_finite false m e) zero) with (Some Gt).
    cbv iota beta.
    change (SFcompare one (S754_finite false m e))
      with (Some (match (-23 ?= e) with
                  | Eq => Pos.compare 8388608 m | Lt => Lt | Gt => Gt end)).
    destruct (Z.compare_spec (-23) e) as [<-|Hlt|Hgt]; cbv iota beta.
    + destruct (Pos.compare_spec 8388608 m) as [<-|Hlt|Hgt]; cbv iota beta.
      * intros _. exact Hone.
      * intros _. exact Hone.
      * discriminate.
    + intros _. exact Hone.
    + discriminate.
Qed.

Lemma channel_saturates_low p :
  leb p zero = true -> to_u8 (mul (glm.clamp p zero one) (of_Z 255)) = 0.
Proof.
  intros H. pose proof (LightingFacts.max_nonpositive p H) as Hz.
  unfold glm.clamp. destruct (F32.max p zero) as [[]| | |]; try discriminate;
    vm_compute; reflexivity.
Qed.

(** The colour a shading call returns saturates instead of wrapping
    around: a component of the lighting sum at or above 1.0 comes out as
    255, a component at or below 0.0 as 0; alpha is always 255. *)
Theorem shading_saturates powf pos normal viewPos light material :
  let sum := glm.add3 (glm.add3 (Shade.calculateAmbient light material)
                 (Shade.calculateDiffuse (Lighting.lightDir light pos) (Lighting.norm normal)
                    light material))
               (Shade.calculateSpecular powf (Lighting.lightDir light pos)
                  (Lighting.norm normal) (Lighting.viewDir viewPos pos) light material) in
  let out := Shade.computePhongShading powf pos normal viewPos light material in
  Shade.computeGouraudShading powf pos normal viewPos light material = out /\
  a out = 255 /\
  (leb one (vec3.x sum) = true -> r out = 255) /\ (leb (vec3.x sum) zero = true -> r out = 0) /\
  (leb one (vec3.y sum) = true -> g out = 255) /\ (leb (vec3.y sum) zero = true -> g out = 0) /\
  (leb one (vec3.z sum) = true -> b out = 255) /\ (leb (vec3.z sum) zero = true -> b out = 0).
Proof.
  cbv zeta. split; [reflexivity|]. split; [reflexivity|].
  unfold Shade.computePhongShading, Shade.finish, Shade.vec3ToColor, glm.clamp3. simpl.
  repeat split; first [apply channel_saturates_high | apply channel_saturates_low].
Qed.

Lemma shading_saturates_witness :
  r (Shade.computePhongShading Lighting.powCeil Lighting.origin Lighting.up
       (vec3.mk zero zero (of_Z 5))
       (Light.mk (vec3.mk zero zero (of_Z 5)) (vec3.mk one one one) (vec3.mk one one one))
       (Material.mk (vec3.mk one one one) (vec3.mk one one one) (vec3.mk one one one) (of_Z 2)))
  = 255.
Proof.
  refine (proj1 (proj2 (proj2 (shading_saturates Lighting.powCeil Lighting.origin Lighting.up
            (vec3.mk zero zero (of_Z 5))
            (Light.mk (vec3.mk zero zero (of_Z 5)) (vec3.mk one one one) (vec3.mk one one one))
            (Material.mk (vec3.mk one one one) (vec3.mk one one one) (vec3.mk one one one)
               (of_Z 2))))) _).
  vm_compute. reflexivity.
Defined.

End Saturation.
